(** * The ROI calculator of [RoiCalculator.tsx]

    A shallow embedding of the calculator's pure core: the input helpers
    [parseNum], [clampInt] and [clampMin], the [derived] computation of the
    sanitized component and of the legacy numeric-only component, the
    blur handlers of the five text fields, the change handlers and the
    slider of the legacy component, the texts of the payback and ten-year
    tiles, and the split of a tile's text into a number and a unit by
    [Stat].

    A JavaScript [number] is an IEEE 754 binary64 value, hence a primitive
    [float] here; [+], [-], [*], [/] and the comparisons are the primitive
    operations, specified by the standard library through [Prim2SF]. *)

From Stdlib Require Import ZArith PArith List String Ascii Bool Lia.
From Stdlib Require Import Floats.
From Stdlib Require Uint63.
From Stdlib Require DecimalString DecimalPos.
Import ListNotations.

Set Warnings "-inexact-float".

Local Open Scope float_scope.

(** ** The JavaScript built-ins the component calls *)

Module JS.

Definition number := float.

Definition Infinity : number := infinity.
Definition NaN : number := nan.

(** [Number.isFinite] and the global [isFinite] on a number. *)
Definition isFinite (x : number) : bool := is_finite x.

(** The number of an integer; exact whenever [|z| < 2^53]. *)
Definition of_int (z : Z) : number :=
  match z with
  | Z0 => zero
  | Zpos _ => of_uint63 (Uint63.of_Z z)
  | Zneg p => - of_uint63 (Uint63.of_Z (Zpos p))
  end.

(** [Math.max(a, b)]: NaN when either argument is NaN, and [+0] is larger
    than [-0]. *)
Definition Math_max (a b : number) : number :=
  if is_nan a || is_nan b then NaN
  else if a <? b then b
  else if b <? a then a
  else if get_sign a then b else a.

(** [Math.floor(x)]: the largest integer not above [x]; NaN, the
    infinities, both zeros and every value with a non-negative exponent
    (an integer already) are returned unchanged. *)
Definition Math_floor (x : number) : number :=
  match Prim2SF x with
  | S754_finite s m e =>
      if (0 <=? e)%Z then x
      else of_int (Z.shiftr (cond_Zopp s (Zpos m)) (- e)%Z)
  | _ => x
  end.

(** [Math.round(x)]: the integer closest to [x], ties towards [+Infinity]; the
    result is [-0] for [-0.5 <= x < 0]. Computed on the exact value, as
    [floor (x + 1/2)]. *)
Definition Math_round (x : number) : number :=
  match Prim2SF x with
  | S754_finite s m e =>
      if (0 <=? e)%Z then x
      else
        let n := Z.shiftr (cond_Zopp s (Zpos m) + 2 ^ (- e - 1))%Z (- e)%Z in
        if (n =? 0)%Z then (if s then neg_zero else zero) else of_int n
  | _ => x
  end.

(** *** [Number(s)] on a string: StringToNumber

    Strings are held as UTF-8 bytes. *)

Definition code (c : ascii) : N := N_of_ascii c.

Definition is_digit (c : ascii) : bool :=
  ((48 <=? code c) && (code c <=? 57))%N.

Definition digit_value (c : ascii) : Z := (Z.of_N (code c) - 48)%Z.

(** The value of a digit in a base up to 16, if it is one. *)
Definition digit_in_base (base : Z) (c : ascii) : option Z :=
  let n := code c in
  let v :=
    if ((48 <=? n) && (n <=? 57))%N then Some (Z.of_N n - 48)%Z
    else if ((97 <=? n) && (n <=? 102))%N then Some (Z.of_N n - 87)%Z
    else if ((65 <=? n) && (n <=? 70))%N then Some (Z.of_N n - 55)%Z
    else None in
  match v with
  | Some d => if (d <? base)%Z then Some d else None
  | None => None
  end.

(** Leading StrWhiteSpaceChar removed: TAB, LF, VT, FF, CR, SP, and in
    UTF-8 U+00A0, U+1680, U+2000..U+200A, U+2028, U+2029, U+202F, U+205F,
    U+3000 and U+FEFF. *)
Fixpoint skip_white (s : string) : string :=
  match s with
  | String c1 r1 =>
      let n1 := code c1 in
      if ((9 <=? n1) && (n1 <=? 13) || (n1 =? 32))%N then skip_white r1
      else
        match r1 with
        | String c2 r2 =>
            let n2 := code c2 in
            if ((n1 =? 194) && (n2 =? 160))%N then skip_white r2
            else
              match r2 with
              | String c3 r3 =>
                  let n3 := code c3 in
                  if ((n1 =? 225) && (n2 =? 154) && (n3 =? 128)
                      || (n1 =? 226) && (n2 =? 128)
                         && ((128 <=? n3) && (n3 <=? 138)
                             || (n3 =? 168) || (n3 =? 169) || (n3 =? 175))
                      || (n1 =? 226) && (n2 =? 129) && (n3 =? 159)
                      || (n1 =? 227) && (n2 =? 128) && (n3 =? 128)
                      || (n1 =? 239) && (n2 =? 187) && (n3 =? 191))%N
                  then skip_white r3
                  else s
              | EmptyString => s
              end
        | EmptyString => s
        end
  | EmptyString => s
  end.

(** Trailing white space removed: the longest suffix that [skip_white]
    consumes whole. *)
Fixpoint trim_end (s : string) : string :=
  match s with
  | EmptyString => EmptyString
  | String c r =>
      match skip_white s with
      | EmptyString => EmptyString
      | _ => String c (trim_end r)
      end
  end.

Definition trim (s : string) : string := trim_end (skip_white s).

(** A run of decimal digits: the integer read so far, how many digits were
    read, and what follows. *)
Fixpoint decimal_digits (s : string) (acc : Z) (count : Z) : Z * Z * string :=
  match s with
  | String c r =>
      if is_digit c then decimal_digits r (10 * acc + digit_value c)%Z (count + 1)%Z
      else (acc, count, s)
  | EmptyString => (acc, count, s)
  end.

(** A non-empty run of digits of [base] up to the end of the string. *)
Fixpoint based_digits (base : Z) (s : string) (acc : Z) : option Z :=
  match s with
  | String c r =>
      match digit_in_base base c with
      | Some d =>
          match r with
          | EmptyString => Some (base * acc + d)%Z
          | _ => based_digits base r (base * acc + d)%Z
          end
      | None => None
      end
  | EmptyString => None
  end.

(** The number closest to [m * 10^scale], ties to even, for [0 <= m]. *)
Definition decimal_value (m scale : Z) : number :=
  match m with
  | Zpos p =>
      match scale with
      | Zneg k =>
          SF2Prim (SFdiv prec emax (S754_finite false p 0)
                                   (S754_finite false (10 ^ k) 0))
      | _ => SF2Prim (binary_normalize prec emax (m * 10 ^ scale)%Z 0 false)
      end
  | _ => zero
  end.

(** ExponentPart after its [e] or [E]: an optional sign and at least one
    digit, up to the end of the string. *)
Definition exponent_part (s : string) : option Z :=
  let '(neg, digits) :=
    match s with
    | String "+" r => (false, r)
    | String "-" r => (true, r)
    | _ => (false, s)
    end in
  match decimal_digits digits 0 0 with
  | (e, count, EmptyString) =>
      if (0 <? count)%Z then Some (if neg then (- e)%Z else e) else None
  | _ => None
  end.

(** StrUnsignedDecimalLiteral. *)
Definition unsigned_decimal (s : string) : number :=
  if String.eqb s "Infinity" then Infinity
  else
    let '(int_part, int_count, after_int) := decimal_digits s 0 0 in
    let '(mantissa, frac_count, after_frac, has_dot) :=
      match after_int with
      | String "." r =>
          let '(m, total, rest) := decimal_digits r int_part 0 in
          (m, total, rest, true)
      | _ => (int_part, 0%Z, after_int, false)
      end in
    if (if has_dot then (0 <? int_count + frac_count)%Z else (0 <? int_count)%Z)
    then
      match after_frac with
      | EmptyString => decimal_value mantissa (- frac_count)%Z
      | String c r =>
          if (code c =? 101)%N || (code c =? 69)%N then
            match exponent_part r with
            | Some e => decimal_value mantissa (e - frac_count)%Z
            | None => NaN
            end
          else NaN
      end
    else NaN.

(** StrNumericLiteral: a signed decimal literal, or an unsigned binary,
    octal or hexadecimal integer literal. *)
Definition numeric_literal (s : string) : number :=
  let based base digits :=
    match based_digits base digits 0 with
    | Some z => SF2Prim (binary_normalize prec emax z 0 false)
    | None => NaN
    end in
  match s with
  | String "0" (String "x" r) | String "0" (String "X" r) => based 16%Z r
  | String "0" (String "o" r) | String "0" (String "O" r) => based 8%Z r
  | String "0" (String "b" r) | String "0" (String "B" r) => based 2%Z r
  | String "+" r => unsigned_decimal r
  | String "-" r => - unsigned_decimal r
  | _ => unsigned_decimal s
  end.

(** [Number(s)] for a string [s]: white space is trimmed, the empty
    string is 0, anything that is not a numeric literal is NaN. *)
Definition Number (s : string) : number :=
  match trim s with
  | EmptyString => zero
  | t => numeric_literal t
  end.

(** [Number(String(x))] for a number [x]. Number::toString prints "NaN",
    "Infinity", "-Infinity", "0" for both zeros, and otherwise the shortest
    decimal that reads back as [x]; none of them holds a comma. *)
Definition Number_of_String (x : number) : number :=
  if PrimFloat.is_zero x then zero else x.

(** [n || 0] for an array length [n]: 0 is the one falsy length. *)
Definition or_zero (n : nat) : nat :=
  match n with
  | O => O
  | S _ => n
  end.

(** [String.prototype.replace(",", ".")]: the first comma only. *)
Fixpoint replace_comma (s : string) : string :=
  match s with
  | EmptyString => EmptyString
  | String c r =>
      if Ascii.eqb c "," then String "." r else String c (replace_comma r)
  end.

End JS.

Import JS.

(** ** Types *)

(** A field that is edited as text: [number | string], and the
    [undefined] and [null] that [parseNum] also checks for. *)
Inductive raw : Type :=
  | RString (s : string)
  | RNumber (n : number)
  | RUndefined
  | RNull.

(** [RoiInputs] of the sanitized component. [horizonYears], the projection
    length in years, is a constant of the component that no field edits; it
    is only ever used as an array length,
    [Array.from({ length: horizonYears + 1 }, (_, i) => i)], and is held as
    the natural number it is (an array length is below [2^32]; what
    [Array.from] does beyond is not modelled). *)
Record RoiInputs : Type := {
  householdSize : raw;
  electricityPrice : raw;
  systemCost : raw;
  grant : raw;
  kwhPerPerson : raw;
  maintenance : number;
  savingsRatio : number;
  horizonYears : nat
}.

Record Point : Type := { year : nat; value : number }.

Record DerivedResults : Type := {
  annualHotWaterKwh : number;
  annualHotWaterCost : number;
  annualSavings : number;
  netAnnualSavings : number;
  upfront : number;
  paybackYears : number;
  data : list Point;
  tenYearRoi : number
}.

(** ** Defaults *)

Definition defaultInputs : RoiInputs := {|
  householdSize := RNumber 3;
  electricityPrice := RNumber 1.95;
  systemCost := RNumber 29000;
  grant := RNumber 0;
  maintenance := 0;
  savingsRatio := 0.66;
  kwhPerPerson := RNumber 1000;
  horizonYears := 15
|}.

(** ** Helpers *)

Definition parseNum (v : raw) : option number :=
  match v with
  | RString EmptyString | RUndefined | RNull => None
  | RString s =>
      let n := Number (replace_comma s) in
      if isFinite n then Some n else None
  | RNumber x =>
      let n := Number_of_String x in
      if isFinite n then Some n else None
  end.

Definition clampInt (n : option number) (min : number) : option number :=
  match n with
  | None => None
  | Some n => Some (Math_max min (Math_floor n))
  end.

Definition clampMin (n : option number) (min : number) : option number :=
  match n with
  | None => None
  | Some n => Some (Math_max min n)
  end.

(** [a ?? b] *)
Definition nullish (a : option number) (b : number) : number :=
  match a with
  | Some x => x
  | None => b
  end.

(** ** The derived results *)

(** [years.map(year => { if (year > 0) cumulative += netAnnualSavings;
    return { year, value: Math.round(cumulative) } })], the closure's
    variable [cumulative] threaded through the traversal. *)
Fixpoint cash_flow (netAnnualSavings cumulative : number) (years : list nat)
  : list Point :=
  match years with
  | [] => []
  | year :: rest =>
      let cumulative :=
        if (0 <? year)%nat then cumulative + netAnnualSavings else cumulative in
      {| year := year; value := Math_round cumulative |}
        :: cash_flow netAnnualSavings cumulative rest
  end.

Definition derived (form : RoiInputs) : DerivedResults :=
  let householdSize := clampInt (parseNum form.(householdSize)) 1 in
  let electricityPrice := clampMin (parseNum form.(electricityPrice)) 0.1 in
  let systemCost := nullish (clampInt (parseNum form.(systemCost)) 0) 0 in
  let grant := nullish (clampInt (parseNum form.(grant)) 0) 0 in
  let kwhPerPerson := clampInt (parseNum form.(kwhPerPerson)) 500 in
  match householdSize, electricityPrice, kwhPerPerson with
  | Some householdSize, Some electricityPrice, Some kwhPerPerson =>
      let annualHotWaterKwh := householdSize * kwhPerPerson in
      let annualHotWaterCost := annualHotWaterKwh * electricityPrice in
      let annualSavings := annualHotWaterCost * form.(savingsRatio) in
      let netAnnualSavings := Math_max (annualSavings - form.(maintenance)) 0 in
      let upfront := Math_max (systemCost - grant) 0 in
      let paybackYears :=
        if 0 <? netAnnualSavings then upfront / netAnnualSavings else Infinity in
      let years := seq 0 (form.(horizonYears) + 1) in
      let data := cash_flow netAnnualSavings (- upfront) years in
      let tenYearRoi :=
        if 0 <? upfront then (netAnnualSavings * 10 - upfront) / upfront else 0 in
      {| annualHotWaterKwh := annualHotWaterKwh;
         annualHotWaterCost := annualHotWaterCost;
         annualSavings := annualSavings;
         netAnnualSavings := netAnnualSavings;
         upfront := upfront;
         paybackYears := paybackYears;
         data := data;
         tenYearRoi := tenYearRoi |}
  | _, _, _ =>
      (* Guard: if required inputs are missing, return safe zeros *)
      let years := seq 0 (or_zero form.(horizonYears) + 1) in
      {| annualHotWaterKwh := 0;
         annualHotWaterCost := 0;
         annualSavings := 0;
         netAnnualSavings := 0;
         upfront := Math_max (systemCost - grant) 0;
         paybackYears := Infinity;
         data := map (fun year => {| year := year; value := 0 |}) years;
         tenYearRoi := 0 |}
  end.

(** ** The field handlers *)

(** [onChange]: the text of the input is stored as it is typed. *)
Definition onChange_householdSize (form : RoiInputs) (text : string) : RoiInputs :=
  {| householdSize := RString text;
     electricityPrice := form.(electricityPrice);
     systemCost := form.(systemCost);
     grant := form.(grant);
     kwhPerPerson := form.(kwhPerPerson);
     maintenance := form.(maintenance);
     savingsRatio := form.(savingsRatio);
     horizonYears := form.(horizonYears) |}.

Definition onChange_electricityPrice (form : RoiInputs) (text : string) : RoiInputs :=
  {| householdSize := form.(householdSize);
     electricityPrice := RString text;
     systemCost := form.(systemCost);
     grant := form.(grant);
     kwhPerPerson := form.(kwhPerPerson);
     maintenance := form.(maintenance);
     savingsRatio := form.(savingsRatio);
     horizonYears := form.(horizonYears) |}.

Definition onChange_systemCost (form : RoiInputs) (text : string) : RoiInputs :=
  {| householdSize := form.(householdSize);
     electricityPrice := form.(electricityPrice);
     systemCost := RString text;
     grant := form.(grant);
     kwhPerPerson := form.(kwhPerPerson);
     maintenance := form.(maintenance);
     savingsRatio := form.(savingsRatio);
     horizonYears := form.(horizonYears) |}.

Definition onChange_grant (form : RoiInputs) (text : string) : RoiInputs :=
  {| householdSize := form.(householdSize);
     electricityPrice := form.(electricityPrice);
     systemCost := form.(systemCost);
     grant := RString text;
     kwhPerPerson := form.(kwhPerPerson);
     maintenance := form.(maintenance);
     savingsRatio := form.(savingsRatio);
     horizonYears := form.(horizonYears) |}.

Definition onChange_kwhPerPerson (form : RoiInputs) (text : string) : RoiInputs :=
  {| householdSize := form.(householdSize);
     electricityPrice := form.(electricityPrice);
     systemCost := form.(systemCost);
     grant := form.(grant);
     kwhPerPerson := RString text;
     maintenance := form.(maintenance);
     savingsRatio := form.(savingsRatio);
     horizonYears := form.(horizonYears) |}.

(** What an [onBlur] handler stores: the empty string when [n] is
    [undefined], and [n] otherwise. *)
Definition committed (n : option number) : raw :=
  match n with
  | None => RString EmptyString
  | Some n => RNumber n
  end.

Definition onBlur_householdSize (f : RoiInputs) : RoiInputs :=
  let n := clampInt (parseNum f.(householdSize)) 1 in
  {| householdSize := committed n;
     electricityPrice := f.(electricityPrice);
     systemCost := f.(systemCost);
     grant := f.(grant);
     kwhPerPerson := f.(kwhPerPerson);
     maintenance := f.(maintenance);
     savingsRatio := f.(savingsRatio);
     horizonYears := f.(horizonYears) |}.

Definition onBlur_electricityPrice (f : RoiInputs) : RoiInputs :=
  let n := clampMin (parseNum f.(electricityPrice)) 0.1 in
  {| householdSize := f.(householdSize);
     electricityPrice := committed n;
     systemCost := f.(systemCost);
     grant := f.(grant);
     kwhPerPerson := f.(kwhPerPerson);
     maintenance := f.(maintenance);
     savingsRatio := f.(savingsRatio);
     horizonYears := f.(horizonYears) |}.

Definition onBlur_systemCost (f : RoiInputs) : RoiInputs :=
  let n := clampInt (parseNum f.(systemCost)) 0 in
  {| householdSize := f.(householdSize);
     electricityPrice := f.(electricityPrice);
     systemCost := committed n;
     grant := f.(grant);
     kwhPerPerson := f.(kwhPerPerson);
     maintenance := f.(maintenance);
     savingsRatio := f.(savingsRatio);
     horizonYears := f.(horizonYears) |}.

Definition onBlur_grant (f : RoiInputs) : RoiInputs :=
  let n := clampInt (parseNum f.(grant)) 0 in
  {| householdSize := f.(householdSize);
     electricityPrice := f.(electricityPrice);
     systemCost := f.(systemCost);
     grant := committed n;
     kwhPerPerson := f.(kwhPerPerson);
     maintenance := f.(maintenance);
     savingsRatio := f.(savingsRatio);
     horizonYears := f.(horizonYears) |}.

Definition onBlur_kwhPerPerson (f : RoiInputs) : RoiInputs :=
  let n := clampInt (parseNum f.(kwhPerPerson)) 500 in
  {| householdSize := f.(householdSize);
     electricityPrice := f.(electricityPrice);
     systemCost := f.(systemCost);
     grant := f.(grant);
     kwhPerPerson := committed n;
     maintenance := f.(maintenance);
     savingsRatio := f.(savingsRatio);
     horizonYears := f.(horizonYears) |}.

(** ** The legacy component: every field is a number *)

Module Legacy.

Record RoiInputs : Type := {
  householdSize : number;
  electricityPrice : number;
  systemCost : number;
  grant : number;
  maintenance : number;
  savingsRatio : number;
  kwhPerPerson : number;
  horizonYears : nat
}.

Definition defaultInputs : RoiInputs := {|
  householdSize := 3;
  electricityPrice := 1.95;
  systemCost := 29000;
  grant := 0;
  maintenance := 0;
  savingsRatio := 0.66;
  kwhPerPerson := 1000;
  horizonYears := 15
|}.

Definition derived (form : RoiInputs) : DerivedResults :=
  let annualHotWaterKwh := form.(householdSize) * form.(kwhPerPerson) in
  let annualHotWaterCost := annualHotWaterKwh * form.(electricityPrice) in
  let annualSavings := annualHotWaterCost * form.(savingsRatio) in
  let netAnnualSavings := Math_max (annualSavings - form.(maintenance)) 0 in
  let upfront := Math_max (form.(systemCost) - form.(grant)) 0 in
  let paybackYears :=
    if 0 <? netAnnualSavings then upfront / netAnnualSavings else Infinity in
  let years := seq 0 (form.(horizonYears) + 1) in
  let data := cash_flow netAnnualSavings (- upfront) years in
  let tenYearRoi :=
    if 0 <? upfront then (netAnnualSavings * 10 - upfront) / upfront else 0 in
  {| annualHotWaterKwh := annualHotWaterKwh;
     annualHotWaterCost := annualHotWaterCost;
     annualSavings := annualSavings;
     netAnnualSavings := netAnnualSavings;
     upfront := upfront;
     paybackYears := paybackYears;
     data := data;
     tenYearRoi := tenYearRoi |}.

(** [onChange] of the five number inputs: [Number(e.target.value)]. *)
Definition onChange_householdSize (form : RoiInputs) (text : string) : RoiInputs :=
  {| householdSize := Number text;
     electricityPrice := form.(electricityPrice);
     systemCost := form.(systemCost);
     grant := form.(grant);
     maintenance := form.(maintenance);
     savingsRatio := form.(savingsRatio);
     kwhPerPerson := form.(kwhPerPerson);
     horizonYears := form.(horizonYears) |}.

Definition onChange_electricityPrice (form : RoiInputs) (text : string) : RoiInputs :=
  {| householdSize := form.(householdSize);
     electricityPrice := Number text;
     systemCost := form.(systemCost);
     grant := form.(grant);
     maintenance := form.(maintenance);
     savingsRatio := form.(savingsRatio);
     kwhPerPerson := form.(kwhPerPerson);
     horizonYears := form.(horizonYears) |}.

Definition onChange_systemCost (form : RoiInputs) (text : string) : RoiInputs :=
  {| householdSize := form.(householdSize);
     electricityPrice := form.(electricityPrice);
     systemCost := Number text;
     grant := form.(grant);
     maintenance := form.(maintenance);
     savingsRatio := form.(savingsRatio);
     kwhPerPerson := form.(kwhPerPerson);
     horizonYears := form.(horizonYears) |}.

Definition onChange_grant (form : RoiInputs) (text : string) : RoiInputs :=
  {| householdSize := form.(householdSize);
     electricityPrice := form.(electricityPrice);
     systemCost := form.(systemCost);
     grant := Number text;
     maintenance := form.(maintenance);
     savingsRatio := form.(savingsRatio);
     kwhPerPerson := form.(kwhPerPerson);
     horizonYears := form.(horizonYears) |}.

Definition onChange_kwhPerPerson (form : RoiInputs) (text : string) : RoiInputs :=
  {| householdSize := form.(householdSize);
     electricityPrice := form.(electricityPrice);
     systemCost := form.(systemCost);
     grant := form.(grant);
     maintenance := form.(maintenance);
     savingsRatio := form.(savingsRatio);
     kwhPerPerson := Number text;
     horizonYears := form.(horizonYears) |}.

(** The slider of the savings ratio. Its [value] is
    [[Math.round(form.savingsRatio * 100)]]; its [onValueChange] stores
    [v[0] / 100], which is NaN for an empty [v], [undefined / 100]. *)
Definition slider_value (form : RoiInputs) : list number :=
  [Math_round (form.(savingsRatio) * 100)].

Definition onValueChange (form : RoiInputs) (v : list number) : RoiInputs :=
  {| householdSize := form.(householdSize);
     electricityPrice := form.(electricityPrice);
     systemCost := form.(systemCost);
     grant := form.(grant);
     maintenance := form.(maintenance);
     savingsRatio := nth 0 v NaN / 100;
     kwhPerPerson := form.(kwhPerPerson);
     horizonYears := form.(horizonYears) |}.

End Legacy.

(** The form of the sanitized component that holds the numbers of a legacy
    form. *)
Definition as_text_form (form : Legacy.RoiInputs) : RoiInputs :=
  {| householdSize := RNumber form.(Legacy.householdSize);
     electricityPrice := RNumber form.(Legacy.electricityPrice);
     systemCost := RNumber form.(Legacy.systemCost);
     grant := RNumber form.(Legacy.grant);
     kwhPerPerson := RNumber form.(Legacy.kwhPerPerson);
     maintenance := form.(Legacy.maintenance);
     savingsRatio := form.(Legacy.savingsRatio);
     horizonYears := form.(Legacy.horizonYears) |}.

(** ** The JavaScript built-ins the result tiles call

    [String(x)] on a number, Number::toString, which a template literal
    applies to a number, and [toFixed]. A finite number other than 0 is
    printed by the digits [s] of the shortest decimal [s * 10^(n-k)], of
    [k] digits, that reads as the number. *)

(** The decimal digits of an integer that is not negative. *)
Definition decimal (z : Z) : string :=
  DecimalString.NilEmpty.string_of_uint (N.to_uint (Z.to_N z)).

Fixpoint zeros (count : nat) : string :=
  match count with
  | O => EmptyString
  | S count => String "0" (zeros count)
  end.

(** The value [m * 2^e] of a finite number as a fraction of two positive
    integers. *)
Definition numerator (m : positive) (e : Z) : Z :=
  if (0 <=? e)%Z then (Zpos m * 2 ^ e)%Z else Zpos m.

Definition denominator (e : Z) : Z :=
  if (0 <=? e)%Z then 1%Z else (2 ^ (- e))%Z.

(** [num / den] divided by [10^q], as a fraction again. *)
Definition scaled (num den q : Z) : Z * Z :=
  if (0 <=? q)%Z then (num, den * 10 ^ q)%Z else (num * 10 ^ (- q), den)%Z.

(** The least [n' >= n] with [a / b < 10^(n' - n)], the denominator
    multiplied by 10 at every step. From [n = -324], which is below every
    number, 640 steps reach beyond the largest number. *)
Fixpoint magnitude (fuel : nat) (a b n : Z) : Z :=
  match fuel with
  | O => n
  | S fuel => if (a <? b)%Z then n else magnitude fuel a (b * 10)%Z (n + 1)%Z
  end.

(** [s * 10^q] is a decimal that reads as [x]. *)
Definition reads_as (x : number) (s q : Z) : bool := decimal_value s q =? x.

(** The decimal of [k] digits that reads as [x], if there is one, as its
    digits [s] and the [n] with [10^(n-1) <= s * 10^(n-k) < 10^n]: of the
    two decimals of [k] digits around [x], the one that reads as [x]; when
    both do the nearer one, and the even one when both are as near. *)
Definition candidate (x : number) (num den n0 k : Z) : option (Z * Z) :=
  let '(a, b) := scaled num den (n0 - k) in
  let lo := (a / b)%Z in
  let r := (a mod b)%Z in
  let '(hi, q_hi, n_hi) :=
    if (lo + 1 =? 10 ^ k)%Z then (10 ^ (k - 1), n0 - k + 1, n0 + 1)%Z
    else (lo + 1, n0 - k, n0)%Z in
  let ok_lo := reads_as x lo (n0 - k) in
  let ok_hi := reads_as x hi q_hi in
  let nearer_lo := ((2 * r <? b) || (2 * r =? b) && Z.even lo)%Z in
  if ok_lo && (nearer_lo || negb ok_hi) then Some (lo, n0)
  else if ok_hi then Some (hi, n_hi)
  else None.

(** The shortest decimal that reads as [x]: its digits [s], its [n], and
    the number [k] of its digits, [k] tried from 1 up to 17. Seventeen
    digits always read back, so the last case is never reached. *)
Fixpoint shortest (fuel : nat) (x : number) (num den n0 k : Z) : Z * Z * Z :=
  match candidate x num den n0 k with
  | Some (s, n) => (s, n, k)
  | None =>
      match fuel with
      | O => let '(a, b) := scaled num den (n0 - k) in ((a / b)%Z, n0, k)
      | S fuel => shortest fuel x num den n0 (k + 1)
      end
  end.

(** The digits [s] placed by [n] and [k]: as an integer followed by
    zeros, with a point inside, after [0.] and zeros, or, when [n] is not
    between -5 and 21, with the exponent [n - 1] after them. *)
Definition exponent_suffix (n : Z) : string :=
  let e := (n - 1)%Z in
  ("e" ++ (if (e <? 0)%Z then "-" else "+") ++ decimal (Z.abs e))%string.

Definition format_digits (digits : string) (k n : Z) : string :=
  if ((k <=? n) && (n <=? 21))%Z then
    (digits ++ zeros (Z.to_nat (n - k)))%string
  else if ((0 <? n) && (n <=? 21))%Z then
    (substring 0 (Z.to_nat n) digits ++ "."
     ++ substring (Z.to_nat n) (Z.to_nat (k - n)) digits)%string
  else if ((-6 <? n) && (n <=? 0))%Z then
    ("0." ++ zeros (Z.to_nat (- n)) ++ digits)%string
  else if (k =? 1)%Z then (digits ++ exponent_suffix n)%string
  else
    (substring 0 1 digits ++ "." ++ substring 1 (Z.to_nat (k - 1)) digits
     ++ exponent_suffix n)%string.

(** [String(x)], and a number in a template literal: NaN, 0 for both
    zeros, the sign, Infinity, and the digits of the shortest decimal. *)
Definition Number_toString (x : number) : string :=
  match Prim2SF x with
  | S754_nan => "NaN"
  | S754_zero _ => "0"
  | S754_infinity s => if s then "-Infinity" else "Infinity"
  | S754_finite s m e =>
      let num := numerator m e in
      let den := denominator e in
      let '(a, b) := scaled num den (-324) in
      let n0 := magnitude 640 a b (-324) in
      let '(d, n, k) := shortest 16 (PrimFloat.abs x) num den n0 1 in
      ((if s then "-" else "") ++ format_digits (decimal d) k n)%string
  end.

(** [x.toFixed(1)]. A number that is not finite, or is [10^21] or more,
    is printed as [String] prints it. Otherwise the integer [n] nearest to
    [10 * |x|] is taken, the larger one of two that are as near, its digits
    are padded to two with a zero in front, and the point is put before
    the last digit; the sign is that of [x < 0], so [-0] prints as [0.0]. *)
Definition toFixed1 (x : number) : string :=
  match Prim2SF x with
  | S754_finite s m e =>
      let num := numerator m e in
      let den := denominator e in
      if (10 ^ 21 * den <=? num)%Z then Number_toString x
      else
        let n := ((2 * 10 * num + den) / (2 * den))%Z in
        let m := decimal n in
        let m := if (String.length m <=? 1)%nat then String "0" m else m in
        ((if s then "-" else "")
         ++ substring 0 (String.length m - 1) m ++ "."
         ++ substring (String.length m - 1) 1 m)%string
  | S754_zero _ => "0.0"
  | _ => Number_toString x
  end.

(** ** The result tiles

    [Stat] splits the text of a tile into a number and a unit. Every call
    in the component passes a string, [currency(...)] or a template literal,
    so [String(value)] is [value]. Strings are UTF-8 bytes, as for
    [Number]. *)

(** [s.replace(/\u00A0/g, " ")]: every no-break space, the bytes C2 A0,
    becomes a space. *)
Fixpoint replace_nbsp (s : string) : string :=
  match s with
  | String c1 r1 =>
      match r1 with
      | String c2 r2 =>
          if ((code c1 =? 194) && (code c2 =? 160))%N
          then String " " (replace_nbsp r2)
          else String c1 (replace_nbsp r1)
      | EmptyString => s
      end
  | EmptyString => s
  end.

(** A LineTerminator starts the string: LF, CR, U+2028 or U+2029. *)
Definition starts_line_terminator (s : string) : bool :=
  match s with
  | String c1 r1 =>
      ((code c1 =? 10) || (code c1 =? 13))%N
      || match r1 with
         | String c2 (String c3 _) =>
             ((code c1 =? 226) && (code c2 =? 128)
              && ((code c3 =? 168) || (code c3 =? 169)))%N
         | _ => false
         end
  | EmptyString => false
  end.

Fixpoint has_line_terminator (s : string) : bool :=
  match s with
  | String c r => starts_line_terminator s || has_line_terminator r
  | EmptyString => false
  end.

(** The string without its last character, and that character. *)
Fixpoint but_last (s : string) : option (string * ascii) :=
  match s with
  | EmptyString => None
  | String c r =>
      match but_last r with
      | None => Some (EmptyString, c)
      | Some (p, l) => Some (String c p, l)
      end
  end.

(** [str.match(/^(.+?)(%)$/)]: the two groups of the match, if there is
    one. The pattern is anchored at both ends, so the second group is the
    last character, a [%], and the first group is all that comes before it:
    one character at least, and no line terminator, which [.] does not
    match. *)
Definition match_percent (str : string) : option (string * string) :=
  match but_last str with
  | Some (String c r, l) =>
      if (code l =? 37)%N && negb (has_line_terminator (String c r))
      then Some (String c r, String l EmptyString)
      else None
  | _ => None
  end.

(** [str.split(" ")] *)
Fixpoint split_space (s : string) : list string :=
  match s with
  | EmptyString => [EmptyString]
  | String c r =>
      if (code c =? 32)%N then EmptyString :: split_space r
      else
        match split_space r with
        | p :: ps => String c p :: ps
        | [] => [String c EmptyString]
        end
  end.

(** [Stat]: the pair of [num] and [unit] that the tile renders, [unit]
    being [null] or a string. [parts.pop()] takes the last part away,
    [parts.join(" ")] joins the others. *)
Definition Stat (value : string) : string * option string :=
  let str := trim (replace_nbsp value) in
  match match_percent str with
  | Some (g1, g2) => (trim g1, Some g2)
  | None =>
      let parts := split_space str in
      if (1 <? List.length parts)%nat then
        let unit :=
          match last parts EmptyString with
          | EmptyString => None
          | u => Some u
          end in
        (String.concat " " (removelast parts), unit)
      else (str, None)
  end.

(** The unit of the payback tile, written with U+00E5, and the dash shown
    for a payback that is not finite, U+2013. *)
Definition years_unit : string :=
  String (ascii_of_N 195) (String (ascii_of_N 165) "r").

Definition dash : string :=
  String (ascii_of_N 226) (String (ascii_of_N 128)
    (String (ascii_of_N 147) EmptyString)).

(** The [value] of the payback tile,
    [isFinite(derived.paybackYears) ? `${derived.paybackYears.toFixed(1)} ar` : dash],
    and of the ten-year tile, [`${Math.round(derived.tenYearRoi * 100)}%`]. *)
Definition payback_value (r : DerivedResults) : string :=
  if isFinite r.(paybackYears)
  then (toFixed1 r.(paybackYears) ++ " " ++ years_unit)%string
  else dash.

Definition roi_value (r : DerivedResults) : string :=
  (Number_toString (Math_round (r.(tenYearRoi) * 100)) ++ "%")%string.

(** ** Notions the statements below are written with *)

(** The three required fields all sanitize to a number: [derived] takes
    its main branch. *)
Definition complete (form : RoiInputs) : bool :=
  match clampInt (parseNum form.(householdSize)) 1,
        clampMin (parseNum form.(electricityPrice)) 0.1,
        clampInt (parseNum form.(kwhPerPerson)) 500 with
  | Some _, Some _, Some _ => true
  | _, _, _ => false
  end.

(** A complete input whose remaining fields are in their documented
    ranges: maintenance is a non-negative finite number, the savings ratio
    lies in [0, 1]. *)
Definition valid (form : RoiInputs) : bool :=
  complete form
  && isFinite form.(maintenance) && (0 <=? form.(maintenance))
  && (0 <=? form.(savingsRatio)) && (form.(savingsRatio) <=? 1).

(** The [systemCost] and [grant] that [derived] computes with. *)
Definition systemCost_value (form : RoiInputs) : number :=
  nullish (clampInt (parseNum form.(systemCost)) 0) 0.

Definition grant_value (form : RoiInputs) : number :=
  nullish (clampInt (parseNum form.(grant)) 0) 0.

(** The closure variable [cumulative] after the callback has run for the
    years [0..i]: [start], then [step] added [i] times, never rounded. *)
Fixpoint running_total (start step : number) (i : nat) : number :=
  match i with
  | O => start
  | S j => running_total start step j + step
  end.

(** [data[i].value] *)
Definition value_at (r : DerivedResults) (i : nat) : number :=
  nth i (map value r.(data)) NaN.

(** Every field but [paybackYears] is a finite number. *)
Definition finite_but_payback (r : DerivedResults) : bool :=
  isFinite r.(annualHotWaterKwh) && isFinite r.(annualHotWaterCost)
  && isFinite r.(annualSavings) && isFinite r.(netAnnualSavings)
  && isFinite r.(upfront) && isFinite r.(tenYearRoi)
  && forallb (fun p => isFinite p.(value)) r.(data).

(** [Number.isInteger] *)
Definition isInteger (x : number) : bool :=
  isFinite x && (Math_floor x =? x).

(** The five editable fields of a legacy form are numbers that satisfy
    their field minimums: householdSize a whole number at least 1,
    electricityPrice at least 0.1, systemCost and grant whole numbers at
    least 0, kwhPerPerson a whole number at least 500. *)
Definition meets_minimums (form : Legacy.RoiInputs) : bool :=
  isInteger form.(Legacy.householdSize) && (1 <=? form.(Legacy.householdSize))
  && (0.1 <=? form.(Legacy.electricityPrice))
  && isInteger form.(Legacy.systemCost) && (0 <=? form.(Legacy.systemCost))
  && isInteger form.(Legacy.grant) && (0 <=? form.(Legacy.grant))
  && isInteger form.(Legacy.kwhPerPerson) && (500 <=? form.(Legacy.kwhPerPerson)).

(** The number that [parseNum] tests for finiteness. *)
Definition parsed (v : raw) : number :=
  match v with
  | RString s => Number (replace_comma s)
  | RNumber x => Number_of_String x
  | RUndefined | RNull => NaN
  end.

(** Inputs used as examples: the defaults with a price of [1,96]; an
    input whose yearly saving is tiny next to its cost; the defaults with
    an astronomically large household size and consumption. *)
Definition price_196 : RoiInputs :=
  onChange_electricityPrice defaultInputs "1,96".

Definition tiny_savings : RoiInputs := {|
  householdSize := RString "1";
  electricityPrice := RString "0.1";
  systemCost := RString "1.7e308";
  grant := RString "0";
  kwhPerPerson := RString "500";
  maintenance := 0;
  savingsRatio := 0.01;
  horizonYears := 15
|}.

Definition huge_household : RoiInputs :=
  onChange_kwhPerPerson (onChange_householdSize defaultInputs "1e200") "1e200".

(** The legacy defaults with an infinite price. *)
Definition infinite_price : Legacy.RoiInputs := {|
  Legacy.householdSize := 3;
  Legacy.electricityPrice := Infinity;
  Legacy.systemCost := 29000;
  Legacy.grant := 0;
  Legacy.maintenance := 0;
  Legacy.savingsRatio := 0.66;
  Legacy.kwhPerPerson := 1000;
  Legacy.horizonYears := 15
|}.

(** A printable ASCII character other than the space. *)
Definition is_plain (c : ascii) : bool := ((33 <=? code c) && (code c <=? 126))%N.

Fixpoint plain (s : string) : bool :=
  match s with
  | EmptyString => true
  | String c r => is_plain c && plain r
  end.

(** The text holds a comma; the text holds a space. *)
Fixpoint has_comma (s : string) : bool :=
  match s with
  | EmptyString => false
  | String c r => Ascii.eqb c "," || has_comma r
  end.

Fixpoint has_space (s : string) : bool :=
  match s with
  | EmptyString => false
  | String c r => (code c =? 32)%N || has_space r
  end.

(** U+00A0, the no-break space. *)
Definition nbsp : string :=
  String (ascii_of_N 194) (String (ascii_of_N 160) EmptyString).

(** The text that [Stat] splits: no-break spaces replaced, trimmed. *)
Definition normalized (value : string) : string := trim (replace_nbsp value).

(** Nothing is saved: the yearly saving is zero, the net saving is 0, and
    the cost is never paid back. *)
Definition nothing_saved (r : DerivedResults) : Prop :=
  (annualSavings r =? 0) = true /\
  netAnnualSavings r = 0 /\
  paybackYears r = Infinity.

(** More inputs used as examples: the defaults with a maintenance above
    the yearly saving, and the defaults over 20 years. *)
Definition costly_upkeep : RoiInputs := {|
  householdSize := RNumber 3;
  electricityPrice := RNumber 1.95;
  systemCost := RNumber 29000;
  grant := RNumber 0;
  kwhPerPerson := RNumber 1000;
  maintenance := 5000;
  savingsRatio := 0.66;
  horizonYears := 15
|}.

Definition twenty_years : RoiInputs := {|
  householdSize := RNumber 3;
  electricityPrice := RNumber 1.95;
  systemCost := RNumber 29000;
  grant := RNumber 0;
  kwhPerPerson := RNumber 1000;
  maintenance := 0;
  savingsRatio := 0.66;
  horizonYears := 20
|}.

(** Classes of the specification floats behind a number. *)
Definition SF_finite (x : spec_float) : bool :=
  match x with
  | S754_zero _ | S754_finite _ _ _ => true
  | _ => false
  end.

Definition SF_is_zero (x : spec_float) : bool :=
  match x with
  | S754_zero _ => true
  | _ => false
  end.

Definition SF_nonpos (x : spec_float) : bool :=
  match x with
  | S754_zero _ | S754_finite true _ _ | S754_infinity true => true
  | _ => false
  end.

Definition SF_nonneg (x : spec_float) : bool :=
  match x with
  | S754_zero _ | S754_finite false _ _ | S754_infinity false => true
  | _ => false
  end.

Definition SF_nonneg_finite (x : spec_float) : bool :=
  match x with
  | S754_zero _ | S754_finite false _ _ => true
  | _ => false
  end.

(** A whole number, as its mantissa and exponent show it. *)
Definition SF_whole (x : spec_float) : bool :=
  match x with
  | S754_zero _ => true
  | S754_finite _ m e => ((0 <=? e) || (Zpos m mod 2 ^ (- e) =? 0))%Z
  | _ => false
  end.

(** * Tactics *)

(** All the conjuncts of the goal, without introducing anything. *)
Ltac split_and := repeat match goal with |- _ /\ _ => split end.

(** Case analysis on the three required fields, as [derived] tests them. *)
Ltac required_fields form :=
  destruct (clampInt (parseNum (householdSize form)) 1),
           (clampMin (parseNum (electricityPrice form)) 0.1),
           (clampInt (parseNum (kwhPerPerson form)) 500).

(** * The built-ins on some inputs *)

Example Number_examples :
  map Number ["1.95"; " 12 "; EmptyString; "   "; "1e3"; ".5"; "5."; "-0";
              "0x1F"; "0b101"; "+7"; "1.5e-3"; "9007199254740993"]%string
  = [1.95; 12; 0; 0; 1000; 0.5; 5; -0; 31; 5; 7; 0.0015; 9007199254740992].
Proof. vm_compute. reflexivity. Qed.

Example Number_not_numeric :
  map Number ["abc"; "1e"; "."; "12px"; "1,95"; "1 000"; "--1"; "0x"]%string
  = [NaN; NaN; NaN; NaN; NaN; NaN; NaN; NaN].
Proof. vm_compute. reflexivity. Qed.

Example Number_not_finite :
  map Number ["Infinity"; "-Infinity"; "1e400"; "1.7976931348623159e308"]%string
  = [Infinity; neg_infinity; Infinity; Infinity].
Proof. vm_compute. reflexivity. Qed.

Example replace_comma_first_only :
  map replace_comma ["1,95"; "1,9,5"; "195"]%string = ["1.95"; "1.9,5"; "195"]%string.
Proof. reflexivity. Qed.

Example Math_floor_examples :
  map Math_floor [1.5; -1.5; 0.5; -0.5; -0; 730.9; 1e300; NaN; Infinity]
  = [1; -2; 0; -1; -0; 730; 1e300; NaN; Infinity].
Proof. vm_compute. reflexivity. Qed.

Example Math_round_examples :
  map Math_round [1.5; 2.5; -1.5; -2.5; 0.5; -0.5; -0.2; 0.49999999999999994;
                  -17357.6; -17357.2; NaN]
  = [2; 3; -1; -2; 1; -0; -0; 0; -17358; -17357; NaN].
Proof. vm_compute. reflexivity. Qed.

Example Math_max_examples :
  map (fun p => Math_max (fst p) (snd p))
      [(1, 2); (2, 1); (0, -0); (-0, 0); (-0, -0); (1, NaN); (NaN, 1);
       (neg_infinity, 0)]
  = [2; 2; 0; 0; -0; NaN; NaN; 0].
Proof. vm_compute. reflexivity. Qed.

Example parseNum_examples :
  map parseNum [RString "1,95"; RString "1,9,5"; RString EmptyString;
                RString "x"; RString "Infinity"; RString "  "; RNumber 3;
                RNumber (-0); RNumber NaN; RNumber Infinity; RUndefined; RNull]
  = [Some 1.95; None; None; None; None; Some 0; Some 3; Some 0; None; None;
     None; None].
Proof. vm_compute. reflexivity. Qed.

(** A grant equal to the cost: nothing is paid upfront, and nothing is to
    be paid back. *)
Example grant_equal_to_cost :
  upfront (derived (onChange_grant defaultInputs "29000")) = 0 /\
  tenYearRoi (derived (onChange_grant defaultInputs "29000")) = 0 /\
  paybackYears (derived (onChange_grant defaultInputs "29000")) = 0.
Proof. vm_compute. repeat split; reflexivity. Qed.

Example Stat_examples :
  map Stat ["33%"; "7.5 y"; "-"; "29 000 kr"; "SEK 29,000"; " 12 % "; "%"; "a  b";
            ("29" ++ nbsp ++ "000" ++ nbsp ++ "kr")]%string
  = [("33", Some "%"); ("7.5", Some "y"); ("-", None); ("29 000", Some "kr");
     ("SEK", Some "29,000"); ("12", Some "%"); ("%", None); ("a ", Some "b");
     ("29 000", Some "kr")]%string.
Proof. vm_compute. reflexivity. Qed.

(** The dash shown for a payback that is not finite, U+2013, and a payback
    in years, the unit written with U+00E5: no unit, and the unit [ar]. *)
Example Stat_payback_examples :
  Stat (String (ascii_of_N 226) (String (ascii_of_N 128)
          (String (ascii_of_N 147) EmptyString)))
  = (String (ascii_of_N 226) (String (ascii_of_N 128)
       (String (ascii_of_N 147) EmptyString)), None) /\
  Stat ("7.5 " ++ String (ascii_of_N 195) (String (ascii_of_N 165) "r"))
  = ("7.5"%string, Some (String (ascii_of_N 195) (String (ascii_of_N 165) "r"))).
Proof. vm_compute. split; reflexivity. Qed.

Example Number_toString_examples :
  map Number_toString
      [0.1; 100; 1e21; 1e20; 123456789012345680000; 1.5e-7; 0.000001; 1e-7;
       5e-324; 1.7976931348623157e308; 0.30000000000000004; 9007199254740992;
       1152921504606846976; -1.5; 33; -0; NaN; neg_infinity; 4.35; 0.5;
       123.456; 2.2250738585072014e-308; 1e23; 9.5e-5; 12345.678e-10;
       7.511007511007511; 295147905179352830000]
  = ["0.1"; "100"; "1e+21"; "100000000000000000000"; "123456789012345680000";
     "1.5e-7"; "0.000001"; "1e-7"; "5e-324"; "1.7976931348623157e+308";
     "0.30000000000000004"; "9007199254740992"; "1152921504606847000"; "-1.5";
     "33"; "0"; "NaN"; "-Infinity"; "4.35"; "0.5"; "123.456";
     "2.2250738585072014e-308"; "1e+23"; "0.000095"; "0.0000012345678";
     "7.511007511007511"; "295147905179352830000"]%string.
Proof. vm_compute. reflexivity. Qed.

Example toFixed1_examples :
  map toFixed1
      [7.511; 0; -0; 0.05; 0.25; 0.35; 2.5; 1e21; 123.456; 0.04; -0.04;
       999999999999999900000; 9.95; 0.95; 1.45; NaN; Infinity; 1e-10; 99.95;
       -1.25]
  = ["7.5"; "0.0"; "0.0"; "0.1"; "0.3"; "0.3"; "2.5"; "1e+21"; "123.5"; "0.0";
     "-0.0"; "999999999999999868928.0"; "9.9"; "0.9"; "1.4"; "NaN"; "Infinity";
     "0.0"; "100.0"; "-1.3"]%string.
Proof. vm_compute. reflexivity. Qed.

(** What is printed reads back: [Number(String(x))] on some numbers. *)
Example Number_toString_reads_back :
  map (fun x => Number (Number_toString x))
      [0.1; 3; 1.95; 29000; -0; 1e21; 5e-324; 0.30000000000000004; -2.5]
  = map Number_of_String
      [0.1; 3; 1.95; 29000; -0; 1e21; 5e-324; 0.30000000000000004; -2.5].
Proof. vm_compute. reflexivity. Qed.

(** The legacy number inputs read their text with [Number]. *)
Example legacy_onChange_examples :
  map (fun text => Legacy.householdSize
                     (Legacy.onChange_householdSize Legacy.defaultInputs text))
      ["4"; EmptyString; "2.5"]%string
  = [4; 0; 2.5].
Proof. vm_compute. reflexivity. Qed.

Create HintDb numbers.

(** * Facts about numbers *)

(** ** Classification and comparison *)

Section Comparison.

(** Finite, infinite and NaN, as [Prim2SF] shows them. *)
Lemma SFcompare_refl_finite s m e :
  SFcompare (S754_finite s m e) (S754_finite s m e) = Some Eq.
Proof.
  simpl. rewrite Z.compare_refl, Pos.compare_cont_refl. now destruct s.
Qed.

Lemma Prim2SF_infinity : Prim2SF infinity = S754_infinity false.
Proof. reflexivity. Qed.

Lemma is_nan_SF x : is_nan x = match Prim2SF x with S754_nan => true | _ => false end.
Proof.
  unfold is_nan. rewrite eqb_spec. unfold SFeqb.
  destruct (Prim2SF x) as [s|s| |s m e].
  - reflexivity.
  - now destruct s.
  - reflexivity.
  - now rewrite SFcompare_refl_finite.
Qed.

Lemma is_infinity_SF x :
  is_infinity x = match Prim2SF x with S754_infinity _ => true | _ => false end.
Proof.
  unfold is_infinity. rewrite eqb_spec, abs_spec, Prim2SF_infinity.
  destruct (Prim2SF x) as [s|s| |s m e]; reflexivity.
Qed.

Lemma isFinite_SF x : isFinite x = SF_finite (Prim2SF x).
Proof.
  unfold isFinite, is_finite. rewrite is_nan_SF, is_infinity_SF.
  now destruct (Prim2SF x).
Qed.

(** The comparisons are those of [SFcompare]. *)
Lemma compare_cont_Eq_antisym m m' :
  Pos.compare_cont Eq m' m = CompOpp (Pos.compare_cont Eq m m').
Proof. now rewrite Pos.compare_cont_antisym. Qed.

Lemma SFcompare_antisym x y :
  SFcompare y x = option_map CompOpp (SFcompare x y).
Proof.
  destruct x as [s|s| |s m e], y as [s'|s'| |s' m' e']; simpl;
    try reflexivity; try (now destruct s); try (now destruct s');
    try (now destruct s, s').
  destruct s, s'; simpl; try reflexivity;
    rewrite (Z.compare_antisym e e'), (compare_cont_Eq_antisym m m');
    destruct (e ?= e')%Z; simpl; try reflexivity;
    now rewrite ?CompOpp_involutive.
Qed.

Lemma ltb_antisym x y : (x <? y) = true -> (y <? x) = false.
Proof.
  rewrite !ltb_spec. unfold SFltb. rewrite (SFcompare_antisym (Prim2SF x) (Prim2SF y)).
  destruct (SFcompare (Prim2SF x) (Prim2SF y)) as [[]|]; simpl; congruence.
Qed.

Lemma leb_not_ltb x y : (x <=? y) = true -> (y <? x) = false.
Proof.
  rewrite leb_spec, ltb_spec. unfold SFleb, SFltb.
  rewrite (SFcompare_antisym (Prim2SF x) (Prim2SF y)).
  destruct (SFcompare (Prim2SF x) (Prim2SF y)) as [[]|]; simpl; congruence.
Qed.

Lemma eqb_not_ltb x y : (x =? y) = true -> (y <? x) = false.
Proof.
  rewrite eqb_spec, ltb_spec. unfold SFeqb, SFltb.
  rewrite (SFcompare_antisym (Prim2SF x) (Prim2SF y)).
  destruct (SFcompare (Prim2SF x) (Prim2SF y)) as [[]|]; simpl; congruence.
Qed.

Lemma ltb_not_nan_l x y : (x <? y) = true -> is_nan x = false.
Proof.
  rewrite ltb_spec, is_nan_SF. unfold SFltb.
  destruct (Prim2SF x); simpl; congruence.
Qed.

Lemma ltb_not_nan_r x y : (x <? y) = true -> is_nan y = false.
Proof.
  rewrite ltb_spec, is_nan_SF. unfold SFltb.
  destruct (Prim2SF x), (Prim2SF y); simpl; congruence.
Qed.

Lemma SFcompare_total x y :
  x <> S754_nan -> y <> S754_nan -> exists c, SFcompare x y = Some c.
Proof.
  destruct x, y; cbn [SFcompare]; intros; try congruence; eauto.
Qed.

Lemma not_ltb_leb a b :
  is_nan a = false -> is_nan b = false -> (b <? a) = false -> (a <=? b) = true.
Proof.
  rewrite !is_nan_SF, ltb_spec, leb_spec. unfold SFltb, SFleb. intros Ha Hb.
  rewrite (SFcompare_antisym (Prim2SF a) (Prim2SF b)).
  destruct (SFcompare_total (Prim2SF a) (Prim2SF b)) as [c Hc].
  - intros H. now rewrite H in Ha.
  - intros H. now rewrite H in Hb.
  - rewrite Hc. now destruct c.
Qed.

Lemma ltb_irrefl a : (a <? a) = false.
Proof.
  rewrite ltb_spec. unfold SFltb.
  pose proof (SFcompare_antisym (Prim2SF a) (Prim2SF a)) as H.
  destruct (SFcompare (Prim2SF a) (Prim2SF a)) as [[]|]; try reflexivity; discriminate.
Qed.

Lemma leb_refl a : is_nan a = false -> (a <=? a) = true.
Proof. intros Ha. apply not_ltb_leb; auto using ltb_irrefl. Qed.

Lemma eqb_refl a : is_nan a = false -> (a =? a) = true.
Proof. unfold is_nan. now destruct (a =? a). Qed.

(** [Math.max] *)

Lemma Math_max_zero_not_negative x : (Math_max x 0 <? 0) = false.
Proof.
  unfold Math_max.
  destruct (is_nan x || is_nan 0); [reflexivity|].
  destruct (x <? 0) eqn:Hlt; [reflexivity|].
  destruct (0 <? x); [assumption|].
  destruct (get_sign x); [reflexivity|assumption].
Qed.

Lemma Math_max_ge_l a b :
  is_nan a = false -> is_nan b = false -> (a <=? Math_max a b) = true.
Proof.
  intros Ha Hb. unfold Math_max. rewrite Ha, Hb. cbn [orb].
  destruct (a <? b) eqn:Hab.
  - apply not_ltb_leb; auto using ltb_antisym.
  - destruct (b <? a) eqn:Hba; [now apply leb_refl|].
    destruct (get_sign a); [now apply not_ltb_leb | now apply leb_refl].
Qed.

End Comparison.

(** ** Rounding to binary64 *)

Section Rounding.

Local Open Scope Z_scope.

(** The number of binary digits of a mantissa. *)
Lemma digits2_pos_bounds p :
  2 ^ (Zpos (digits2_pos p) - 1) <= Zpos p < 2 ^ Zpos (digits2_pos p).
Proof.
  induction p as [p IH|p IH|]; simpl digits2_pos.
  - rewrite Pos2Z.inj_succ.
    replace (Z.succ (Zpos (digits2_pos p)) - 1) with (Z.succ (Zpos (digits2_pos p) - 1)) by lia.
    rewrite !Z.pow_succ_r by lia. lia.
  - rewrite Pos2Z.inj_succ.
    replace (Z.succ (Zpos (digits2_pos p)) - 1) with (Z.succ (Zpos (digits2_pos p) - 1)) by lia.
    rewrite !Z.pow_succ_r by lia. lia.
  - simpl. lia.
Qed.

Lemma Zdigits2_le m k : 0 <= m < 2 ^ k -> 0 <= k -> Zdigits2 m <= k.
Proof.
  intros [Hm Hlt] Hk. destruct m as [|p|p]; simpl; try lia.
  destruct (Z_le_gt_dec (Zpos (digits2_pos p)) k) as [|Hgt]; [assumption|].
  pose proof (digits2_pos_bounds p) as [Hlo _].
  assert (2 ^ k <= 2 ^ (Zpos (digits2_pos p) - 1)) by (apply Z.pow_le_mono_r; lia).
  lia.
Qed.

(** Shifts to the left are exact. *)
Lemma iter_xO_value m d : Zpos (Pos.iter xO m d) = Zpos m * 2 ^ Zpos d.
Proof.
  induction d as [|d IH] using Pos.peano_ind.
  - simpl. lia.
  - rewrite Pos.iter_succ, Pos2Z.inj_succ, Z.pow_succ_r by lia.
    rewrite Pos2Z.inj_xO, IH. lia.
Qed.

Lemma shl_align_value m e e' :
  snd (shl_align m e e') = Z.min e e' /\
  Zpos (fst (shl_align m e e')) = Zpos m * 2 ^ (e - Z.min e e').
Proof.
  unfold shl_align. destruct (e' - e) as [|d|d] eqn:Hd; cbn [fst snd].
  - replace (Z.min e e') with e by lia. rewrite Z.sub_diag, Z.pow_0_r. lia.
  - replace (Z.min e e') with e by lia. rewrite Z.sub_diag, Z.pow_0_r. lia.
  - replace (Z.min e e') with e' by lia. split; [reflexivity|].
    rewrite iter_xO_value. f_equal. f_equal. lia.
Qed.

(** Shifts to the right halve the mantissa. *)
Lemma shr_1_value r : 0 <= shr_m r -> shr_m (shr_1 r) = shr_m r / 2.
Proof.
  destruct r as [m r s]. cbn [shr_m]. intros Hm.
  destruct m as [|[p|p|]|p]; cbn [shr_1 shr_m]; try reflexivity; try lia.
  - apply Z.div_unique with 1; lia.
  - apply Z.div_unique with 0; lia.
Qed.

Lemma pow2_xI k : 2 ^ Zpos k~1 = 2 * (2 ^ Zpos k * 2 ^ Zpos k).
Proof.
  rewrite (Pos2Z.inj_xI k).
  replace (2 * Zpos k + 1) with (1 + (Zpos k + Zpos k)) by lia.
  rewrite !Z.pow_add_r by lia. reflexivity.
Qed.

Lemma pow2_xO k : 2 ^ Zpos k~0 = 2 ^ Zpos k * 2 ^ Zpos k.
Proof.
  rewrite (Pos2Z.inj_xO k).
  replace (2 * Zpos k) with (Zpos k + Zpos k) by lia.
  now rewrite Z.pow_add_r by lia.
Qed.

Lemma pow2_pos k : 0 <= k -> 0 < 2 ^ k.
Proof. intros. apply Z.pow_pos_nonneg; lia. Qed.

Lemma iter_pos_shr_1_value k : forall r,
  0 <= shr_m r -> shr_m (iter_pos shr_1 k r) = shr_m r / 2 ^ Zpos k.
Proof.
  induction k as [k IH|k IH|]; intros r Hr; cbn [iter_pos].
  - assert (H1 : 0 <= shr_m (shr_1 r))
      by (rewrite shr_1_value by assumption; apply Z.div_pos; lia).
    assert (H2 : 0 <= shr_m (iter_pos shr_1 k (shr_1 r)))
      by (rewrite IH by assumption; apply Z.div_pos; [lia | apply pow2_pos; lia]).
    rewrite IH, IH, shr_1_value by assumption.
    rewrite !Z.div_div by (pose proof (pow2_pos (Zpos k)); lia).
    now rewrite pow2_xI.
  - assert (H2 : 0 <= shr_m (iter_pos shr_1 k r))
      by (rewrite IH by assumption; apply Z.div_pos; [lia | apply pow2_pos; lia]).
    rewrite IH, IH by assumption.
    rewrite !Z.div_div by (pose proof (pow2_pos (Zpos k)); lia).
    now rewrite pow2_xO.
  - now rewrite shr_1_value.
Qed.

Lemma shr_value r e n :
  0 <= shr_m r ->
  snd (shr r e n) = e + Z.max n 0 /\
  shr_m (fst (shr r e n)) = shr_m r / 2 ^ Z.max n 0.
Proof.
  intros Hr. unfold shr. destruct n as [|p|p]; cbn [fst snd].
  - rewrite Z.max_id, Z.pow_0_r, Z.div_1_r. lia.
  - replace (Z.max (Zpos p) 0) with (Zpos p) by lia.
    now rewrite iter_pos_shr_1_value.
  - replace (Z.max (Zneg p) 0) with 0 by lia.
    rewrite Z.pow_0_r, Z.div_1_r. lia.
Qed.

Lemma shr_record_of_loc_m m l : shr_m (shr_record_of_loc m l) = m.
Proof. now destruct l as [|[]]. Qed.

Lemma shr_fexp_value m e l :
  0 <= m ->
  let e' := Z.max e (fexp prec emax (Zdigits2 m + e)) in
  snd (shr_fexp prec emax m e l) = e' /\
  shr_m (fst (shr_fexp prec emax m e l)) = m / 2 ^ (e' - e).
Proof.
  intros Hm e'. unfold shr_fexp.
  destruct (shr_value (shr_record_of_loc m l) e (fexp prec emax (Zdigits2 m + e) - e))
    as [He Hv]; [now rewrite shr_record_of_loc_m|].
  rewrite He, Hv, shr_record_of_loc_m. subst e'.
  split; [lia|]. f_equal. f_equal. lia.
Qed.

(** Rounding to nearest moves a mantissa by one at most. *)
Lemma round_nearest_even_bounds m l :
  m <= round_nearest_even m l <= m + 1.
Proof.
  destruct l as [|[]]; cbn [round_nearest_even]; try lia.
  destruct (Z.even m); lia.
Qed.

(** What is rounded keeps its sign, and stays finite when it lies below
    the largest number, [(2^53 - 1) * 2^971]. *)
Lemma fexp_le_971 z : z <= 1024 -> fexp prec emax z <= 971.
Proof. unfold fexp, SpecFloat.emin, prec, emax. lia. Qed.

Lemma below_max_float_digits m e :
  0 <= m -> e <= 971 -> m < (2 ^ 53 - 1) * 2 ^ (971 - e) ->
  Zdigits2 m + e <= 1024.
Proof.
  intros Hm He Hlt.
  assert (Zdigits2 m <= 1024 - e); [|lia].
  apply Zdigits2_le; [|lia]. split; [assumption|].
  replace (1024 - e) with (53 + (971 - e)) by lia.
  rewrite Z.pow_add_r by lia.
  pose proof (pow2_pos (971 - e)). nia.
Qed.

Lemma binary_round_aux_sign s m e l :
  0 <= m ->
  match binary_round_aux prec emax s m e l with
  | S754_zero s' | S754_infinity s' | S754_finite s' _ _ => s' = s
  | S754_nan => False
  end.
Proof.
  intros Hm. unfold binary_round_aux.
  pose proof (shr_fexp_value m e l Hm) as [He1 Hm1].
  destruct (shr_fexp prec emax m e l) as [r1 e1]. cbn [fst snd] in He1, Hm1.
  set (m2 := round_nearest_even (shr_m r1) (loc_of_shr_record r1)).
  assert (Hm1' : 0 <= shr_m r1)
    by (rewrite Hm1; apply Z.div_pos; [lia | apply pow2_pos; lia]).
  assert (Hm2 : 0 <= m2)
    by (pose proof (round_nearest_even_bounds (shr_m r1) (loc_of_shr_record r1)); subst m2; lia).
  pose proof (shr_fexp_value m2 e1 loc_Exact Hm2) as [He2 Hv2].
  destruct (shr_fexp prec emax m2 e1 loc_Exact) as [r2 e2]. cbn [fst snd] in He2, Hv2.
  assert (0 <= shr_m r2)
    by (rewrite Hv2; apply Z.div_pos; [lia | apply pow2_pos; lia]).
  destruct (shr_m r2) as [|p|p]; try lia; try reflexivity.
  now destruct (e2 <=? emax - prec).
Qed.

Lemma binary_round_aux_finite s m e l :
  0 <= m -> e <= 971 -> m < (2 ^ 53 - 1) * 2 ^ (971 - e) ->
  SF_finite (binary_round_aux prec emax s m e l) = true.
Proof.
  intros Hm He Hlt. unfold binary_round_aux.
  pose proof (shr_fexp_value m e l Hm) as [He1 Hm1].
  destruct (shr_fexp prec emax m e l) as [r1 e1]. cbn [fst snd] in He1, Hm1.
  rewrite <- He1 in Hm1.
  set (m2 := round_nearest_even (shr_m r1) (loc_of_shr_record r1)).
  assert (He1' : e <= e1 <= 971).
  { pose proof (fexp_le_971 _ (below_max_float_digits m e Hm He Hlt)). lia. }
  assert (Hlt1 : shr_m r1 < (2 ^ 53 - 1) * 2 ^ (971 - e1)).
  { rewrite Hm1. apply Z.div_lt_upper_bound; [apply pow2_pos; lia|].
    replace (971 - e) with ((e1 - e) + (971 - e1)) in Hlt by lia.
    rewrite Z.pow_add_r in Hlt by lia.
    replace (2 ^ (e1 - e) * ((2 ^ 53 - 1) * 2 ^ (971 - e1)))
      with ((2 ^ 53 - 1) * (2 ^ (e1 - e) * 2 ^ (971 - e1))) by ring.
    exact Hlt. }
  assert (Hm1' : 0 <= shr_m r1)
    by (rewrite Hm1; apply Z.div_pos; [lia | apply pow2_pos; lia]).
  pose proof (round_nearest_even_bounds (shr_m r1) (loc_of_shr_record r1)) as Hr.
  fold m2 in Hr.
  assert (Hm2 : 0 <= m2) by lia.
  assert (Hd2 : Zdigits2 m2 + e1 <= 1024).
  { assert (Zdigits2 m2 <= 1024 - e1); [|lia].
    apply Zdigits2_le; [|lia]. split; [assumption|].
    replace (1024 - e1) with (53 + (971 - e1)) by lia.
    rewrite Z.pow_add_r by lia.
    pose proof (pow2_pos (971 - e1)). nia. }
  pose proof (shr_fexp_value m2 e1 loc_Exact Hm2) as [He2 Hv2].
  destruct (shr_fexp prec emax m2 e1 loc_Exact) as [r2 e2]. cbn [fst snd] in He2, Hv2.
  assert (0 <= shr_m r2)
    by (rewrite Hv2; apply Z.div_pos; [lia | apply pow2_pos; lia]).
  pose proof (fexp_le_971 _ Hd2).
  destruct (shr_m r2) as [|p|p]; try lia; try reflexivity.
  replace (e2 <=? emax - prec) with true; [reflexivity|].
  symmetry. apply Z.leb_le. unfold emax, prec. lia.
Qed.

Lemma binary_round_sign s p e :
  match binary_round prec emax s p e with
  | S754_zero s' | S754_infinity s' | S754_finite s' _ _ => s' = s
  | S754_nan => False
  end.
Proof.
  unfold binary_round.
  destruct (shl_align p e (fexp prec emax (Zpos (digits2_pos p) + e))) as [mz ez].
  apply binary_round_aux_sign. lia.
Qed.

Lemma binary_round_finite s p e :
  e <= 971 -> Zpos p < (2 ^ 53 - 1) * 2 ^ (971 - e) ->
  SF_finite (binary_round prec emax s p e) = true.
Proof.
  intros He Hlt. unfold binary_round.
  pose proof (shl_align_value p e (fexp prec emax (Zpos (digits2_pos p) + e))) as [Hez Hmz].
  destruct (shl_align p e (fexp prec emax (Zpos (digits2_pos p) + e))) as [mz ez].
  cbn [fst snd] in Hez, Hmz.
  apply binary_round_aux_finite; [lia|lia|].
  rewrite Hmz.
  replace (971 - ez) with ((971 - e) + (e - ez)) by lia.
  rewrite Z.pow_add_r by lia.
  pose proof (pow2_pos (e - ez)). rewrite <- Hez in *. nia.
Qed.

Lemma binary_normalize_finite z e :
  e <= 971 -> Z.abs z < (2 ^ 53 - 1) * 2 ^ (971 - e) ->
  SF_finite (binary_normalize prec emax z e false) = true.
Proof.
  intros He Hlt. destruct z as [|p|p]; cbn [binary_normalize].
  - reflexivity.
  - now apply binary_round_finite.
  - now apply binary_round_finite.
Qed.

(** Valid mantissas and exponents, and their order. *)
Lemma bounded_facts m e :
  bounded prec emax m e = true ->
  Zpos m < 2 ^ 53 /\ -1074 <= e <= 971 /\ (-1074 < e -> 2 ^ 52 <= Zpos m).
Proof.
  unfold bounded, canonical_mantissa, fexp, SpecFloat.emin, prec, emax.
  intros H. apply andb_prop in H as [Hc He].
  apply Z.eqb_eq in Hc. apply Z.leb_le in He.
  pose proof (digits2_pos_bounds m) as [Hlo Hhi].
  assert (Hd : Zpos (digits2_pos m) <= 53) by lia.
  assert (2 ^ Zpos (digits2_pos m) <= 2 ^ 53) by (apply Z.pow_le_mono_r; lia).
  repeat split; try lia.
  intros Hne. assert (Hd' : Zpos (digits2_pos m) = 53) by lia.
  rewrite Hd' in Hlo. exact Hlo.
Qed.

Lemma canonical_lt m1 e1 m2 e2 :
  bounded prec emax m1 e1 = true -> bounded prec emax m2 e2 = true ->
  e1 < e2 -> Zpos m1 < Zpos m2 * 2 ^ (e2 - e1).
Proof.
  intros H1 H2 Hlt.
  apply bounded_facts in H1 as (Hm1 & He1 & _).
  apply bounded_facts in H2 as (_ & He2 & Hm2).
  specialize (Hm2 ltac:(lia)).
  assert (2 ^ 1 <= 2 ^ (e2 - e1)) by (apply Z.pow_le_mono_r; lia).
  change (2 ^ 1) with 2 in *. change (2 ^ 53) with (2 * 2 ^ 52) in Hm1. nia.
Qed.

(** The integers that [SFadd] and [SFsub] combine. *)
Lemma aligned_value m e e' :
  Zpos (fst (shl_align m e (Z.min e e'))) = Zpos m * 2 ^ (e - Z.min e e').
Proof.
  destruct (shl_align_value m e (Z.min e e')) as [_ H].
  rewrite H. f_equal. f_equal. lia.
Qed.

Lemma aligned_value_r m e e' :
  Zpos (fst (shl_align m e (Z.min e' e))) = Zpos m * 2 ^ (e - Z.min e' e).
Proof. rewrite (Z.min_comm e' e). apply aligned_value. Qed.

(** [x - y] is negative or zero when [x < y], and finite when neither
    operand is negative. *)
Lemma binary_normalize_negative z e :
  z < 0 -> SF_nonpos (binary_normalize prec emax z e false) = true.
Proof.
  intros Hz. destruct z as [|p|p]; try lia. cbn [binary_normalize].
  pose proof (binary_round_sign true p e) as H.
  destruct (binary_round prec emax true p e); try subst; try reflexivity; contradiction.
Qed.

Lemma SFsub_of_less x y :
  valid_binary x = true -> valid_binary y = true ->
  SFltb x y = true -> SF_nonpos (SF64sub x y) = true.
Proof.
  intros Vx Vy. unfold SFltb, SF64sub.
  destruct x as [sx|sx| |sx mx ex], y as [sy|sy| |sy my ey];
    cbn [SFcompare SFsub SF_nonpos];
    try discriminate; try (destruct sx; discriminate || reflexivity);
    try (destruct sy; discriminate || reflexivity);
    try (destruct sx, sy; discriminate || reflexivity).
  cbn [valid_binary] in Vx, Vy. intros Hlt.
  apply binary_normalize_negative.
  rewrite aligned_value, aligned_value_r.
  pose proof (pow2_pos (ex - Z.min ex ey) ltac:(lia)).
  pose proof (pow2_pos (ey - Z.min ex ey) ltac:(lia)).
  destruct sx, sy; cbn [cond_Zopp]; try discriminate; try lia.
  - (* both negative *)
    destruct (ex ?= ey) eqn:Hc; try discriminate.
    + apply Z.compare_eq in Hc. subst ey.
      rewrite Z.min_id, Z.sub_diag, Z.pow_0_r.
      destruct (Pos.compare_cont Eq mx my) eqn:Hm; try discriminate.
      pose proof (proj1 (Pos.compare_gt_iff mx my) Hm). lia.
    + apply (proj1 (Z.compare_gt_iff ex ey)) in Hc.
      pose proof (canonical_lt _ _ _ _ Vy Vx Hc).
      replace (Z.min ex ey) with ey by lia.
      rewrite Z.sub_diag, Z.pow_0_r. lia.
  - (* both positive *)
    destruct (ex ?= ey) eqn:Hc; try discriminate.
    + apply Z.compare_eq in Hc. subst ey.
      rewrite Z.min_id, Z.sub_diag, Z.pow_0_r.
      destruct (Pos.compare_cont Eq mx my) eqn:Hm; try discriminate.
      pose proof (proj1 (Pos.compare_lt_iff mx my) Hm). lia.
    + apply (proj1 (Z.compare_lt_iff ex ey)) in Hc.
      pose proof (canonical_lt _ _ _ _ Vx Vy Hc).
      replace (Z.min ex ey) with ex by lia.
      rewrite Z.sub_diag, Z.pow_0_r. lia.
Qed.

Lemma SFsub_finite x y :
  valid_binary x = true -> valid_binary y = true ->
  SF_nonneg_finite x = true -> SF_nonneg_finite y = true ->
  SF_finite (SF64sub x y) = true.
Proof.
  intros Vx Vy. unfold SF64sub.
  destruct x as [sx|sx| |sx mx ex], y as [sy|sy| |sy my ey];
    cbn [SFsub SF_nonneg_finite SF_finite]; try discriminate;
    try reflexivity; try (destruct sx, sy; reflexivity).
  destruct sx, sy; try discriminate. intros _ _.
  cbn [valid_binary] in Vx, Vy. cbn [cond_Zopp].
  apply bounded_facts in Vx as (Hmx & Hex & _).
  apply bounded_facts in Vy as (Hmy & Hey & _).
  rewrite aligned_value, aligned_value_r.
  set (ez := Z.min ex ey).
  apply binary_normalize_finite; [lia|].
  assert (Hx : 2 ^ (ex - ez) <= 2 ^ (971 - ez)) by (apply Z.pow_le_mono_r; lia).
  assert (Hy : 2 ^ (ey - ez) <= 2 ^ (971 - ez)) by (apply Z.pow_le_mono_r; lia).
  pose proof (pow2_pos (ex - ez) ltac:(lia)).
  pose proof (pow2_pos (ey - ez) ltac:(lia)).
  assert (Zpos mx * 2 ^ (ex - ez) <= (2 ^ 53 - 1) * 2 ^ (971 - ez)) by nia.
  assert (Zpos my * 2 ^ (ey - ez) <= (2 ^ 53 - 1) * 2 ^ (971 - ez)) by nia.
  assert (0 < Zpos mx * 2 ^ (ex - ez)) by nia.
  assert (0 < Zpos my * 2 ^ (ey - ez)) by nia.
  lia.
Qed.

(** Integers below [2^53] *)

Lemma digits2_pos_iter_xO p k :
  digits2_pos (Pos.iter xO p k) = (digits2_pos p + k)%positive.
Proof.
  induction k as [|k IH] using Pos.peano_ind.
  - cbn. now rewrite Pos.add_1_r.
  - rewrite Pos.iter_succ. cbn [digits2_pos]. rewrite IH. lia.
Qed.

(** A canonical mantissa is not rounded. *)
Lemma binary_round_aux_canonical s m e :
  bounded prec emax m e = true ->
  binary_round_aux prec emax s (Zpos m) e loc_Exact = S754_finite s m e.
Proof.
  unfold bounded, canonical_mantissa. intros H.
  apply andb_prop in H as [Hc He]. apply Z.eqb_eq in Hc.
  unfold binary_round_aux, shr_fexp. cbn [Zdigits2].
  rewrite Hc, Z.sub_diag. cbn [shr shr_record_of_loc shr_m loc_of_shr_record
    round_nearest_even Zdigits2].
  rewrite Hc, Z.sub_diag. cbn [shr shr_record_of_loc shr_m].
  now rewrite He.
Qed.

(** An integer below [2^53] is a number, and the number is the integer. *)
Lemma binary_round_small s p :
  Zpos p < 2 ^ 53 ->
  exists m e,
    binary_round prec emax s p 0 = S754_finite s m e /\
    e <= 0 /\ Zpos m = Zpos p * 2 ^ (- e).
Proof.
  intros Hp. unfold binary_round.
  pose proof (digits2_pos_bounds p) as [Hlo Hhi].
  assert (Hd : Zpos (digits2_pos p) <= 53).
  { destruct (Z_le_gt_dec (Zpos (digits2_pos p)) 53) as [|Hgt]; [assumption|].
    assert (2 ^ 53 <= 2 ^ (Zpos (digits2_pos p) - 1)) by (apply Z.pow_le_mono_r; lia).
    lia. }
  assert (Hf : fexp prec emax (Zpos (digits2_pos p) + 0) = Zpos (digits2_pos p) - 53)
    by (unfold fexp, SpecFloat.emin, prec, emax; lia).
  rewrite Hf.
  pose proof (shl_align_value p 0 (Zpos (digits2_pos p) - 53)) as [Hez Hmz].
  destruct (shl_align p 0 (Zpos (digits2_pos p) - 53)) as [mz ez] eqn:Hsh.
  cbn [fst snd] in Hez, Hmz.
  replace (Z.min 0 (Zpos (digits2_pos p) - 53)) with (Zpos (digits2_pos p) - 53) in * by lia.
  exists mz, ez. split; [|split; [lia | rewrite Hmz; f_equal; f_equal; lia]].
  apply binary_round_aux_canonical.
  unfold bounded, canonical_mantissa. apply andb_true_intro. split.
  - apply Z.eqb_eq.
    assert (Hdz : Zpos (digits2_pos mz) = 53).
    { unfold shl_align in Hsh.
      destruct (Zpos (digits2_pos p) - 53 - 0) as [|q|q] eqn:Hq; try lia;
        injection Hsh as <- <-.
      - lia.
      - rewrite digits2_pos_iter_xO. lia. }
    rewrite Hdz. unfold fexp, SpecFloat.emin, prec, emax. lia.
  - apply Z.leb_le. unfold emax, prec. lia.
Qed.

End Rounding.

(** ** The built-ins on numbers *)

Section Builtins.

Lemma SF_zero_cases x s :
  Prim2SF x = S754_zero s -> x = (if s then neg_zero else zero).
Proof.
  intros H. rewrite <- (SF2Prim_Prim2SF x), H. now destruct s.
Qed.

Lemma Math_max_nonpos r : SF_nonpos (Prim2SF r) = true -> Math_max r 0 = 0.
Proof.
  intros H. destruct (Prim2SF r) as [s|s| |s m e] eqn:Hr; try discriminate.
  - apply SF_zero_cases in Hr. subst r. now destruct s.
  - destruct s; try discriminate. unfold Math_max.
    rewrite is_nan_SF, Hr, ltb_spec, Hr. reflexivity.
  - destruct s; try discriminate. unfold Math_max.
    rewrite is_nan_SF, Hr, ltb_spec, Hr. reflexivity.
Qed.

(** A grant above the system cost: the difference is negative, and the
    larger of it and 0 is 0. *)
Lemma Math_max_sub_of_less x y : (x <? y) = true -> Math_max (x - y) 0 = 0.
Proof.
  intros H. apply Math_max_nonpos. rewrite sub_spec.
  apply SFsub_of_less; try apply Prim2SF_valid. now rewrite <- ltb_spec.
Qed.

Lemma Math_max_cases a b :
  is_nan a = false -> is_nan b = false ->
  Math_max a b = a \/ Math_max a b = b.
Proof.
  intros Ha Hb. unfold Math_max. rewrite Ha, Hb. cbn [orb].
  destruct (a <? b); [now right|].
  destruct (b <? a); [now left|].
  destruct (get_sign a); [now right|now left].
Qed.

Lemma isFinite_not_nan x : isFinite x = true -> is_nan x = false.
Proof.
  unfold isFinite, is_finite. destruct (is_nan x); [discriminate|reflexivity].
Qed.

Lemma Math_max_finite a b :
  isFinite a = true -> isFinite b = true -> isFinite (Math_max a b) = true.
Proof.
  intros Ha Hb.
  destruct (Math_max_cases a b) as [H|H];
    try (now apply isFinite_not_nan); now rewrite H.
Qed.

Lemma Math_max_zero_nonneg y :
  isFinite y = true -> SF_nonneg_finite (Prim2SF (Math_max 0 y)) = true.
Proof.
  intros Hy. unfold Math_max.
  rewrite (isFinite_not_nan y Hy). change (is_nan 0) with false. cbn [orb].
  destruct (0 <? y) eqn:Hlt.
  - rewrite isFinite_SF in Hy. rewrite ltb_spec in Hlt.
    change (Prim2SF 0) with (S754_zero false) in Hlt.
    destruct (Prim2SF y) as [s|s| |s m e]; try discriminate; try reflexivity.
    now destruct s.
  - destruct (y <? 0); reflexivity.
Qed.

Lemma sub_finite a b :
  SF_nonneg_finite (Prim2SF a) = true -> SF_nonneg_finite (Prim2SF b) = true ->
  isFinite (a - b) = true.
Proof.
  intros Ha Hb. rewrite isFinite_SF, sub_spec.
  apply SFsub_finite; auto using Prim2SF_valid.
Qed.

(** The numbers of integers below [2^63] *)
Lemma of_uint63_finite z :
  (0 <= z < 2 ^ 63)%Z ->
  SF_finite (Prim2SF (of_uint63 (Uint63.of_Z z))) = true.
Proof.
  intros Hz. rewrite of_uint63_spec, Uint63.of_Z_spec.
  rewrite Z.mod_small by (change Uint63.wB with (2 ^ 63)%Z; lia).
  apply binary_normalize_finite; [lia|].
  assert (2 ^ 63 <= (2 ^ 53 - 1) * 2 ^ (971 - 0))%Z by (vm_compute; discriminate).
  lia.
Qed.

Lemma of_int_finite z : (Z.abs z < 2 ^ 63)%Z -> isFinite (of_int z) = true.
Proof.
  intros Hz. rewrite isFinite_SF. destruct z as [|p|p]; cbn [of_int].
  - reflexivity.
  - apply of_uint63_finite. lia.
  - rewrite opp_spec.
    pose proof (of_uint63_finite (Zpos p) ltac:(lia)) as H.
    now destruct (Prim2SF (of_uint63 (Uint63.of_Z (Zpos p)))).
Qed.

Lemma shiftr_abs_le a n : (0 <= n)%Z -> (Z.abs (Z.shiftr a n) <= Z.abs a)%Z.
Proof.
  intros Hn. rewrite Z.shiftr_div_pow2 by assumption.
  pose proof (pow2_pos n Hn) as Hp.
  pose proof (Z.div_mod a (2 ^ n) ltac:(lia)) as Hd.
  pose proof (Z.mod_pos_bound a (2 ^ n) Hp) as Hm.
  nia.
Qed.

Lemma Math_floor_finite x : isFinite x = true -> isFinite (Math_floor x) = true.
Proof.
  intros Hx. unfold Math_floor.
  pose proof (Prim2SF_valid x) as V.
  destruct (Prim2SF x) as [s|s| |s m e] eqn:Hsf; try assumption.
  destruct (0 <=? e)%Z eqn:He; [assumption|].
  apply Z.leb_gt in He. cbn [valid_binary] in V.
  apply bounded_facts in V as (Hm & _).
  apply of_int_finite.
  pose proof (shiftr_abs_le (cond_Zopp s (Zpos m)) (- e) ltac:(lia)) as Hle.
  assert (Z.abs (cond_Zopp s (Zpos m)) = Zpos m) by (destruct s; cbn [cond_Zopp]; lia).
  assert (2 ^ 53 < 2 ^ 63)%Z by (vm_compute; reflexivity).
  lia.
Qed.

Lemma is_zero_SF x : PrimFloat.is_zero x = SF_is_zero (Prim2SF x).
Proof.
  unfold PrimFloat.is_zero. rewrite eqb_spec.
  change (Prim2SF zero) with (S754_zero false).
  destruct (Prim2SF x) as [s|s| |s m e]; try reflexivity; now destruct s.
Qed.

Lemma SFcompare_Eq x y :
  SFcompare x y = Some Eq -> x = y \/ (SF_is_zero x = true /\ SF_is_zero y = true).
Proof.
  destruct x as [s|s| |s m e], y as [s'|s'| |s' m' e']; cbn [SFcompare SF_is_zero];
    try discriminate; try (now right); try (destruct s; discriminate);
    try (destruct s'; discriminate).
  - destruct s, s'; try discriminate; now left.
  - intros H. left.
    assert (Hs : s = s') by (destruct s, s'; congruence). subst s'.
    assert (He : (e ?= e')%Z = Eq /\ Pos.compare_cont Eq m m' = Eq).
    { destruct s, (e ?= e')%Z; try discriminate; split; try reflexivity.
      - destruct (Pos.compare_cont Eq m m'); try discriminate; reflexivity.
      - congruence. }
    destruct He as [He Hm].
    apply Z.compare_eq in He. apply Pos.compare_eq in Hm. now subst.
Qed.

Lemma eqb_true_eq a b : (a =? b) = true -> PrimFloat.is_zero a = false -> a = b.
Proof.
  rewrite eqb_spec, is_zero_SF. unfold SFeqb. intros H Hz.
  destruct (SFcompare (Prim2SF a) (Prim2SF b)) as [[]|] eqn:Hc; try discriminate.
  apply SFcompare_Eq in Hc as [Hc|[Hc _]]; [now apply Prim2SF_inj | congruence].
Qed.

Lemma leb_cases a b : (a <=? b) = true -> (a <? b) = true \/ (a =? b) = true.
Proof.
  rewrite leb_spec, ltb_spec, eqb_spec. unfold SFleb, SFltb, SFeqb.
  destruct (SFcompare (Prim2SF a) (Prim2SF b)) as [[]|]; intros; try discriminate; auto.
Qed.

Lemma Math_max_self a : is_nan a = false -> Math_max a a = a.
Proof.
  intros Ha. unfold Math_max. rewrite Ha, ltb_irrefl. cbn [orb].
  now destruct (get_sign a).
Qed.

Lemma eqb_not_nan a b : (a =? b) = true -> is_nan a = false /\ is_nan b = false.
Proof.
  rewrite eqb_spec, !is_nan_SF. unfold SFeqb.
  destruct (Prim2SF a), (Prim2SF b); cbn [SFcompare]; try discriminate; auto.
Qed.

Lemma Math_max_of_le a b :
  (a <=? b) = true -> PrimFloat.is_zero a = false -> Math_max a b = b.
Proof.
  intros Hle Hz. destruct (leb_cases a b Hle) as [Hlt|Heq].
  - unfold Math_max.
    rewrite (ltb_not_nan_l _ _ Hlt), (ltb_not_nan_r _ _ Hlt), Hlt. reflexivity.
  - pose proof (eqb_not_nan _ _ Heq) as [Ha _].
    apply eqb_true_eq in Heq; [|assumption]. subst b. now apply Math_max_self.
Qed.

Lemma positive_not_zero a b :
  (0 <? a) = true -> (a <=? b) = true -> PrimFloat.is_zero b = false.
Proof.
  rewrite ltb_spec, leb_spec, is_zero_SF. unfold SFltb, SFleb.
  change (Prim2SF 0) with (S754_zero false).
  destruct (Prim2SF a) as [s|s| |s m e], (Prim2SF b) as [s'|s'| |s' m' e'];
    cbn [SFcompare SF_is_zero]; try discriminate; try reflexivity;
    destruct s; discriminate.
Qed.

Lemma ltb_zero_not_zero b : (0 <? b) = true -> PrimFloat.is_zero b = false.
Proof.
  rewrite ltb_spec, is_zero_SF. unfold SFltb.
  change (Prim2SF 0) with (S754_zero false).
  destruct (Prim2SF b); cbn [SFcompare SF_is_zero]; try discriminate; reflexivity.
Qed.

Lemma leb_zero_cases b :
  (0 <=? b) = true -> (0 <? b) = true \/ PrimFloat.is_zero b = true.
Proof.
  rewrite leb_spec, ltb_spec, is_zero_SF. unfold SFltb, SFleb.
  change (Prim2SF 0) with (S754_zero false).
  destruct (Prim2SF b) as [s|s| |s m e]; cbn [SFcompare SF_is_zero];
    try discriminate; auto; destruct s; try discriminate; auto.
Qed.

Lemma is_zero_cases x : PrimFloat.is_zero x = true -> x = zero \/ x = neg_zero.
Proof.
  rewrite is_zero_SF. destruct (Prim2SF x) as [s| | |] eqn:H; try discriminate.
  intros _. apply SF_zero_cases in H. destruct s; auto.
Qed.

(** The sign of a zero operand does not show in [Math.max(a - b, 0)]. *)
Lemma Math_max_sub_Number_of_String a b :
  Math_max (Number_of_String a - Number_of_String b) 0 = Math_max (a - b) 0.
Proof.
  unfold Number_of_String.
  destruct (PrimFloat.is_zero a) eqn:Ha, (PrimFloat.is_zero b) eqn:Hb; try reflexivity.
  - apply is_zero_cases in Ha, Hb. destruct Ha, Hb; subst; reflexivity.
  - f_equal. apply Prim2SF_inj. rewrite !sub_spec.
    rewrite is_zero_SF in Hb.
    apply is_zero_cases in Ha as [Ha|Ha]; subst a; [reflexivity|].
    change (Prim2SF zero) with (S754_zero false).
    change (Prim2SF neg_zero) with (S754_zero true).
    destruct (Prim2SF b); try discriminate; reflexivity.
  - f_equal. apply Prim2SF_inj. rewrite !sub_spec.
    rewrite is_zero_SF in Ha.
    apply is_zero_cases in Hb as [Hb|Hb]; subst b; [reflexivity|].
    change (Prim2SF zero) with (S754_zero false).
    change (Prim2SF neg_zero) with (S754_zero true).
    destruct (Prim2SF a) as [s|s| |s m e]; try discriminate; reflexivity.
Qed.

Lemma of_uint63_small p :
  (Zpos p < 2 ^ 53)%Z ->
  exists m e,
    Prim2SF (of_uint63 (Uint63.of_Z (Zpos p))) = S754_finite false m e /\
    (e <= 0)%Z /\ Zpos m = (Zpos p * 2 ^ (- e))%Z.
Proof.
  intros Hp. rewrite of_uint63_spec, Uint63.of_Z_spec.
  rewrite Z.mod_small
    by (change Uint63.wB with (2 ^ 63)%Z;
        assert (2 ^ 53 < 2 ^ 63)%Z by (vm_compute; reflexivity); lia).
  cbn [binary_normalize]. now apply binary_round_small.
Qed.

Lemma shiftr_exact a e : (e <= 0)%Z -> Z.shiftr (a * 2 ^ (- e)) (- e) = a.
Proof.
  intros He. rewrite Z.shiftr_div_pow2 by lia.
  apply Z.div_mul. pose proof (pow2_pos (- e)). lia.
Qed.

(** The floor of a whole number is the number. *)
Lemma Math_floor_of_int z :
  (Z.abs z < 2 ^ 53)%Z -> Math_floor (of_int z) = of_int z.
Proof.
  intros Hz. destruct z as [|p|p].
  - reflexivity.
  - destruct (of_uint63_small p) as (m & e & Hsf & He & Hm); [lia|].
    unfold Math_floor. cbn [of_int]. rewrite Hsf.
    destruct (0 <=? e)%Z; [reflexivity|].
    cbn [cond_Zopp]. now rewrite Hm, shiftr_exact.
  - destruct (of_uint63_small p) as (m & e & Hsf & He & Hm); [lia|].
    unfold Math_floor. cbn [of_int]. rewrite opp_spec, Hsf. cbn [SFopp negb].
    destruct (0 <=? e)%Z; [reflexivity|].
    unfold cond_Zopp.
    rewrite Hm, <- Z.mul_opp_l, shiftr_exact by assumption.
    reflexivity.
Qed.

Lemma Math_floor_idempotent x : Math_floor (Math_floor x) = Math_floor x.
Proof.
  unfold Math_floor at 2 3.
  pose proof (Prim2SF_valid x) as V.
  destruct (Prim2SF x) as [s|s| |s m e] eqn:Hsf;
    try (unfold Math_floor; now rewrite Hsf).
  destruct (0 <=? e)%Z eqn:He; [unfold Math_floor; now rewrite Hsf, He|].
  apply Z.leb_gt in He. cbn [valid_binary] in V.
  apply bounded_facts in V as (Hm & _).
  apply Math_floor_of_int.
  pose proof (shiftr_abs_le (cond_Zopp s (Zpos m)) (- e) ltac:(lia)) as Hle.
  assert (Z.abs (cond_Zopp s (Zpos m)) = Zpos m) by (destruct s; cbn [cond_Zopp]; lia).
  lia.
Qed.

(** What [Math.floor] returns for a finite number is a whole number. *)
Lemma isInteger_Math_floor x : isFinite x = true -> isInteger (Math_floor x) = true.
Proof.
  intros Hx. unfold isInteger.
  rewrite Math_floor_idempotent, (Math_floor_finite x Hx).
  apply eqb_refl, isFinite_not_nan, Math_floor_finite, Hx.
Qed.

Lemma isInteger_Math_max a b :
  isInteger a = true -> isInteger b = true -> isInteger (Math_max a b) = true.
Proof.
  intros Ha Hb.
  assert (Hna : is_nan a = false)
    by (apply isFinite_not_nan; unfold isInteger in Ha; now apply andb_prop in Ha).
  assert (Hnb : is_nan b = false)
    by (apply isFinite_not_nan; unfold isInteger in Hb; now apply andb_prop in Hb).
  destruct (Math_max_cases a b Hna Hnb) as [H|H]; now rewrite H.
Qed.

(** Products and signs *)

Lemma mul_finite_factors a b :
  isFinite (a * b) = true -> isFinite a = true /\ isFinite b = true.
Proof.
  rewrite !isFinite_SF, mul_spec. unfold SF64mul.
  destruct (Prim2SF a) as [s|s| |s m e], (Prim2SF b) as [s'|s'| |s' m' e'];
    cbn [SFmul SF_finite]; auto; discriminate.
Qed.

Lemma mul_nonneg a b :
  SF_nonneg (Prim2SF a) = true -> SF_nonneg (Prim2SF b) = true ->
  isFinite (a * b) = true -> SF_nonneg_finite (Prim2SF (a * b)) = true.
Proof.
  rewrite isFinite_SF, mul_spec. unfold SF64mul.
  destruct (Prim2SF a) as [s|s| |s m e], (Prim2SF b) as [s'|s'| |s' m' e'];
    cbn [SFmul SF_finite SF_nonneg SF_nonneg_finite]; try discriminate; auto.
  destruct s, s'; try discriminate. intros _ _. cbn [xorb].
  pose proof (binary_round_aux_sign false (Zpos (m * m')) (e + e') loc_Exact
                ltac:(lia)) as H.
  destruct (binary_round_aux prec emax false (Zpos (m * m')) (e + e') loc_Exact)
    as [s|s| |s m0 e0]; try discriminate; try reflexivity.
  now subst s.
Qed.

Lemma positive_le_nonneg min x :
  (0 <? min) = true -> (min <=? x) = true -> SF_nonneg (Prim2SF x) = true.
Proof.
  rewrite ltb_spec, leb_spec. unfold SFltb, SFleb.
  change (Prim2SF 0) with (S754_zero false).
  destruct (Prim2SF min) as [s|s| |s m e], (Prim2SF x) as [s'|s'| |s' m' e'];
    cbn [SFcompare SF_nonneg]; try discriminate; try reflexivity;
    destruct s; try discriminate; destruct s'; try discriminate; reflexivity.
Qed.

Lemma zero_le_nonneg x : (0 <=? x) = true -> SF_nonneg (Prim2SF x) = true.
Proof.
  rewrite leb_spec. unfold SFleb. change (Prim2SF 0) with (S754_zero false).
  destruct (Prim2SF x) as [s|s| |s m e]; cbn [SFcompare SF_nonneg];
    try discriminate; try reflexivity; destruct s; try discriminate; reflexivity.
Qed.

Lemma nonneg_finite x :
  SF_nonneg_finite (Prim2SF x) = true -> SF_nonneg (Prim2SF x) = true.
Proof. destruct (Prim2SF x) as [s|s| |s m e]; cbn; auto; discriminate. Qed.

Lemma finite_nonneg x :
  isFinite x = true -> SF_nonneg (Prim2SF x) = true ->
  SF_nonneg_finite (Prim2SF x) = true.
Proof.
  rewrite isFinite_SF.
  destruct (Prim2SF x) as [s|s| |s m e]; cbn; auto; discriminate.
Qed.

Lemma Math_round_finite x : isFinite x = true -> isFinite (Math_round x) = true.
Proof.
  intros Hx. unfold Math_round.
  pose proof (Prim2SF_valid x) as V.
  destruct (Prim2SF x) as [s|s| |s m e] eqn:Hsf; try assumption.
  destruct (0 <=? e)%Z eqn:He; [assumption|].
  apply Z.leb_gt in He. cbn [valid_binary] in V.
  apply bounded_facts in V as (Hm & _).
  destruct (_ =? 0)%Z; [now destruct s|].
  apply of_int_finite.
  pose proof (shiftr_abs_le (cond_Zopp s (Zpos m) + 2 ^ (- e - 1))%Z (- e)
                ltac:(lia)) as Hle.
  assert (0 < 2 ^ (- e - 1) <= 2 ^ (- e))%Z.
  { split; [apply pow2_pos; lia | apply Z.pow_le_mono_r; lia]. }
  assert (2 ^ 53 < 2 ^ 62)%Z by (vm_compute; reflexivity).
  assert (2 ^ 62 + 2 ^ 62 = 2 ^ 63)%Z by (vm_compute; reflexivity).
  destruct (Z_le_gt_dec (2 ^ (- e - 1)) (2 ^ 53))%Z.
  - destruct s; cbn [cond_Zopp] in *; lia.
  - (* the half is above every mantissa: the shift leaves 0 or 1 *)
    rewrite Z.shiftr_div_pow2 by lia.
    assert (Hpow : (2 ^ (- e) = 2 * 2 ^ (- e - 1))%Z).
    { replace (- e)%Z with (Z.succ (- e - 1)) at 1 by lia.
      apply Z.pow_succ_r. lia. }
    assert (Hq : (0 <= (cond_Zopp s (Zpos m) + 2 ^ (- e - 1)) / 2 ^ (- e) < 1)%Z).
    { split.
      - apply Z.div_pos; [destruct s; cbn [cond_Zopp]; lia | lia].
      - apply Z.div_lt_upper_bound; [lia|]. destruct s; cbn [cond_Zopp]; lia. }
    lia.
Qed.

End Builtins.

(** * Facts about the calculator *)

#[local] Hint Resolve isFinite_not_nan Math_floor_finite Math_max_finite
  Math_max_zero_nonneg Math_max_zero_not_negative sub_finite leb_refl
  isInteger_Math_floor isInteger_Math_max Math_round_finite zero_le_nonneg
  nonneg_finite finite_nonneg : numbers.

Lemma or_zero_id n : or_zero n = n.
Proof. now destruct n. Qed.

(** ** The sanitizer *)

Section Sanitizer.

Variable v : raw.
Variable n : number.
Hypothesis parsed_v : parseNum v = Some n.

Lemma parseNum_finite : isFinite n = true.
Proof.
  revert parsed_v. unfold parseNum. destruct v as [s|x| |]; try discriminate.
  - destruct s as [|c s]; try discriminate.
    destruct (isFinite (Number (replace_comma (String c s)))) eqn:H;
      intros [= <-]; assumption.
  - destruct (isFinite (Number_of_String x)) eqn:H; intros [= <-]; assumption.
Qed.

Lemma parseNum_parsed : n = parsed v.
Proof.
  revert parsed_v. unfold parseNum, parsed.
  destruct v as [s|x| |]; try discriminate.
  - destruct s as [|c s]; try discriminate.
    destruct (isFinite _); now intros [= <-].
  - destruct (isFinite _); now intros [= <-].
Qed.

End Sanitizer.

#[local] Hint Resolve parseNum_finite : numbers.

(** What a clamp to a positive minimum returns is not negative. *)
Section Clamped.

Variable v : raw.
Variable min r : number.
Hypothesis min_positive : (0 <? min) = true.

Lemma clampInt_nonneg :
  clampInt (parseNum v) min = Some r -> SF_nonneg (Prim2SF r) = true.
Proof.
  destruct (parseNum v) as [n|] eqn:H; cbn [clampInt]; [|discriminate].
  intros [= <-]. apply (positive_le_nonneg min); [assumption|].
  apply Math_max_ge_l; eauto using ltb_not_nan_r with numbers.
Qed.

Lemma clampMin_nonneg :
  clampMin (parseNum v) min = Some r -> SF_nonneg (Prim2SF r) = true.
Proof.
  destruct (parseNum v) as [n|] eqn:H; cbn [clampMin]; [|discriminate].
  intros [= <-]. apply (positive_le_nonneg min); [assumption|].
  apply Math_max_ge_l; eauto using ltb_not_nan_r with numbers.
Qed.

End Clamped.

(** The cost and the grant that [derived] computes with are finite and not
    negative, whatever the form holds. *)
Section CostAndGrant.

Variable form : RoiInputs.

Lemma systemCost_value_nonneg :
  SF_nonneg_finite (Prim2SF (systemCost_value form)) = true.
Proof.
  unfold systemCost_value.
  destruct (parseNum (systemCost form)) as [n|] eqn:H; cbn [clampInt nullish];
    eauto with numbers.
Qed.

Lemma grant_value_nonneg :
  SF_nonneg_finite (Prim2SF (grant_value form)) = true.
Proof.
  unfold grant_value.
  destruct (parseNum (grant form)) as [n|] eqn:H; cbn [clampInt nullish];
    eauto with numbers.
Qed.

Lemma upfront_finite :
  isFinite (Math_max (systemCost_value form - grant_value form) 0) = true.
Proof.
  auto using systemCost_value_nonneg, grant_value_nonneg with numbers.
Qed.

Lemma upfront_nonneg :
  (0 <=? Math_max (systemCost_value form - grant_value form) 0) = true.
Proof.
  apply not_ltb_leb; auto using upfront_finite with numbers.
Qed.

Lemma derived_upfront :
  upfront (derived form) = Math_max (systemCost_value form - grant_value form) 0.
Proof.
  unfold derived, systemCost_value, grant_value.
  required_fields form; reflexivity.
Qed.

End CostAndGrant.

(** What a blur handler stores is what [derived] computes with, the
    field's own minimum applied. *)
Lemma onBlur_commits (f : RoiInputs) :
  householdSize (onBlur_householdSize f)
  = committed (clampInt (parseNum (householdSize f)) 1) /\
  electricityPrice (onBlur_electricityPrice f)
  = committed (clampMin (parseNum (electricityPrice f)) 0.1) /\
  systemCost (onBlur_systemCost f)
  = committed (clampInt (parseNum (systemCost f)) 0) /\
  grant (onBlur_grant f) = committed (clampInt (parseNum (grant f)) 0) /\
  kwhPerPerson (onBlur_kwhPerPerson f)
  = committed (clampInt (parseNum (kwhPerPerson f)) 500).
Proof. split_and; reflexivity. Qed.

(** ** The cash-flow series *)

Section CashFlow.

Variable netAnnualSavings : number.

Lemma running_total_shift c i :
  running_total (c + netAnnualSavings) netAnnualSavings i
  = running_total c netAnnualSavings (S i).
Proof.
  induction i as [|i IH]; cbn [running_total]; [reflexivity|].
  now rewrite IH.
Qed.

(** From year 1 on, every call of the callback adds the saving. *)
Lemma cash_flow_later : forall n a c,
  cash_flow netAnnualSavings c (seq (S a) n) =
  map (fun i => {| year := S a + i;
                   value := Math_round (running_total c netAnnualSavings (S i)) |})
      (seq 0 n).
Proof.
  induction n as [|n IH]; intros a c; [reflexivity|].
  cbn [seq cash_flow Nat.ltb Nat.leb map]. f_equal.
  - now rewrite Nat.add_0_r.
  - rewrite IH, <- seq_shift, map_map. apply map_ext. intros i.
    rewrite running_total_shift. f_equal. lia.
Qed.

Lemma cash_flow_spec c h :
  cash_flow netAnnualSavings c (seq 0 (h + 1)) =
  map (fun i => {| year := i;
                   value := Math_round (running_total c netAnnualSavings i) |})
      (seq 0 (h + 1)).
Proof.
  rewrite Nat.add_1_r. cbn [seq cash_flow Nat.ltb Nat.leb map]. f_equal.
  rewrite cash_flow_later, <- seq_shift, map_map. reflexivity.
Qed.

End CashFlow.

Lemma nth_map_seq (g : nat -> number) n i d :
  (i < n)%nat -> nth i (map g (seq 0 n)) d = g i.
Proof.
  intros Hi. rewrite (nth_indep _ d (g 0%nat)) by (now rewrite length_map, length_seq).
  rewrite map_nth, seq_nth by assumption. reflexivity.
Qed.

(** ** The main branch of [derived] *)

Section Complete.

Variable form : RoiInputs.
Hypothesis form_complete : complete form = true.

Lemma derived_complete :
  exists people price kwh,
    clampInt (parseNum form.(householdSize)) 1 = Some people /\
    clampMin (parseNum form.(electricityPrice)) 0.1 = Some price /\
    clampInt (parseNum form.(kwhPerPerson)) 500 = Some kwh.
Proof.
  revert form_complete. unfold complete.
  destruct (clampInt (parseNum (householdSize form)) 1) as [a|],
           (clampMin (parseNum (electricityPrice form)) 0.1) as [b|],
           (clampInt (parseNum (kwhPerPerson form)) 500) as [c|];
    try discriminate. intros _. now exists a, b, c.
Qed.

Ltac main_branch :=
  destruct derived_complete as (a & b & c & Ha & Hb & Hc);
  unfold derived; now rewrite Ha, Hb, Hc.

Lemma derived_data :
  data (derived form) =
  cash_flow (netAnnualSavings (derived form)) (- upfront (derived form))
            (seq 0 (horizonYears form + 1)).
Proof. main_branch. Qed.

Lemma derived_paybackYears :
  paybackYears (derived form) =
  if 0 <? netAnnualSavings (derived form)
  then upfront (derived form) / netAnnualSavings (derived form)
  else Infinity.
Proof. main_branch. Qed.

Lemma derived_tenYearRoi :
  tenYearRoi (derived form) =
  if 0 <? upfront (derived form)
  then (netAnnualSavings (derived form) * 10 - upfront (derived form))
       / upfront (derived form)
  else 0.
Proof. main_branch. Qed.

Lemma derived_value_at i :
  (i <= horizonYears form)%nat ->
  value_at (derived form) i =
  Math_round (running_total (- upfront (derived form))
                            (netAnnualSavings (derived form)) i).
Proof.
  intros Hi. unfold value_at.
  rewrite derived_data, cash_flow_spec, map_map.
  cbn [value]. now rewrite nth_map_seq by lia.
Qed.

Hypothesis maintenance_finite : isFinite (maintenance form) = true.
Hypothesis maintenance_nonneg : (0 <=? maintenance form) = true.
Hypothesis savingsRatio_nonneg : (0 <=? savingsRatio form) = true.
Hypothesis savings_finite : isFinite (annualSavings (derived form)) = true.

(** Nothing but the overflow of the product makes the yearly figures
    infinite or NaN. *)
Lemma derived_finite_savings :
  isFinite (annualHotWaterKwh (derived form)) = true /\
  isFinite (annualHotWaterCost (derived form)) = true /\
  isFinite (netAnnualSavings (derived form)) = true.
Proof.
  revert savings_finite.
  destruct derived_complete as (a & b & c & Ha & Hb & Hc).
  unfold derived. rewrite Ha, Hb, Hc.
  cbn [annualHotWaterKwh annualHotWaterCost annualSavings netAnnualSavings].
  intros Hs.
  apply clampInt_nonneg in Ha; [|reflexivity].
  apply clampMin_nonneg in Hb; [|reflexivity].
  apply clampInt_nonneg in Hc; [|reflexivity].
  destruct (mul_finite_factors _ _ Hs) as [Hcost _].
  destruct (mul_finite_factors _ _ Hcost) as [Hkwh _].
  split_and; try assumption.
  apply Math_max_finite; [|reflexivity].
  apply sub_finite.
  - apply mul_nonneg; auto using zero_le_nonneg.
    apply nonneg_finite, mul_nonneg; auto.
    apply nonneg_finite, mul_nonneg; auto.
  - apply finite_nonneg; auto using zero_le_nonneg.
Qed.

End Complete.

(** ** Numbers that the sanitizer leaves as they are *)

Section Refinement.

Variable x : number.

Lemma isInteger_finite : isInteger x = true -> isFinite x = true.
Proof. unfold isInteger. intros H. now apply andb_prop in H. Qed.

Lemma isInteger_floor :
  isInteger x = true -> PrimFloat.is_zero x = false -> Math_floor x = x.
Proof.
  unfold isInteger. intros H Hz. apply andb_prop in H as [_ H].
  destruct (PrimFloat.is_zero (Math_floor x)) eqn:Hf.
  - exfalso. rewrite eqb_spec in H. rewrite is_zero_SF in Hz, Hf.
    unfold SFeqb in H.
    destruct (Prim2SF (Math_floor x)) as [s1|s1| |s1 m1 e1],
             (Prim2SF x) as [s2|s2| |s2 m2 e2];
      cbn in *; try discriminate; destruct s2; discriminate.
  - now apply eqb_true_eq.
Qed.

Lemma parseNum_number :
  isFinite x = true -> PrimFloat.is_zero x = false -> parseNum (RNumber x) = Some x.
Proof.
  intros Hx Hz. unfold parseNum, Number_of_String. now rewrite Hz, Hx.
Qed.

(** A whole number at or above a positive minimum is left as it is. *)
Lemma clampInt_fixed min :
  (0 <? min) = true -> isInteger x = true -> (min <=? x) = true ->
  clampInt (parseNum (RNumber x)) min = Some x.
Proof.
  intros Hmin Hx Hle.
  pose proof (positive_not_zero _ _ Hmin Hle) as Hz.
  rewrite parseNum_number by auto using isInteger_finite. cbn [clampInt].
  rewrite isInteger_floor by assumption.
  rewrite Math_max_of_le; auto using ltb_zero_not_zero.
Qed.

Lemma clampMin_fixed min :
  (0 <? min) = true -> isFinite x = true -> (min <=? x) = true ->
  clampMin (parseNum (RNumber x)) min = Some x.
Proof.
  intros Hmin Hf Hle.
  pose proof (positive_not_zero _ _ Hmin Hle) as Hz.
  rewrite parseNum_number by assumption. cbn [clampMin].
  rewrite Math_max_of_le; auto using ltb_zero_not_zero.
Qed.

(** A whole number at or above 0 is left as it is, but for the sign of a
    zero. *)
Lemma clampInt_zero_fixed :
  isInteger x = true -> (0 <=? x) = true ->
  nullish (clampInt (parseNum (RNumber x)) 0) 0 = Number_of_String x.
Proof.
  intros Hx Hle.
  destruct (leb_zero_cases x Hle) as [Hpos|Hz].
  - pose proof (ltb_zero_not_zero x Hpos) as Hz.
    rewrite parseNum_number by auto using isInteger_finite.
    cbn [clampInt nullish].
    rewrite isInteger_floor by assumption.
    unfold Number_of_String. rewrite Hz.
    unfold Math_max.
    rewrite (ltb_not_nan_r _ _ Hpos), Hpos. reflexivity.
  - unfold parseNum, Number_of_String. rewrite Hz. reflexivity.
Qed.

End Refinement.

(** ** Values that a blur has committed *)

Section Committed.

Variable v : raw.

(** [Math.max(0, y)] is [y] or [+0], never [-0]. *)
Lemma Math_max_zero_Number_of_String y :
  Number_of_String (Math_max 0 y) = Math_max 0 y.
Proof.
  unfold Math_max. change (is_nan 0) with false. cbn [orb].
  destruct (is_nan y); [reflexivity|].
  destruct (0 <? y) eqn:Hlt.
  - unfold Number_of_String. now rewrite (ltb_zero_not_zero y Hlt).
  - destruct (y <? 0); reflexivity.
Qed.

Lemma Math_max_zero_cases y :
  is_nan y = false ->
  (Math_max 0 y = y /\ (0 <? y) = true) \/ Math_max 0 y = 0.
Proof.
  intros Hy. unfold Math_max. change (is_nan 0) with false. rewrite Hy. cbn [orb].
  destruct (0 <? y); [now left|]. right. destruct (y <? 0); reflexivity.
Qed.

Lemma Math_max_zero_fixed y :
  is_nan y = false -> Math_max 0 (Math_max 0 y) = Math_max 0 y.
Proof.
  intros Hy. destruct (Math_max_zero_cases y Hy) as [[H Hlt]|H]; rewrite H.
  - assumption.
  - reflexivity.
Qed.

Lemma Math_floor_Math_max_zero y :
  isFinite y = true ->
  Math_floor (Math_max 0 (Math_floor y)) = Math_max 0 (Math_floor y).
Proof.
  intros Hy.
  pose proof (isFinite_not_nan _ (Math_floor_finite y Hy)) as Hn.
  destruct (Math_max_zero_cases _ Hn) as [[H _]|H]; rewrite H.
  - apply Math_floor_idempotent.
  - reflexivity.
Qed.

Lemma clampInt_committed min :
  (0 <? min) = true -> isInteger min = true ->
  clampInt (parseNum (committed (clampInt (parseNum v) min))) min
  = clampInt (parseNum v) min.
Proof.
  intros Hmin Hint.
  destruct (parseNum v) as [n|] eqn:Hv; cbn [clampInt committed]; [|reflexivity].
  pose proof (parseNum_finite v n Hv) as Hn.
  apply clampInt_fixed; [assumption| |].
  - apply isInteger_Math_max; [assumption | now apply isInteger_Math_floor].
  - apply Math_max_ge_l; [now apply (ltb_not_nan_r 0) |].
    now apply isFinite_not_nan, Math_floor_finite.
Qed.

Lemma clampMin_committed min :
  (0 <? min) = true -> isFinite min = true ->
  clampMin (parseNum (committed (clampMin (parseNum v) min))) min
  = clampMin (parseNum v) min.
Proof.
  intros Hmin Hfin.
  destruct (parseNum v) as [n|] eqn:Hv; cbn [clampMin committed]; [|reflexivity].
  pose proof (parseNum_finite v n Hv) as Hn.
  apply clampMin_fixed; [assumption| |].
  - now apply Math_max_finite.
  - apply Math_max_ge_l; [now apply (ltb_not_nan_r 0) | now apply isFinite_not_nan].
Qed.

Lemma clampInt_zero_committed :
  clampInt (parseNum (committed (clampInt (parseNum v) 0))) 0
  = clampInt (parseNum v) 0.
Proof.
  destruct (parseNum v) as [n|] eqn:Hv; cbn [clampInt committed]; [|reflexivity].
  pose proof (parseNum_finite v n Hv) as Hn.
  unfold parseNum. rewrite Math_max_zero_Number_of_String.
  rewrite Math_max_finite by (try reflexivity; now apply Math_floor_finite).
  cbn [clampInt]. f_equal.
  rewrite Math_floor_Math_max_zero by assumption.
  apply Math_max_zero_fixed. now apply isFinite_not_nan, Math_floor_finite.
Qed.

End Committed.

(** ** Quotients, zeros and flat series *)

Section Quotients.

Lemma SFdiv_core_binary_nonneg m1 e1 m2 e2 :
  (0 <= m1)%Z -> (0 < m2)%Z ->
  (0 <= fst (fst (SFdiv_core_binary prec emax m1 e1 m2 e2)))%Z.
Proof.
  intros H1 H2. unfold SFdiv_core_binary.
  set (s := (e1 - e2 - _)%Z).
  set (m' := match s with Zpos _ => Z.shiftl m1 s | Z0 => m1 | Zneg _ => 0%Z end).
  assert (Hm : (0 <= m')%Z).
  { subst m'. destruct s; try lia. apply Z.shiftl_nonneg. assumption. }
  pose proof (Z_div_mod m' m2 ltac:(lia)) as Hd.
  destruct (Z.div_eucl m' m2) as [q r]. cbn [fst].
  destruct Hd as [Hq Hr]. nia.
Qed.

(** A cost that is not negative, divided by a positive saving: the
    quotient is not negative, and never NaN. *)
Lemma div_nonneg u n :
  SF_nonneg_finite (Prim2SF u) = true -> (0 <? n) = true ->
  SF_nonneg (Prim2SF (u / n)) = true.
Proof.
  rewrite ltb_spec, div_spec. unfold SFltb, SF64div.
  change (Prim2SF 0) with (S754_zero false).
  destruct (Prim2SF u) as [s|s| |s m e], (Prim2SF n) as [s'|s'| |s' m' e'];
    cbn [SFcompare SFdiv SF_nonneg SF_nonneg_finite]; try discriminate;
    try reflexivity; try (destruct s'; discriminate || reflexivity).
  all: destruct s, s'; try discriminate; try reflexivity.
  intros _ _. cbn [xorb].
  pose proof (SFdiv_core_binary_nonneg (Zpos m) e (Zpos m') e'
                ltac:(lia) ltac:(lia)) as Hq.
  destruct (SFdiv_core_binary prec emax (Zpos m) e (Zpos m') e') as [[q ez] l].
  cbn [fst] in Hq.
  pose proof (binary_round_aux_sign false q ez l Hq) as H.
  destruct (binary_round_aux prec emax false q ez l) as [s|s| |s m0 e0];
    try contradiction; now subst s.
Qed.

Lemma nonneg_not_nan x : SF_nonneg (Prim2SF x) = true -> is_nan x = false.
Proof. rewrite is_nan_SF. destruct (Prim2SF x); try reflexivity; discriminate. Qed.

Lemma nonneg_not_negative x : SF_nonneg (Prim2SF x) = true -> (x <? 0) = false.
Proof.
  rewrite ltb_spec. unfold SFltb. change (Prim2SF 0) with (S754_zero false).
  destruct (Prim2SF x) as [s|s| |s m e]; cbn [SF_nonneg SFcompare];
    try discriminate; try reflexivity; destruct s; try discriminate; reflexivity.
Qed.

(** Nothing to pay, divided by a positive saving, is 0. *)
Lemma zero_div n : (0 <? n) = true -> 0 / n = 0.
Proof.
  intros H. apply Prim2SF_inj. revert H.
  rewrite ltb_spec, div_spec. unfold SFltb, SF64div.
  change (Prim2SF 0) with (S754_zero false).
  destruct (Prim2SF n) as [s'|s'| |s' m' e'];
    cbn [SFcompare SFdiv]; try discriminate; destruct s'; try discriminate;
    reflexivity.
Qed.

Lemma SFsub_diag s m e : SF64sub (S754_finite s m e) (S754_finite s m e) = S754_zero false.
Proof.
  unfold SF64sub. cbn [SFsub]. now rewrite Z.sub_diag.
Qed.

(** A grant that covers the cost leaves nothing to pay. *)
Lemma Math_max_sub_of_le x y :
  SF_nonneg_finite (Prim2SF x) = true -> (x <=? y) = true ->
  Math_max (x - y) 0 = 0.
Proof.
  intros Hx Hle. destruct (leb_cases x y Hle) as [Hlt|Heq].
  - now apply Math_max_sub_of_less.
  - destruct (PrimFloat.is_zero x) eqn:Hz.
    + apply Math_max_nonpos. rewrite sub_spec.
      revert Hz Heq. rewrite is_zero_SF, eqb_spec. unfold SFeqb, SF64sub.
      destruct (Prim2SF x) as [s|s| |s m e], (Prim2SF y) as [s'|s'| |s' m' e'];
        cbn [SF_is_zero SFcompare SFsub SF_nonpos]; try discriminate;
        try reflexivity; destruct s, s'; try discriminate; reflexivity.
    + apply eqb_true_eq in Heq; [|assumption]. subst y.
      apply Math_max_nonpos. rewrite sub_spec.
      rewrite is_zero_SF in Hz.
      destruct (Prim2SF x) as [s|s| |s m e]; try discriminate.
      now rewrite SFsub_diag.
Qed.

(** Adding 0 changes nothing but the sign of a zero. *)
Lemma add_zero_r x : PrimFloat.is_zero x = false -> x + 0 = x.
Proof.
  rewrite is_zero_SF. intros Hz. apply Prim2SF_inj. rewrite add_spec.
  unfold SF64add. change (Prim2SF 0) with (S754_zero false).
  destruct (Prim2SF x) as [s|s| |s m e]; try discriminate; reflexivity.
Qed.

Lemma running_total_flat c i :
  PrimFloat.is_zero c = false -> running_total c 0 i = c.
Proof.
  intros Hc. induction i as [|i IH]; cbn [running_total]; [reflexivity|].
  rewrite IH. now apply add_zero_r.
Qed.

Lemma add_zero_zero x :
  PrimFloat.is_zero x = true -> PrimFloat.is_zero (x + 0) = true.
Proof.
  intros Hz. apply is_zero_cases in Hz as [Hz|Hz]; subst x; reflexivity.
Qed.

Lemma running_total_zero c i :
  PrimFloat.is_zero c = true -> PrimFloat.is_zero (running_total c 0 i) = true.
Proof.
  intros Hc. induction i as [|i IH]; cbn [running_total]; [assumption|].
  now apply add_zero_zero.
Qed.

Lemma Math_round_zero x :
  PrimFloat.is_zero x = true -> PrimFloat.is_zero (Math_round x) = true.
Proof.
  intros Hz. apply is_zero_cases in Hz as [Hz|Hz]; subst x; reflexivity.
Qed.

Lemma zero_eqb_zero a b :
  PrimFloat.is_zero a = true -> PrimFloat.is_zero b = true -> (a =? b) = true.
Proof.
  intros Ha Hb.
  apply is_zero_cases in Ha as [Ha|Ha], Hb as [Hb|Hb]; subst a b; reflexivity.
Qed.

Lemma opp_zero x : PrimFloat.is_zero (- x) = PrimFloat.is_zero x.
Proof. rewrite !is_zero_SF, opp_spec. now destruct (Prim2SF x). Qed.

Lemma opp_not_zero x : PrimFloat.is_zero x = false -> PrimFloat.is_zero (- x) = false.
Proof.
  rewrite !is_zero_SF, opp_spec. now destruct (Prim2SF x).
Qed.

End Quotients.

Section AnyForm.

Variable form : RoiInputs.

Lemma derived_upfront_nonneg :
  SF_nonneg_finite (Prim2SF (upfront (derived form))) = true.
Proof.
  rewrite derived_upfront. apply finite_nonneg.
  - apply upfront_finite.
  - apply zero_le_nonneg, upfront_nonneg.
Qed.

Lemma derived_paybackYears_cases :
  paybackYears (derived form) = Infinity \/
  ((0 <? netAnnualSavings (derived form)) = true /\
   paybackYears (derived form)
   = upfront (derived form) / netAnnualSavings (derived form)).
Proof.
  unfold derived. required_fields form; try (now left).
  cbn [paybackYears netAnnualSavings upfront].
  destruct (0 <? _); [now right | now left].
Qed.

End AnyForm.

Lemma firstn_seq_le a n m : (n <= m)%nat -> firstn n (seq a m) = seq a n.
Proof.
  intros H. replace m with (n + (m - n))%nat by lia.
  rewrite seq_app, firstn_app, length_seq, Nat.sub_diag. cbn [firstn].
  rewrite app_nil_r. rewrite <- (length_seq n a) at 1. apply firstn_all.
Qed.

(** ** The legacy calculator on a cleared field *)

Section Zero.

Lemma zero_mul_l a b :
  PrimFloat.is_zero a = true -> isFinite b = true -> PrimFloat.is_zero (a * b) = true.
Proof.
  rewrite !is_zero_SF, isFinite_SF, mul_spec. unfold SF64mul.
  destruct (Prim2SF a) as [s|s| |s m e], (Prim2SF b) as [s'|s'| |s' m' e'];
    cbn [SFmul SF_is_zero SF_finite]; try discriminate; reflexivity.
Qed.

Lemma zero_mul_r a b :
  isFinite a = true -> PrimFloat.is_zero b = true -> PrimFloat.is_zero (a * b) = true.
Proof.
  rewrite !is_zero_SF, isFinite_SF, mul_spec. unfold SF64mul.
  destruct (Prim2SF a) as [s|s| |s m e], (Prim2SF b) as [s'|s'| |s' m' e'];
    cbn [SFmul SF_is_zero SF_finite]; try discriminate; reflexivity.
Qed.

(** No saving, less a maintenance that is not negative: nothing is left. *)
Lemma Math_max_zero_sub z m :
  PrimFloat.is_zero z = true -> (0 <=? m) = true -> Math_max (z - m) 0 = 0.
Proof.
  intros Hz Hm. apply Math_max_nonpos. rewrite sub_spec.
  apply zero_le_nonneg in Hm. rewrite is_zero_SF in Hz. unfold SF64sub.
  destruct (Prim2SF z) as [s|s| |s mz e], (Prim2SF m) as [s'|s'| |s' m' e'];
    cbn [SFsub SF_is_zero SF_nonneg SF_nonpos SFopp] in *; try discriminate;
    try reflexivity; destruct s'; try discriminate; try reflexivity;
    destruct s; reflexivity.
Qed.

End Zero.

Lemma nothing_saved_zero (form : Legacy.RoiInputs) :
  PrimFloat.is_zero (annualSavings (Legacy.derived form)) = true ->
  (0 <=? Legacy.maintenance form) = true ->
  nothing_saved (Legacy.derived form).
Proof.
  intros Hs Hm.
  assert (Hn : netAnnualSavings (Legacy.derived form) = 0)
    by (now apply Math_max_zero_sub).
  unfold nothing_saved. split_and.
  - now apply zero_eqb_zero.
  - assumption.
  - change (paybackYears (Legacy.derived form))
      with (if 0 <? netAnnualSavings (Legacy.derived form)
            then upfront (Legacy.derived form) / netAnnualSavings (Legacy.derived form)
            else Infinity).
    now rewrite Hn.
Qed.

Lemma Number_blank text : trim text = EmptyString -> Number text = 0.
Proof. intros H. unfold Number. now rewrite H. Qed.

(** ** Texts: white space and commas *)

Section Text.

Lemma eqb_code c d : Ascii.eqb c d = (code c =? code d)%N.
Proof.
  destruct (Ascii.eqb_spec c d) as [->|Hn].
  - symmetry. apply N.eqb_refl.
  - symmetry. apply N.eqb_neq. intros H. apply Hn.
    rewrite <- (ascii_N_embedding c), <- (ascii_N_embedding d).
    unfold code in H. now rewrite H.
Qed.

Lemma code_inj c d : code c = code d -> c = d.
Proof.
  intros H. rewrite <- (ascii_N_embedding c), <- (ascii_N_embedding d).
  unfold code in H. now rewrite H.
Qed.

(** How [skip_white] goes through a string: it stops, or drops a
    one-byte, a two-byte or a three-byte white space, none of which holds
    a byte of [keep]. *)
Lemma skip_white_ind (P : string -> Prop) :
  (forall s, skip_white s = s -> P s) ->
  (forall c r, ((9 <=? code c) && (code c <=? 13) || (code c =? 32))%N = true ->
     (forall t, skip_white (String c t) = skip_white t) -> P r -> P (String c r)) ->
  (forall c1 c2 r, (128 <=? code c1)%N = true -> (128 <=? code c2)%N = true ->
     (forall t, skip_white (String c1 (String c2 t)) = skip_white t) -> P r ->
     P (String c1 (String c2 r))) ->
  (forall c1 c2 c3 r, (128 <=? code c1)%N = true -> (128 <=? code c2)%N = true ->
     (128 <=? code c3)%N = true ->
     (forall t, skip_white (String c1 (String c2 (String c3 t))) = skip_white t) ->
     P r -> P (String c1 (String c2 (String c3 r)))) ->
  forall s, P s.
Proof.
  intros Hstop H1 H2 H3 s.
  assert (H : forall n s, (String.length s <= n)%nat -> P s);
    [|now apply (H (String.length s))].
  clear s. induction n as [|n IH]; intros s Hlen.
  - destruct s; [|cbn in Hlen; lia]. now apply Hstop.
  - destruct s as [|c1 r1]; [now apply Hstop|].
    cbn [String.length] in Hlen.
    destruct ((9 <=? code c1) && (code c1 <=? 13) || (code c1 =? 32))%N eqn:E1.
    { apply H1; [assumption| |apply IH; lia].
      intros t. cbn [skip_white]. now rewrite E1. }
    destruct r1 as [|c2 r2];
      [apply Hstop; cbn [skip_white]; now rewrite E1|].
    cbn [String.length] in Hlen.
    destruct ((code c1 =? 194) && (code c2 =? 160))%N eqn:E2.
    { apply andb_prop in E2 as [Ea Eb].
      apply N.eqb_eq in Ea, Eb.
      apply H2; [now rewrite Ea | now rewrite Eb | | apply IH; lia].
      intros t. cbn [skip_white]. now rewrite E1, Ea, Eb. }
    destruct r2 as [|c3 r3];
      [apply Hstop; cbn [skip_white]; now rewrite E1, E2|].
    cbn [String.length] in Hlen.
    destruct ((code c1 =? 225) && (code c2 =? 154) && (code c3 =? 128)
              || (code c1 =? 226) && (code c2 =? 128)
                 && ((128 <=? code c3) && (code c3 <=? 138)
                     || (code c3 =? 168) || (code c3 =? 169) || (code c3 =? 175))
              || (code c1 =? 226) && (code c2 =? 129) && (code c3 =? 159)
              || (code c1 =? 227) && (code c2 =? 128) && (code c3 =? 128)
              || (code c1 =? 239) && (code c2 =? 187) && (code c3 =? 191))%N eqn:E3.
    + apply H3; [| | | |apply IH; lia].
      4: { intros t. cbn [skip_white]. now rewrite E1, E2, E3. }
      all: repeat rewrite ?orb_true_iff, ?andb_true_iff, ?N.eqb_eq, ?N.leb_le in E3;
        apply N.leb_le; lia.
    + apply Hstop. cbn [skip_white]. now rewrite E1, E2, E3.
Qed.

Lemma skip_white_idempotent s : skip_white (skip_white s) = skip_white s.
Proof.
  induction s using skip_white_ind; congruence.
Qed.

Lemma trim_end_empty s : trim_end s = EmptyString -> skip_white s = EmptyString.
Proof.
  destruct s as [|c r]; [reflexivity|]. cbn [trim_end].
  destruct (skip_white (String c r)); [reflexivity|discriminate].
Qed.

Lemma trim_empty s : trim s = EmptyString -> skip_white s = EmptyString.
Proof.
  intros H. apply trim_end_empty in H. now rewrite skip_white_idempotent in H.
Qed.

(** Commas *)

Lemma not_comma c : (code c =? 44)%N = false -> Ascii.eqb c "," = false.
Proof. now rewrite eqb_code. Qed.

Lemma white_not_comma c :
  ((9 <=? code c) && (code c <=? 13) || (code c =? 32))%N = true ->
  Ascii.eqb c "," = false.
Proof.
  intros H. apply not_comma. apply N.eqb_neq. intros E. rewrite E in H. discriminate.
Qed.

Lemma high_not_comma c : (128 <=? code c)%N = true -> Ascii.eqb c "," = false.
Proof.
  intros H. apply not_comma. apply N.eqb_neq. intros E. rewrite E in H. discriminate.
Qed.

Lemma has_comma_skip_white s : has_comma (skip_white s) = has_comma s.
Proof.
  induction s as [s Hs|c r Hc Hs IH|c1 c2 r H1 H2 Hs IH|c1 c2 c3 r H1 H2 H3 Hs IH]
    using skip_white_ind; rewrite Hs; try reflexivity; cbn [has_comma];
    rewrite ?(white_not_comma _ Hc), ?(high_not_comma _ H1),
      ?(high_not_comma _ H2), ?(high_not_comma _ H3); assumption.
Qed.

Lemma blank_no_comma s : skip_white s = EmptyString -> has_comma s = false.
Proof. intros H. now rewrite <- has_comma_skip_white, H. Qed.

Lemma has_comma_trim_end s : has_comma (trim_end s) = has_comma s.
Proof.
  induction s as [|c r IH]; [reflexivity|]. cbn [trim_end].
  destruct (skip_white (String c r)) eqn:E.
  - symmetry. now apply blank_no_comma.
  - cbn [has_comma]. now rewrite IH.
Qed.

Lemma has_comma_trim s : has_comma (trim s) = has_comma s.
Proof. unfold trim. now rewrite has_comma_trim_end, has_comma_skip_white. Qed.

Lemma has_comma_app a b : has_comma (a ++ b)%string = has_comma a || has_comma b.
Proof.
  induction a as [|c a IH]; [reflexivity|]. cbn [append has_comma].
  now rewrite IH, orb_assoc.
Qed.

Lemma replace_comma_none s : has_comma s = false -> replace_comma s = s.
Proof.
  induction s as [|c r IH]; [reflexivity|]. cbn [has_comma replace_comma].
  intros H. apply orb_false_elim in H as [Hc Hr]. now rewrite Hc, IH.
Qed.

Lemma replace_comma_first a b :
  has_comma a = false -> replace_comma (a ++ String "," b)%string = (a ++ String "." b)%string.
Proof.
  induction a as [|c a IH]; [reflexivity|]. cbn [has_comma append replace_comma].
  intros H. apply orb_false_elim in H as [Hc Hr]. now rewrite Hc, IH.
Qed.

(** Only the first comma is replaced: a second one stays. *)
Lemma replace_comma_second a b :
  has_comma b = true -> has_comma (replace_comma (a ++ String "," b)%string) = true.
Proof.
  intros Hb. induction a as [|c a IH]; [assumption|].
  cbn [append replace_comma]. destruct (Ascii.eqb c ",").
  - cbn [has_comma]. rewrite has_comma_app. cbn [has_comma].
    now rewrite !orb_true_r.
  - cbn [has_comma]. now rewrite IH, orb_true_r.
Qed.

(** No numeric literal holds a comma. *)

Lemma digit_not_comma c : is_digit c = true -> Ascii.eqb c "," = false.
Proof.
  unfold is_digit. intros H. apply not_comma. apply N.eqb_neq. intros E.
  rewrite E in H. discriminate.
Qed.

Lemma decimal_digits_comma s : forall acc count,
  has_comma s = true -> has_comma (snd (decimal_digits s acc count)) = true.
Proof.
  induction s as [|c r IH]; intros acc count H; [discriminate|].
  cbn [decimal_digits]. destruct (is_digit c) eqn:Hd; [|assumption].
  apply IH. cbn [has_comma] in H. now rewrite (digit_not_comma c Hd) in H.
Qed.

Lemma based_digits_comma base s : forall acc,
  has_comma s = true -> based_digits base s acc = None.
Proof.
  induction s as [|c r IH]; intros acc H; [discriminate|].
  cbn [based_digits]. cbn [has_comma] in H.
  destruct (Ascii.eqb_spec c ",") as [->|Hc].
  - reflexivity.
  - cbn [orb] in H. destruct (digit_in_base base c); [|reflexivity].
    destruct r; [discriminate|]. now apply IH.
Qed.

Lemma exponent_part_comma s : has_comma s = true -> exponent_part s = None.
Proof.
  intros H. unfold exponent_part.
  assert (Hd : forall d, has_comma d = true ->
            match decimal_digits d 0 0 with
            | (e, count, EmptyString) =>
                if (0 <? count)%Z then Some e else None
            | _ => None
            end = None /\
            match decimal_digits d 0 0 with
            | (e, count, EmptyString) =>
                if (0 <? count)%Z then Some (- e)%Z else None
            | _ => None
            end = None).
  { intros d Hc. pose proof (decimal_digits_comma d 0 0 Hc) as Hr.
    destruct (decimal_digits d 0 0) as [[e count] rest]. cbn [snd] in Hr.
    destruct rest; [discriminate|]. now split. }
  destruct s as [|c r]; [discriminate|].
  destruct c as [[] [] [] [] [] [] [] []];
    first [ apply (Hd _ H) | apply (Hd r H) ].
Qed.

Lemma unsigned_decimal_comma s : has_comma s = true -> unsigned_decimal s = NaN.
Proof.
  intros H. unfold unsigned_decimal.
  destruct (String.eqb s "Infinity") eqn:E.
  { apply String.eqb_eq in E. subst s. discriminate. }
  assert (Htail : forall (cond : bool) mantissa frac_count after_frac,
            has_comma after_frac = true ->
            (if cond then
               match after_frac with
               | EmptyString => decimal_value mantissa (- frac_count)%Z
               | String c r =>
                   if (code c =? 101)%N || (code c =? 69)%N then
                     match exponent_part r with
                     | Some e => decimal_value mantissa (e - frac_count)%Z
                     | None => NaN
                     end
                   else NaN
               end
             else NaN) = NaN).
  { intros cond mantissa frac_count after_frac Hc.
    destruct cond; [|reflexivity].
    destruct after_frac as [|c r]; [discriminate|].
    destruct ((code c =? 101)%N || (code c =? 69)%N) eqn:Ee; [|reflexivity].
    rewrite exponent_part_comma; [reflexivity|].
    cbn [has_comma] in Hc. rewrite eqb_code in Hc.
    apply orb_prop in Ee as [Ee|Ee]; apply N.eqb_eq in Ee; rewrite Ee in Hc;
      exact Hc. }
  pose proof (decimal_digits_comma s 0 0 H) as Hr.
  destruct (decimal_digits s 0 0) as [[int_part int_count] after_int].
  cbn [snd] in Hr.
  destruct after_int as [|c r]; [discriminate|].
  assert (Hfrac : forall r, has_comma r = true ->
            (let '(mantissa, frac_count, after_frac, has_dot) :=
               let '(m, total, rest) := decimal_digits r int_part 0 in
               (m, total, rest, true) in
             if (if has_dot then (0 <? int_count + frac_count)%Z
                 else (0 <? int_count)%Z)
             then
               match after_frac with
               | EmptyString => decimal_value mantissa (- frac_count)%Z
               | String c r =>
                   if (code c =? 101)%N || (code c =? 69)%N then
                     match exponent_part r with
                     | Some e => decimal_value mantissa (e - frac_count)%Z
                     | None => NaN
                     end
                   else NaN
               end
             else NaN) = NaN).
  { intros r0 Hc. pose proof (decimal_digits_comma r0 int_part 0 Hc) as Hr0.
    destruct (decimal_digits r0 int_part 0) as [[m total] rest]. cbn [snd] in Hr0.
    now apply Htail. }
  destruct c as [[] [] [] [] [] [] [] []];
    first [ apply (Hfrac r Hr) | apply (Htail _ _ _ _ Hr) ].
Qed.

Lemma numeric_literal_comma s : has_comma s = true -> numeric_literal s = NaN.
Proof.
  intros H. unfold numeric_literal.
  destruct s as [|c1 r1]; [discriminate|].
  assert (Hneg : has_comma r1 = true -> - unsigned_decimal r1 = NaN)
    by (intros Hc; now rewrite unsigned_decimal_comma).
  assert (Hbased : forall base r, has_comma r = true ->
            match based_digits base r 0 with
            | Some z => SF2Prim (binary_normalize prec emax z 0 false)
            | None => NaN
            end = NaN)
    by (intros base r Hc; now rewrite based_digits_comma).
  destruct c1 as [[] [] [] [] [] [] [] []];
    try (apply (unsigned_decimal_comma _ H));
    try (apply unsigned_decimal_comma, H);
    try (apply Hneg, H).
  destruct r1 as [|c2 r2]; [discriminate|].
  destruct c2 as [[] [] [] [] [] [] [] []];
    first [ apply (unsigned_decimal_comma _ H) | apply Hbased, H ].
Qed.

Lemma Number_comma s : has_comma s = true -> Number s = NaN.
Proof.
  intros H. unfold Number. rewrite <- has_comma_trim in H.
  destruct (trim s); [discriminate|]. now apply numeric_literal_comma.
Qed.

Lemma parseNum_text s :
  s <> EmptyString ->
  parseNum (RString s)
  = (if isFinite (Number (replace_comma s)) then Some (Number (replace_comma s))
     else None).
Proof. destruct s; [congruence|reflexivity]. Qed.

End Text.

(** ** Texts that read as numbers *)

Section TypedNumbers.

Variable text : string.

Lemma Number_no_comma : is_nan (Number text) = false -> has_comma text = false.
Proof.
  intros H. destruct (has_comma text) eqn:E; [|reflexivity].
  now rewrite (Number_comma text E) in H.
Qed.

Lemma parseNum_text_number :
  text <> EmptyString -> isFinite (Number text) = true ->
  parseNum (RString text) = Some (Number text).
Proof.
  intros Ht Hf. rewrite parseNum_text by assumption.
  rewrite replace_comma_none by (now apply Number_no_comma, isFinite_not_nan).
  now rewrite Hf.
Qed.

Lemma above_minimum_not_empty min :
  (0 <? min) = true -> (min <=? Number text) = true -> text <> EmptyString.
Proof.
  intros Hmin Hle ->. change (Number EmptyString) with 0 in Hle.
  apply leb_not_ltb in Hle. congruence.
Qed.

(** A text that reads as a whole number at or above a positive minimum is
    kept as that number. *)
Lemma clampInt_text_fixed min :
  (0 <? min) = true -> isInteger (Number text) = true ->
  (min <=? Number text) = true ->
  clampInt (parseNum (RString text)) min = Some (Number text).
Proof.
  intros Hmin Hx Hle.
  rewrite parseNum_text_number
    by eauto using above_minimum_not_empty, isInteger_finite.
  transitivity (clampInt (parseNum (RNumber (Number text))) min);
    [|now apply clampInt_fixed].
  rewrite parseNum_number; [reflexivity | now apply isInteger_finite |].
  exact (positive_not_zero _ _ Hmin Hle).
Qed.

Lemma clampMin_text_fixed min :
  (0 <? min) = true -> isFinite (Number text) = true ->
  (min <=? Number text) = true ->
  clampMin (parseNum (RString text)) min = Some (Number text).
Proof.
  intros Hmin Hx Hle.
  rewrite parseNum_text_number by eauto using above_minimum_not_empty.
  transitivity (clampMin (parseNum (RNumber (Number text))) min);
    [|now apply clampMin_fixed].
  rewrite parseNum_number; [reflexivity | assumption |].
  exact (positive_not_zero _ _ Hmin Hle).
Qed.

Lemma clampInt_zero_text_fixed :
  isInteger (Number text) = true -> (0 <=? Number text) = true ->
  nullish (clampInt (parseNum (RString text)) 0) 0 = Number_of_String (Number text).
Proof.
  intros Hx Hle.
  destruct text as [|c r] eqn:Et; [reflexivity|]. rewrite <- Et in *.
  rewrite parseNum_text_number
    by (subst; discriminate || now apply isInteger_finite).
  destruct (PrimFloat.is_zero (Number text)) eqn:Hz.
  - apply is_zero_cases in Hz as [Hz|Hz]; rewrite Hz; reflexivity.
  - rewrite <- (clampInt_zero_fixed (Number text)) by assumption.
    rewrite (parseNum_number (Number text));
      [reflexivity | now apply isInteger_finite | assumption].
Qed.

End TypedNumbers.

(** ** Texts: the words of a tile *)

Section Words.

Lemma string_app_assoc (a b c : string) :
  ((a ++ b) ++ c = a ++ (b ++ c))%string.
Proof. induction a as [|x a IH]; [reflexivity|]. cbn [append]. now rewrite IH. Qed.

Lemma string_app_nil_r (a : string) : (a ++ EmptyString)%string = a.
Proof. induction a as [|x a IH]; [reflexivity|]. cbn [append]. now rewrite IH. Qed.

(** [split] and [join] *)

Lemma split_space_cons s : exists p ps, split_space s = p :: ps.
Proof.
  destruct s as [|c r]; cbn [split_space]; [now eexists _, _|].
  destruct (code c =? 32)%N; [now eexists _, _|].
  destruct (split_space r); now eexists _, _.
Qed.

Lemma concat_cons sep x y l :
  String.concat sep (x :: y :: l) = (x ++ sep ++ String.concat sep (y :: l))%string.
Proof. reflexivity. Qed.

Lemma join_split s : String.concat " " (split_space s) = s.
Proof.
  induction s as [|c r IH]; [reflexivity|]. cbn [split_space].
  destruct (split_space_cons r) as (p & ps & Hr). rewrite Hr in *.
  destruct (code c =? 32)%N eqn:Hc.
  - apply N.eqb_eq in Hc. rewrite concat_cons, IH. cbn [append].
    f_equal. symmetry. now apply code_inj.
  - rewrite <- IH. now destruct ps.
Qed.

Lemma split_space_no_space s :
  Forall (fun p => has_space p = false) (split_space s).
Proof.
  induction s as [|c r IH]; [now repeat constructor|]. cbn [split_space].
  destruct (code c =? 32)%N eqn:Hc; [now constructor|].
  destruct (split_space r) as [|p ps];
    [constructor; [cbn [has_space]; now rewrite Hc | constructor]|].
  inversion IH as [|? ? Hp Hps]; subst. constructor; [|assumption].
  cbn [has_space]. now rewrite Hc.
Qed.

Lemma split_space_one s :
  (1 <? List.length (split_space s))%nat = has_space s.
Proof.
  induction s as [|c r IH]; [reflexivity|]. cbn [split_space has_space].
  destruct (split_space_cons r) as (p & ps & Hr). rewrite Hr in *.
  destruct (code c =? 32)%N; [reflexivity|]. exact IH.
Qed.

Lemma concat_snoc l : forall u,
  l <> [] -> String.concat " " (l ++ [u]) = (String.concat " " l ++ " " ++ u)%string.
Proof.
  induction l as [|x l IH]; intros u Hl; [congruence|].
  destruct l as [|y l]; [reflexivity|].
  change ((x :: y :: l) ++ [u]) with (x :: ((y :: l) ++ [u])).
  cbn [app]. rewrite !concat_cons.
  change (y :: l ++ [u]) with ((y :: l) ++ [u]).
  rewrite IH by discriminate.
  now rewrite !string_app_assoc.
Qed.

(** The words but the last, a space, and the last word: the text. *)
Lemma join_removelast s :
  has_space s = true ->
  s = (String.concat " " (removelast (split_space s)) ++ " "
       ++ last (split_space s) EmptyString)%string.
Proof.
  intros Hs. rewrite <- split_space_one in Hs.
  destruct (split_space s) as [|p [|q ps]] eqn:E; try discriminate.
  rewrite <- concat_snoc.
  - rewrite <- app_removelast_last by discriminate.
    rewrite <- E. symmetry. apply join_split.
  - cbn [removelast]. discriminate.
Qed.

Lemma last_no_space s : has_space (last (split_space s) EmptyString) = false.
Proof.
  pose proof (split_space_no_space s) as H.
  destruct (split_space_cons s) as (p & ps & E). rewrite E in *.
  rewrite Forall_forall in H. apply H.
  rewrite <- E. destruct (exists_last (l := split_space s)) as (l' & a & Hl).
  - rewrite E. discriminate.
  - rewrite Hl, last_last. apply in_or_app. right. now left.
Qed.

End Words.

Lemma skip_white_length s : (String.length (skip_white s) <= String.length s)%nat.
Proof.
  induction s as [s Hs|c r Hc Hs IH|c1 c2 r H1 H2 Hs IH|c1 c2 c3 r H1 H2 H3 Hs IH]
    using skip_white_ind; rewrite Hs; cbn [String.length]; lia.
Qed.

(** No suffix of a string is longer than the string. *)
Ltac too_long Hs :=
  exfalso;
  match type of Hs with
  | skip_white ?x = _ =>
      pose proof (skip_white_length x) as Hl; rewrite Hs in Hl;
      cbn [String.length] in Hl; lia
  end.

Section Trimmed.

(** What [trim] returns does not end in a space. *)
Lemma trim_end_no_space s : forall a, trim_end s <> (a ++ " ")%string.
Proof.
  induction s as [|c r IH]; intros a; cbn [trim_end].
  - now destruct a.
  - destruct (skip_white (String c r)) eqn:E; [now destruct a|].
    destruct a as [|c' a]; cbn [append].
    + intros [= -> Hr]. apply trim_end_empty in Hr.
      cbn [skip_white] in E. change (code " ") with 32%N in E. cbn in E.
      congruence.
    + intros [= _ Hr]. now apply (IH a).
Qed.

Lemma trim_no_space s a : trim s <> (a ++ " ")%string.
Proof. apply trim_end_no_space. Qed.

(** A text followed by a character that is not white space *)

Lemma skip_white_eq c1 r1 :
  skip_white (String c1 r1) =
  if ((9 <=? code c1) && (code c1 <=? 13) || (code c1 =? 32))%N then skip_white r1
  else
    match r1 with
    | String c2 r2 =>
        if ((code c1 =? 194) && (code c2 =? 160))%N then skip_white r2
        else
          match r2 with
          | String c3 r3 =>
              if ((code c1 =? 225) && (code c2 =? 154) && (code c3 =? 128)
                  || (code c1 =? 226) && (code c2 =? 128)
                     && ((128 <=? code c3) && (code c3 <=? 138)
                         || (code c3 =? 168) || (code c3 =? 169) || (code c3 =? 175))
                  || (code c1 =? 226) && (code c2 =? 129) && (code c3 =? 159)
                  || (code c1 =? 227) && (code c2 =? 128) && (code c3 =? 128)
                  || (code c1 =? 239) && (code c2 =? 187) && (code c3 =? 191))%N
              then skip_white r3
              else String c1 r1
          | EmptyString => String c1 r1
          end
    | EmptyString => String c1 r1
    end.
Proof. reflexivity. Qed.

Lemma skip_white_percent s :
  skip_white (s ++ "%") = (skip_white s ++ "%")%string.
Proof.
  induction s as [s Hs|c r Hc Hs IH|c1 c2 r H1 H2 Hs IH|c1 c2 c3 r H1 H2 H3 Hs IH]
    using skip_white_ind; cbn [append]; rewrite ?Hs; try assumption.
  destruct s as [|c1 [|c2 [|c3 r3]]]; cbn [append]; [reflexivity| | |];
    revert Hs; rewrite !(skip_white_eq c1);
    (destruct ((9 <=? code c1) && (code c1 <=? 13) || (code c1 =? 32))%N;
     [intros Hs; too_long Hs|]).
  - intros _. change (code "%") with 37%N. cbn [N.eqb Pos.eqb].
    now rewrite andb_false_r.
  - destruct ((code c1 =? 194) && (code c2 =? 160))%N; [intros Hs; too_long Hs|].
    intros _. change (code "%") with 37%N.
    cbn [N.eqb N.leb N.compare Pos.eqb Pos.compare Pos.compare_cont].
    now rewrite !andb_false_r.
  - destruct ((code c1 =? 194) && (code c2 =? 160))%N; [intros Hs; too_long Hs|].
    destruct (_ || _)%bool; [intros Hs; too_long Hs|reflexivity].
Qed.

Lemma trim_end_percent s : trim_end (s ++ "%") = (s ++ "%")%string.
Proof.
  induction s as [|c r IH]; [reflexivity|].
  cbn [append trim_end]. change (String c (r ++ "%")) with (String c r ++ "%")%string.
  rewrite skip_white_percent, IH.
  now destruct (skip_white (String c r)).
Qed.

Lemma trim_percent s : trim (s ++ "%") = (skip_white s ++ "%")%string.
Proof. unfold trim. now rewrite skip_white_percent, trim_end_percent. Qed.

Lemma trim_skip_white s : trim (skip_white s) = trim s.
Proof. unfold trim. now rewrite skip_white_idempotent. Qed.

End Trimmed.

Section Normalizing.

Lemma replace_nbsp_eq c1 r1 :
  replace_nbsp (String c1 r1) =
  match r1 with
  | String c2 r2 =>
      if ((code c1 =? 194) && (code c2 =? 160))%N
      then String " " (replace_nbsp r2)
      else String c1 (replace_nbsp r1)
  | EmptyString => String c1 r1
  end.
Proof. reflexivity. Qed.

Lemma replace_nbsp_ind (P : string -> Prop) :
  P EmptyString ->
  (forall c, P (String c EmptyString)) ->
  (forall c1 c2 r, ((code c1 =? 194) && (code c2 =? 160))%N = true ->
     P r -> P (String c1 (String c2 r))) ->
  (forall c1 c2 r, ((code c1 =? 194) && (code c2 =? 160))%N = false ->
     P (String c2 r) -> P (String c1 (String c2 r))) ->
  forall s, P s.
Proof.
  intros H0 H1 Hhit Hmiss s.
  assert (H : forall n s, (String.length s <= n)%nat -> P s);
    [|now apply (H (String.length s))].
  clear s. induction n as [|n IH]; intros s Hlen.
  - destruct s; [assumption | cbn in Hlen; lia].
  - destruct s as [|c1 [|c2 r]]; [assumption | apply H1 |].
    cbn [String.length] in Hlen.
    destruct ((code c1 =? 194) && (code c2 =? 160))%N eqn:E.
    + apply Hhit; [assumption | apply IH; lia].
    + apply Hmiss; [assumption | apply IH; cbn [String.length]; lia].
Qed.

(** The first character of the result is a space, or the first character
    of the text. *)
Lemma replace_nbsp_head s c t :
  replace_nbsp s = String c t ->
  code c = 32%N \/ exists r, s = String c r /\ t = replace_nbsp r.
Proof.
  destruct s as [|c1 [|c2 r]]; [discriminate| |].
  - intros [= <- <-]. right. now exists EmptyString.
  - rewrite replace_nbsp_eq.
    destruct ((code c1 =? 194) && (code c2 =? 160))%N.
    + intros [= <- <-]. now left.
    + intros [= <- <-]. right. now eexists.
Qed.

(** A text followed by a character that does not end a no-break space *)
Lemma replace_nbsp_app s c t :
  (code c =? 160)%N = false ->
  replace_nbsp (s ++ String c t) = (replace_nbsp s ++ replace_nbsp (String c t))%string.
Proof.
  intros Hc.
  induction s as [|c1|c1 c2 r E IH|c1 c2 r E IH] using replace_nbsp_ind.
  - reflexivity.
  - cbn [append]. rewrite (replace_nbsp_eq c1). now rewrite Hc, andb_false_r.
  - cbn [append]. rewrite (replace_nbsp_eq c1 (String c2 r)), replace_nbsp_eq, E.
    cbn [append]. now rewrite IH.
  - cbn [append] in *. rewrite (replace_nbsp_eq c1 (String c2 r)), replace_nbsp_eq, E.
    cbn [append]. now rewrite IH.
Qed.

Lemma replace_nbsp_nbsp a b :
  replace_nbsp (a ++ nbsp ++ b) = replace_nbsp (a ++ " " ++ b).
Proof.
  unfold nbsp. cbn [append]. rewrite !replace_nbsp_app by reflexivity.
  f_equal. now destruct b.
Qed.

(** Line terminators *)

Lemma has_line_terminator_tail c r :
  has_line_terminator (String c r) = false -> has_line_terminator r = false.
Proof. cbn [has_line_terminator]. intros H. now apply orb_false_elim in H. Qed.

Lemma has_line_terminator_skip_white s :
  has_line_terminator s = false -> has_line_terminator (skip_white s) = false.
Proof.
  induction s as [s Hs|c r Hc Hs IH|c1 c2 r H1 H2 Hs IH|c1 c2 c3 r H1 H2 H3 Hs IH]
    using skip_white_ind; rewrite Hs; intros H; try assumption; apply IH;
    repeat apply has_line_terminator_tail in H; assumption.
Qed.

Lemma has_line_terminator_replace_nbsp s :
  has_line_terminator s = false -> has_line_terminator (replace_nbsp s) = false.
Proof.
  induction s as [|c1|c1 c2 r E IH|c1 c2 r E IH] using replace_nbsp_ind;
    intros H; try assumption.
  - rewrite replace_nbsp_eq, E. cbn [has_line_terminator].
    rewrite IH by (now do 2 apply has_line_terminator_tail in H).
    now destruct (replace_nbsp r) as [|? [|? ?]].
  - rewrite replace_nbsp_eq, E.
    pose proof H as Hs. cbn [has_line_terminator] in Hs.
    apply orb_false_elim in Hs as [Hs Ht]. fold has_line_terminator in Ht.
    specialize (IH (has_line_terminator_tail _ _ H)).
    cbn [has_line_terminator]. fold has_line_terminator. rewrite IH, orb_false_r.
    revert Hs. unfold starts_line_terminator.
    destruct ((code c1 =? 10) || (code c1 =? 13))%N; [discriminate|]. cbn [orb].
    destruct (replace_nbsp (String c2 r)) as [|c2' [|c3' t]] eqn:Er; try reflexivity.
    destruct ((code c1 =? 226) && (code c2' =? 128)
              && ((code c3' =? 168) || (code c3' =? 169)))%N eqn:Ec; [|reflexivity].
    apply andb_prop in Ec as [Ec Ec3]. apply andb_prop in Ec as [Ec1 Ec2].
    apply N.eqb_eq in Ec2.
    apply replace_nbsp_head in Er as [Er|(r' & [= <- <-] & Er)]; [congruence|].
    symmetry in Er.
    apply replace_nbsp_head in Er as [Er|(r'' & -> & Er)].
    + rewrite Er in Ec3. discriminate.
    + now rewrite Ec1, Ec2, Ec3.
Qed.

(** The last character *)

Lemma but_last_app s c : but_last (s ++ String c EmptyString) = Some (s, c).
Proof.
  induction s as [|x s IH]; [reflexivity|]. cbn [append but_last]. now rewrite IH.
Qed.

Lemma but_last_spec s : forall p l,
  but_last s = Some (p, l) -> s = (p ++ String l EmptyString)%string.
Proof.
  induction s as [|x s IH]; intros p l; [discriminate|]. cbn [but_last].
  destruct (but_last s) as [[p' l']|] eqn:E.
  - intros [= <- <-]. cbn [append]. f_equal. now apply IH.
  - intros [= <- <-]. destruct s as [|y s]; [reflexivity|].
    cbn [but_last] in E. now destruct (but_last s) as [[? ?]|].
Qed.

Lemma match_percent_spec str g1 g2 :
  match_percent str = Some (g1, g2) ->
  g2 = "%"%string /\ str = (g1 ++ "%")%string.
Proof.
  unfold match_percent.
  destruct (but_last str) as [[[|c r] l]|] eqn:E; try discriminate.
  destruct (code l =? 37)%N eqn:El; [|discriminate].
  destruct (has_line_terminator (String c r)); [discriminate|].
  intros [= <- <-]. apply N.eqb_eq in El.
  assert (l = "%"%char) as -> by now apply code_inj.
  split; [reflexivity|]. now apply but_last_spec.
Qed.

End Normalizing.

(** ** Texts: white space around a number *)

Section Blank.

(** White space starts with one of few bytes. *)
Lemma blank_head c r :
  skip_white (String c r) = EmptyString ->
  ((9 <= code c <= 13) \/ code c = 32 \/ code c = 194 \/ code c = 225 \/
   code c = 226 \/ code c = 227 \/ code c = 239)%N.
Proof.
  rewrite skip_white_eq.
  destruct ((9 <=? code c) && (code c <=? 13) || (code c =? 32))%N eqn:E1.
  { intros _.
    repeat rewrite ?orb_true_iff, ?andb_true_iff, ?N.eqb_eq, ?N.leb_le in E1. lia. }
  destruct r as [|c2 r2]; [discriminate|].
  destruct ((code c =? 194) && (code c2 =? 160))%N eqn:E2.
  { intros _.
    repeat rewrite ?orb_true_iff, ?andb_true_iff, ?N.eqb_eq, ?N.leb_le in E2. lia. }
  destruct r2 as [|c3 r3]; [discriminate|].
  match goal with
  | |- context [if ?cond then skip_white r3 else _] => destruct cond eqn:E3
  end; [|discriminate].
  intros _.
  repeat rewrite ?orb_true_iff, ?andb_true_iff, ?N.eqb_eq, ?N.leb_le in E3. lia.
Qed.

(** White space before a text *)
Lemma skip_white_app_blank a t :
  skip_white a = EmptyString -> skip_white (a ++ t) = skip_white t.
Proof.
  induction a as [s Hs|c r Hc Hs IH|c1 c2 r H1 H2 Hs IH|c1 c2 c3 r H1 H2 H3 Hs IH]
    using skip_white_ind; rewrite Hs; intros Ha.
  - now subst s.
  - cbn [append]. rewrite Hs. now apply IH.
  - cbn [append]. rewrite Hs. now apply IH.
  - cbn [append]. rewrite Hs. now apply IH.
Qed.

Lemma trim_end_blank b : skip_white b = EmptyString -> trim_end b = EmptyString.
Proof.
  intros Hb. destruct b as [|c r]; [reflexivity|]. cbn [trim_end]. now rewrite Hb.
Qed.

(** White space after a text: what does not start with white space does
    not either when white space is put after it. *)
Lemma skip_white_stop_app x b :
  skip_white b = EmptyString ->
  skip_white x = x -> x <> EmptyString -> skip_white (x ++ b) = (x ++ b)%string.
Proof.
  intros Hb Hs Hx. destruct b as [|b0 b'].
  { now rewrite string_app_nil_r. }
  pose proof (blank_head b0 b' Hb) as Hb0.
  destruct x as [|c1 [|c2 [|c3 r3]]]; [congruence| | |]; cbn [append];
    revert Hs; rewrite !(skip_white_eq c1);
    (destruct ((9 <=? code c1) && (code c1 <=? 13) || (code c1 =? 32))%N;
     [intros Hs; too_long Hs|]).
  - intros _.
    replace ((code c1 =? 194) && (code b0 =? 160))%N with false
      by (symmetry; apply andb_false_iff; right; apply N.eqb_neq; lia).
    destruct b' as [|b1 b'']; [reflexivity|].
    match goal with
    | |- (if ?cond then _ else _) = _ =>
        replace cond with false; [reflexivity|]
    end.
    symmetry. apply not_true_is_false. intros H.
    repeat rewrite ?orb_true_iff, ?andb_true_iff, ?N.eqb_eq, ?N.leb_le in H. lia.
  - destruct ((code c1 =? 194) && (code c2 =? 160))%N; [intros Hs; too_long Hs|].
    intros _.
    match goal with
    | |- (if ?cond then _ else _) = _ =>
        replace cond with false; [reflexivity|]
    end.
    symmetry. apply not_true_is_false. intros H.
    repeat rewrite ?orb_true_iff, ?andb_true_iff, ?N.eqb_eq, ?N.leb_le in H. lia.
  - destruct ((code c1 =? 194) && (code c2 =? 160))%N; [intros Hs; too_long Hs|].
    destruct (_ || _)%bool; [intros Hs; too_long Hs|reflexivity].
Qed.

Lemma skip_white_app_not_blank t b :
  skip_white b = EmptyString -> skip_white t <> EmptyString ->
  skip_white (t ++ b) = (skip_white t ++ b)%string.
Proof.
  intros Hb.
  induction t as [s Hs|c r Hc Hs IH|c1 c2 r H1 H2 Hs IH|c1 c2 c3 r H1 H2 H3 Hs IH]
    using skip_white_ind; cbn [append]; rewrite ?Hs; try assumption.
  intros Hne. apply skip_white_stop_app; congruence.
Qed.

Lemma trim_end_app_blank t b :
  skip_white b = EmptyString -> trim_end (t ++ b) = trim_end t.
Proof.
  intros Hb. induction t as [|c r IH]; [now apply trim_end_blank|].
  cbn [append trim_end]. change (String c (r ++ b)) with (String c r ++ b)%string.
  destruct (skip_white (String c r)) as [|c' y] eqn:E.
  - now rewrite skip_white_app_blank, Hb.
  - rewrite skip_white_app_not_blank by congruence. rewrite E. cbn [append].
    now rewrite IH.
Qed.

(** [trim] takes the white space on both sides away. *)
Lemma trim_app_blank a t b :
  skip_white a = EmptyString -> skip_white b = EmptyString ->
  trim (a ++ t ++ b) = trim t.
Proof.
  intros Ha Hb. unfold trim. rewrite skip_white_app_blank by assumption.
  destruct (skip_white t) as [|c y] eqn:E.
  - rewrite skip_white_app_blank, Hb by assumption. reflexivity.
  - rewrite skip_white_app_not_blank by congruence. rewrite E.
    now apply trim_end_app_blank.
Qed.

Lemma replace_comma_app_l a t :
  has_comma a = false -> replace_comma (a ++ t) = (a ++ replace_comma t)%string.
Proof.
  induction a as [|c a IH]; [reflexivity|]. cbn [has_comma append replace_comma].
  intros H. apply orb_false_elim in H as [Hc Hr]. now rewrite Hc, IH.
Qed.

Lemma replace_comma_app_r t b :
  has_comma b = false -> replace_comma (t ++ b) = (replace_comma t ++ b)%string.
Proof.
  intros Hb. induction t as [|c t IH]; [now apply replace_comma_none|].
  cbn [append replace_comma]. destruct (Ascii.eqb c ","); [reflexivity|].
  cbn [append]. now rewrite IH.
Qed.

End Blank.

(** ** Texts: what the tiles print *)

Section Printed.

Lemma plain_app a b : plain (a ++ b) = plain a && plain b.
Proof.
  induction a as [|c a IH]; [reflexivity|]. cbn [append plain].
  now rewrite IH, andb_assoc.
Qed.

Lemma plain_substring s : forall n m, plain s = true -> plain (substring n m s) = true.
Proof.
  induction s as [|c s IH]; intros n m H; [now destruct n, m|].
  cbn [plain] in H. apply andb_prop in H as [Hc Hs].
  destruct n as [|n]; cbn [substring].
  - destruct m as [|m]; [reflexivity|]. cbn [plain]. now rewrite Hc, IH.
  - now apply IH.
Qed.

Lemma plain_zeros n : plain (zeros n) = true.
Proof. induction n as [|n IH]; [reflexivity|]. cbn [zeros plain]. now rewrite IH. Qed.

Lemma plain_string_of_uint d : plain (DecimalString.NilEmpty.string_of_uint d) = true.
Proof. induction d; cbn [DecimalString.NilEmpty.string_of_uint plain]; now rewrite ?IHd. Qed.

Lemma plain_decimal z : plain (decimal z) = true.
Proof. apply plain_string_of_uint. Qed.

Lemma decimal_not_empty z : decimal z <> EmptyString.
Proof.
  unfold decimal. destruct (Z.to_N z) as [|p]; [discriminate|].
  cbn [N.to_uint]. pose proof (DecimalPos.Unsigned.to_uint_nonnil p) as H.
  destruct (Pos.to_uint p); [congruence | discriminate ..].
Qed.

Lemma plain_exponent_suffix n : plain (exponent_suffix n) = true.
Proof.
  unfold exponent_suffix. rewrite !plain_app, plain_decimal.
  now destruct (n - 1 <? 0)%Z.
Qed.

Lemma app_not_empty_l a b : a <> EmptyString -> (a ++ b)%string <> EmptyString.
Proof. now destruct a. Qed.

Lemma app_not_empty_r a b : b <> EmptyString -> (a ++ b)%string <> EmptyString.
Proof. destruct a; [trivial | discriminate]. Qed.

Lemma format_digits_plain digits k n :
  plain digits = true -> plain (format_digits digits k n) = true.
Proof.
  intros H. unfold format_digits.
  repeat match goal with
         | |- context [if ?b then _ else _] => destruct b
         end;
    rewrite ?plain_app, ?plain_zeros, ?plain_exponent_suffix, ?plain_substring, ?H
      by assumption; reflexivity.
Qed.

Lemma format_digits_not_empty digits k n :
  digits <> EmptyString -> format_digits digits k n <> EmptyString.
Proof.
  intros H. unfold format_digits.
  repeat match goal with
         | |- context [if ?b then _ else _] => destruct b
         end.
  - now apply app_not_empty_l.
  - apply app_not_empty_r. discriminate.
  - discriminate.
  - now apply app_not_empty_l.
  - apply app_not_empty_r. discriminate.
Qed.

(** What [String(x)] and [toFixed] print is never empty and holds
    printable ASCII characters only, no white space among them. *)
Lemma Number_toString_plain x : plain (Number_toString x) = true.
Proof.
  unfold Number_toString.
  destruct (Prim2SF x) as [s|s| |s m e]; try reflexivity; [now destruct s|].
  destruct (scaled _ _ _) as [a b].
  destruct (shortest _ _ _ _ _ _) as [[d n] k].
  rewrite plain_app, format_digits_plain by apply plain_decimal.
  now destruct s.
Qed.

Lemma Number_toString_not_empty x : Number_toString x <> EmptyString.
Proof.
  unfold Number_toString.
  destruct (Prim2SF x) as [s|s| |s m e]; try discriminate; [now destruct s|].
  destruct (scaled _ _ _) as [a b].
  destruct (shortest _ _ _ _ _ _) as [[d n] k].
  apply app_not_empty_r, format_digits_not_empty, decimal_not_empty.
Qed.

Lemma toFixed1_plain x : plain (toFixed1 x) = true.
Proof.
  unfold toFixed1.
  pose proof (Number_toString_plain x) as H.
  destruct (Prim2SF x) as [s|s| |s m e]; try assumption; try reflexivity.
  destruct (_ <=? _)%Z; [assumption|].
  set (n := decimal _).
  assert (Hn : plain (if (String.length n <=? 1)%nat then String "0" n else n) = true).
  { destruct (_ <=? _)%nat; cbn [plain]; subst n; now rewrite plain_decimal. }
  rewrite !plain_app, !plain_substring by assumption.
  now destruct s.
Qed.

Lemma toFixed1_not_empty x : toFixed1 x <> EmptyString.
Proof.
  unfold toFixed1.
  pose proof (Number_toString_not_empty x) as H.
  destruct (Prim2SF x) as [s|s| |s m e]; try assumption; try discriminate.
  destruct (_ <=? _)%Z; [assumption|].
  do 2 apply app_not_empty_r. discriminate.
Qed.

End Printed.

Section PlainText.

Lemma is_plain_code c : is_plain c = true -> (33 <= code c <= 126)%N.
Proof.
  unfold is_plain. intros H. apply andb_prop in H as [H1 H2].
  apply N.leb_le in H1, H2. lia.
Qed.

Ltac not_plain Hc :=
  try symmetry; apply not_true_is_false;
  let H := fresh in
  intros H;
  repeat rewrite ?orb_true_iff, ?andb_true_iff, ?N.eqb_eq, ?N.leb_le in H; lia.

(** A plain character starts no white space. *)
Lemma skip_white_plain c r : is_plain c = true -> skip_white (String c r) = String c r.
Proof.
  intros Hc. apply is_plain_code in Hc. rewrite skip_white_eq.
  replace ((9 <=? code c) && (code c <=? 13) || (code c =? 32))%N with false
    by not_plain Hc.
  destruct r as [|c2 r2]; [reflexivity|].
  replace ((code c =? 194) && (code c2 =? 160))%N with false by not_plain Hc.
  destruct r2 as [|c3 r3]; [reflexivity|].
  match goal with
  | |- (if ?cond then _ else _) = _ => replace cond with false; [reflexivity|]
  end.
  not_plain Hc.
Qed.

Lemma trim_end_plain_app t y :
  plain t = true -> trim_end (t ++ y) = (t ++ trim_end y)%string.
Proof.
  induction t as [|c t IH]; [reflexivity|]. cbn [plain append trim_end].
  intros H. apply andb_prop in H as [Hc Ht].
  now rewrite (skip_white_plain c _ Hc), IH.
Qed.

Lemma replace_nbsp_plain_app t x :
  plain t = true -> replace_nbsp (t ++ x) = (t ++ replace_nbsp x)%string.
Proof.
  induction t as [|c t IH]; [reflexivity|]. cbn [plain append].
  intros H. apply andb_prop in H as [Hc Ht]. specialize (IH Ht).
  apply is_plain_code in Hc. rewrite replace_nbsp_eq.
  destruct (t ++ x)%string as [|c2 r2] eqn:E.
  - now rewrite <- IH.
  - replace ((code c =? 194) && (code c2 =? 160))%N with false by not_plain Hc.
    now rewrite IH.
Qed.

Lemma has_space_plain t : plain t = true -> has_space t = false.
Proof.
  induction t as [|c t IH]; [reflexivity|]. cbn [plain has_space].
  intros H. apply andb_prop in H as [Hc Ht]. apply is_plain_code in Hc.
  rewrite (IH Ht), orb_false_r. apply N.eqb_neq. lia.
Qed.

Lemma has_line_terminator_plain t : plain t = true -> has_line_terminator t = false.
Proof.
  induction t as [|c t IH]; [reflexivity|]. cbn [plain has_line_terminator].
  intros H. apply andb_prop in H as [Hc Ht]. apply is_plain_code in Hc.
  rewrite (IH Ht), orb_false_r. unfold starts_line_terminator.
  replace ((code c =? 10) || (code c =? 13))%N with false by not_plain Hc.
  destruct t as [|c2 [|c3 r]]; try reflexivity.
  cbn [orb]. apply not_true_is_false. intros H.
  repeat rewrite ?orb_true_iff, ?andb_true_iff, ?N.eqb_eq, ?N.leb_le in H. lia.
Qed.

Lemma trim_plain t : plain t = true -> trim t = t.
Proof.
  intros H. unfold trim. destruct t as [|c t]; [reflexivity|].
  pose proof H as Hc. cbn [plain] in Hc. apply andb_prop in Hc as [Hc _].
  rewrite (skip_white_plain c _ Hc).
  rewrite <- (string_app_nil_r (String c t)) at 1.
  rewrite trim_end_plain_app by assumption.
  apply string_app_nil_r.
Qed.

Lemma split_space_plain_app t u :
  plain t = true -> split_space (t ++ String " " u) = t :: split_space u.
Proof.
  induction t as [|c t IH]; [reflexivity|]. cbn [plain append split_space].
  intros H. apply andb_prop in H as [Hc Ht]. apply is_plain_code in Hc.
  replace (code c =? 32)%N with false by (symmetry; apply N.eqb_neq; lia).
  now rewrite IH.
Qed.

End PlainText.

(** ** Magnitudes: numbers at least 1, and the largest number *)

Section Magnitudes.

Local Open Scope Z_scope.

(** The digits of a positive mantissa. *)
Lemma Zdigits2_bounds m :
  0 < m -> 1 <= Zdigits2 m /\ 2 ^ (Zdigits2 m - 1) <= m < 2 ^ Zdigits2 m.
Proof.
  intros Hm. destruct m as [|p|p]; try lia. cbn [Zdigits2].
  split; [lia | apply digits2_pos_bounds].
Qed.

Lemma Zdigits2_ge m j : 0 <= j -> 2 ^ j <= m -> j + 1 <= Zdigits2 m.
Proof.
  intros Hj Hle.
  assert (Hm : 0 < m) by (pose proof (pow2_pos j Hj); lia).
  destruct (Zdigits2_bounds m Hm) as (Hd & _ & Hhi).
  destruct (Z_lt_ge_dec j (Zdigits2 m)) as [|Hge]; [lia|].
  assert (2 ^ Zdigits2 m <= 2 ^ j) by (apply Z.pow_le_mono_r; lia).
  lia.
Qed.

Lemma div_pow2_ge m a b : 0 <= b <= a -> 2 ^ a <= m -> 2 ^ (a - b) <= m / 2 ^ b.
Proof.
  intros Hb Hle. apply Z.div_le_lower_bound; [apply pow2_pos; lia|].
  rewrite <- Z.pow_add_r by lia. now replace (b + (a - b)) with a by lia.
Qed.

Lemma Prim2SF_one : Prim2SF 1 = S754_finite false 4503599627370496 (-52).
Proof. reflexivity. Qed.

(** What is rounded does not fall below 1 when it is at least 1. *)
Lemma binary_round_aux_ge_one m e l :
  0 < m -> (e <= 0 -> 2 ^ (- e) <= m) ->
  SFleb (Prim2SF 1) (binary_round_aux prec emax false m e l) = true.
Proof.
  intros Hm Hone.
  destruct (Zdigits2_bounds m Hm) as (Hd & Hlo & Hhi).
  assert (Hde : 1 <= Zdigits2 m + e).
  { destruct (Z_le_gt_dec e 0) as [He|He]; [|lia].
    pose proof (Zdigits2_ge m (- e) ltac:(lia) (Hone He)). lia. }
  unfold binary_round_aux.
  pose proof (shr_fexp_value m e l ltac:(lia)) as [He1 Hm1].
  destruct (shr_fexp prec emax m e l) as [r1 e1]. cbn [fst snd] in He1, Hm1.
  rewrite <- He1 in Hm1.
  assert (Hf1 : fexp prec emax (Zdigits2 m + e) = Zdigits2 m + e - 53)
    by (unfold fexp, SpecFloat.emin, prec, emax; lia).
  rewrite Hf1 in He1.
  set (m2 := round_nearest_even (shr_m r1) (loc_of_shr_record r1)).
  pose proof (round_nearest_even_bounds (shr_m r1) (loc_of_shr_record r1)) as Hr.
  fold m2 in Hr.
  assert (Hm1' : 2 ^ (Zdigits2 m - 1 - (e1 - e)) <= shr_m r1).
  { rewrite Hm1. apply div_pow2_ge; [lia | assumption]. }
  assert (Hd2 : Zdigits2 m - (e1 - e) <= Zdigits2 m2).
  { pose proof (Zdigits2_ge m2 (Zdigits2 m - 1 - (e1 - e)) ltac:(lia) ltac:(lia)). lia. }
  assert (Hm2 : 0 < m2).
  { pose proof (pow2_pos (Zdigits2 m - 1 - (e1 - e)) ltac:(lia)). lia. }
  destruct (Zdigits2_bounds m2 Hm2) as (_ & Hlo2 & _).
  pose proof (shr_fexp_value m2 e1 loc_Exact ltac:(lia)) as [He2 Hv2].
  destruct (shr_fexp prec emax m2 e1 loc_Exact) as [r2 e2]. cbn [fst snd] in He2, Hv2.
  rewrite <- He2 in Hv2.
  assert (Hf2 : fexp prec emax (Zdigits2 m2 + e1) = Zdigits2 m2 + e1 - 53)
    by (unfold fexp, SpecFloat.emin, prec, emax; lia).
  rewrite Hf2 in He2.
  assert (Hv2' : 2 ^ (Zdigits2 m2 - 1 - (e2 - e1)) <= shr_m r2).
  { rewrite Hv2. apply div_pow2_ge; [lia | assumption]. }
  pose proof (pow2_pos (Zdigits2 m2 - 1 - (e2 - e1)) ltac:(lia)) as Hpos.
  destruct (shr_m r2) as [|p|p] eqn:Hp; try lia.
  destruct (e2 <=? emax - prec); [|reflexivity].
  rewrite Prim2SF_one.
  unfold SFleb. cbn [SFcompare].
  destruct (Z.compare_spec (-52) e2) as [Heq|Hlt|Hgt]; try reflexivity; [|lia].
  assert (Hexp : Zdigits2 m2 - 1 - (e2 - e1) = 52) by lia.
  rewrite Hexp in Hv2'.
  assert (E52 : 2 ^ 52 = 4503599627370496) by reflexivity.
  rewrite E52 in Hv2'.
  destruct (Pos.compare_cont Eq 4503599627370496 p) eqn:Hc; try reflexivity.
  apply Pos.compare_gt_iff, Pos2Z.pos_lt_pos in Hc. clear - Hc Hv2'. lia.
Qed.

(** Shifting out zeros loses nothing. *)
Lemma shr_1_exact a :
  0 <= a ->
  shr_1 {| shr_m := 2 * a; shr_r := false; shr_s := false |}
  = {| shr_m := a; shr_r := false; shr_s := false |}.
Proof. intros Ha. destruct a as [|p|p]; try lia; reflexivity. Qed.

Lemma iter_pos_shr_1_exact k : forall a,
  0 <= a ->
  iter_pos shr_1 k {| shr_m := a * 2 ^ Zpos k; shr_r := false; shr_s := false |}
  = {| shr_m := a; shr_r := false; shr_s := false |}.
Proof.
  induction k as [k IH|k IH|]; intros a Ha; cbn [iter_pos].
  - rewrite pow2_xI.
    replace (a * (2 * (2 ^ Zpos k * 2 ^ Zpos k)))
      with (2 * (a * 2 ^ Zpos k * 2 ^ Zpos k)) by ring.
    pose proof (pow2_pos (Zpos k) ltac:(lia)).
    rewrite shr_1_exact by nia. rewrite IH by nia. now apply IH.
  - rewrite pow2_xO, Z.mul_assoc.
    pose proof (pow2_pos (Zpos k) ltac:(lia)).
    rewrite IH by nia. now apply IH.
  - change (2 ^ 1) with 2. rewrite Z.mul_comm. now apply shr_1_exact.
Qed.

(** The largest number is not rounded. *)
Lemma Zdigits2_largest k : 0 <= k -> Zdigits2 ((2 ^ 53 - 1) * 2 ^ k) = 53 + k.
Proof.
  intros Hk. pose proof (pow2_pos k Hk) as Hp.
  apply Z.le_antisymm.
  - apply Zdigits2_le; [|lia]. rewrite Z.pow_add_r by lia. nia.
  - replace (53 + k) with ((52 + k) + 1) by lia.
    apply Zdigits2_ge; [lia|]. rewrite Z.pow_add_r by lia.
    change (2 ^ 53) with (2 * 2 ^ 52). pose proof (pow2_pos 52 ltac:(lia)). nia.
Qed.

Lemma binary_round_aux_largest s e :
  e <= 971 ->
  binary_round_aux prec emax s ((2 ^ 53 - 1) * 2 ^ (971 - e)) e loc_Exact
  = S754_finite s 9007199254740991 971.
Proof.
  intros He. unfold binary_round_aux, shr_fexp.
  rewrite Zdigits2_largest by lia.
  replace (fexp prec emax (53 + (971 - e) + e)) with 971
    by (unfold fexp, SpecFloat.emin, prec, emax; lia).
  cbn [shr_record_of_loc].
  destruct (971 - e) as [|k|k] eqn:Hk; try lia.
  - assert (e = 971) by lia. subst e. now destruct s.
  - cbn [shr]. rewrite iter_pos_shr_1_exact by lia.
    replace (e + Zpos k) with 971 by lia. now destruct s.
Qed.

Lemma binary_round_aux_finite_le s m e l :
  0 <= m -> e <= 971 -> m <= (2 ^ 53 - 1) * 2 ^ (971 - e) ->
  (m = (2 ^ 53 - 1) * 2 ^ (971 - e) -> l = loc_Exact) ->
  SF_finite (binary_round_aux prec emax s m e l) = true.
Proof.
  intros Hm He Hle Hl.
  destruct (Z_lt_le_dec m ((2 ^ 53 - 1) * 2 ^ (971 - e))) as [Hlt|Hge].
  - now apply binary_round_aux_finite.
  - assert (Heq : m = (2 ^ 53 - 1) * 2 ^ (971 - e)) by lia.
    rewrite (Hl Heq), Heq, binary_round_aux_largest by assumption. reflexivity.
Qed.

(** A number at least 1: its exponent and mantissa. *)
Lemma one_le_facts s m e :
  bounded prec emax m e = true ->
  SFleb (Prim2SF 1) (S754_finite s m e) = true ->
  s = false /\ -52 <= e <= 971 /\ 2 ^ 52 <= Zpos m < 2 ^ 53.
Proof.
  intros V. rewrite Prim2SF_one. unfold SFleb. cbn [SFcompare].
  apply bounded_facts in V as (Hm & He & Hn).
  destruct s; [discriminate|].
  destruct (Z.compare_spec (-52) e) as [Heq|Hlt|Hgt]; try discriminate.
  - intros _. repeat split; lia.
  - intros _. repeat split; lia.
Qed.

(** A finite number divided by a number at least 1 is finite. *)
Lemma SFdiv_finite x y :
  valid_binary x = true -> valid_binary y = true ->
  SF_finite x = true -> SFleb (Prim2SF 1) y = true ->
  SF_finite (SF64div x y) = true.
Proof.
  intros Vx Vy Hx Hy. unfold SF64div.
  destruct x as [sx|sx| |sx mx ex]; try discriminate;
    destruct y as [sy|sy| |sy my ey]; try discriminate; try reflexivity.
  cbn [valid_binary] in Vx, Vy. cbn [SFdiv].
  destruct (one_le_facts sy my ey Vy Hy) as (-> & Hey & Hmy).
  apply bounded_facts in Vx as (Hmx & Hex & _).
  unfold SFdiv_core_binary.
  set (e' := Z.min _ (ex - ey)).
  set (sh := ex - ey - e').
  set (m' := match sh with Zpos _ => Z.shiftl (Zpos mx) sh | Z0 => Zpos mx | Zneg _ => 0 end).
  assert (Hd1 : Zdigits2 (Zpos mx) <= 53) by (apply Zdigits2_le; lia).
  assert (Hd2 : Zdigits2 (Zpos my) = 53).
  { apply Z.le_antisymm; [apply Zdigits2_le; lia|].
    apply (Zdigits2_ge (Zpos my) 52); lia. }
  assert (He' : e' <= 970).
  { subst e'. rewrite Hd2. unfold fexp, SpecFloat.emin, prec, emax. lia. }
  assert (Hsh : 0 <= sh) by (subst sh e'; lia).
  assert (Hm' : m' = Zpos mx * 2 ^ sh).
  { subst m'. destruct sh as [|p|p] eqn:Hp; try lia.
    now rewrite Z.shiftl_mul_pow2 by lia. }
  assert (Hpow : 2 ^ sh <= 2 ^ (971 - e') * Zpos my).
  { pose proof (pow2_pos (971 - e') ltac:(lia)) as Ht.
    destruct (Z_le_gt_dec 0 ey) as [Hp|Hn].
    - assert (2 ^ sh <= 2 ^ (971 - e')) by (apply Z.pow_le_mono_r; subst sh; lia).
      nia.
    - assert (H1 : 2 ^ sh <= 2 ^ (971 - e' + 52))
        by (apply Z.pow_le_mono_r; subst sh; lia).
      rewrite Z.pow_add_r in H1 by lia. nia. }
  pose proof (Z_div_mod m' (Zpos my) ltac:(lia)) as Hd.
  destruct (Z.div_eucl m' (Zpos my)) as [q r]. destruct Hd as [Hq Hr].
  pose proof (pow2_pos sh Hsh) as Hs.
  pose proof (pow2_pos (971 - e') ltac:(lia)) as Ht.
  assert (Hbound : Zpos my * q + r <= (2 ^ 53 - 1) * 2 ^ (971 - e') * Zpos my).
  { rewrite <- Hq, Hm'.
    assert (Zpos mx * 2 ^ sh <= (2 ^ 53 - 1) * 2 ^ sh) by nia.
    assert ((2 ^ 53 - 1) * 2 ^ sh <= (2 ^ 53 - 1) * (2 ^ (971 - e') * Zpos my)) by nia.
    lia. }
  apply binary_round_aux_finite_le.
  - nia.
  - lia.
  - nia.
  - intros Heq. rewrite Heq in Hbound.
    assert (r = 0) by nia. subst r.
    unfold new_location, new_location_even, new_location_odd.
    now destruct (Z.even (Zpos my)).
Qed.

(** Whole numbers: what [Math.floor] returns, and what the clamps keep. *)
Lemma whole_divides m e :
  SF_whole (S754_finite false m e) = true -> e < 0 ->
  exists c, 0 < c /\ Zpos m = c * 2 ^ (- e).
Proof.
  cbn [SF_whole]. intros H He. apply orb_prop in H as [H|H].
  - apply Z.leb_le in H. lia.
  - apply Z.eqb_eq in H.
    pose proof (pow2_pos (- e) ltac:(lia)) as Hp.
    apply Z.mod_divide in H; [|lia]. destruct H as [c Hc].
    exists c. split; [nia | assumption].
Qed.

Lemma whole_of_uint63 p :
  Zpos p < 2 ^ 53 -> SF_whole (Prim2SF (of_uint63 (Uint63.of_Z (Zpos p)))) = true.
Proof.
  intros Hp. destruct (of_uint63_small p Hp) as (m & e & -> & He & Hm).
  cbn [SF_whole]. rewrite Hm, Z.mod_mul by (pose proof (pow2_pos (- e)); lia).
  apply orb_true_r.
Qed.

Lemma whole_of_int z : Z.abs z < 2 ^ 53 -> SF_whole (Prim2SF (of_int z)) = true.
Proof.
  intros Hz. destruct z as [|p|p]; cbn [of_int].
  - reflexivity.
  - apply whole_of_uint63. lia.
  - rewrite opp_spec. pose proof (whole_of_uint63 p ltac:(lia)) as H.
    now destruct (Prim2SF (of_uint63 (Uint63.of_Z (Zpos p)))).
Qed.

Lemma whole_Math_floor x :
  isFinite x = true -> SF_whole (Prim2SF (Math_floor x)) = true.
Proof.
  rewrite isFinite_SF. intros Hx. unfold Math_floor.
  pose proof (Prim2SF_valid x) as V.
  destruct (Prim2SF x) as [s|s| |s m e] eqn:Hsf; try discriminate.
  - now rewrite Hsf.
  - destruct (0 <=? e) eqn:He; [rewrite Hsf; cbn [SF_whole]; now rewrite He|].
    apply Z.leb_gt in He. cbn [valid_binary] in V.
    apply bounded_facts in V as (Hm & _).
    apply whole_of_int.
    pose proof (shiftr_abs_le (cond_Zopp s (Zpos m)) (- e) ltac:(lia)) as Hle.
    assert (Z.abs (cond_Zopp s (Zpos m)) = Zpos m) by (destruct s; cbn [cond_Zopp]; lia).
    lia.
Qed.

Lemma whole_not_nan x : SF_whole (Prim2SF x) = true -> is_nan x = false.
Proof. rewrite is_nan_SF. now destruct (Prim2SF x). Qed.

Lemma whole_Math_max a b :
  SF_whole (Prim2SF a) = true -> SF_whole (Prim2SF b) = true ->
  SF_whole (Prim2SF (Math_max a b)) = true.
Proof.
  intros Ha Hb.
  destruct (Math_max_cases a b (whole_not_nan a Ha) (whole_not_nan b Hb)) as [H|H];
    now rewrite H.
Qed.

(** A whole number above 0 is at least 1. *)
Lemma whole_positive_ge_one m e :
  bounded prec emax m e = true -> SF_whole (S754_finite false m e) = true ->
  SFleb (Prim2SF 1) (S754_finite false m e) = true.
Proof.
  intros V H. rewrite Prim2SF_one. unfold SFleb. cbn [SFcompare].
  apply bounded_facts in V as (Hm & He & Hn).
  assert (He52 : -52 <= e /\ (e = -52 -> 2 ^ 52 <= Zpos m)).
  { destruct (Z_lt_ge_dec e 0) as [Hneg|]; [|lia].
    destruct (whole_divides m e H Hneg) as (c & Hc & Hmc).
    pose proof (pow2_pos (- e) ltac:(lia)) as Hp.
    assert (Hle : 2 ^ (- e) <= Zpos m) by nia.
    split.
    - destruct (Z_le_gt_dec (-52) e) as [|Hgt]; [assumption|].
      assert (2 ^ 53 <= 2 ^ (- e)) by (apply Z.pow_le_mono_r; lia). lia.
    - intros ->. exact Hle. }
  destruct He52 as [Hlo Heq].
  destruct (Z.compare_spec (-52) e) as [E|E|E]; try reflexivity; [|lia].
  specialize (Heq (eq_sym E)).
  assert (E52 : 2 ^ 52 = 4503599627370496) by reflexivity.
  rewrite E52 in Heq.
  destruct (Pos.compare_cont Eq 4503599627370496 m) eqn:Hc; try reflexivity.
  apply Pos.compare_gt_iff, Pos2Z.pos_lt_pos in Hc. clear - Hc Heq. lia.
Qed.

(** The difference of two whole numbers that are not negative is at
    least 1 when it is above 0. *)
Lemma aligned_whole m e e' :
  bounded prec emax m e = true -> SF_whole (S754_finite false m e) = true ->
  Z.min e e' <= 0 ->
  exists c, Zpos m * 2 ^ (e - Z.min e e') = c * 2 ^ (- Z.min e e').
Proof.
  intros V H Hz.
  destruct (Z_lt_ge_dec e 0) as [Hneg|Hpos].
  - destruct (whole_divides m e H Hneg) as (c & _ & ->).
    exists c. rewrite <- Z.mul_assoc, <- Z.pow_add_r by lia.
    f_equal. f_equal. lia.
  - exists (Zpos m * 2 ^ e). rewrite <- Z.mul_assoc, <- Z.pow_add_r by lia.
    reflexivity.
Qed.

Lemma SFsub_whole x y :
  valid_binary x = true -> valid_binary y = true ->
  SF_nonneg_finite x = true -> SF_nonneg_finite y = true ->
  SF_whole x = true -> SF_whole y = true ->
  SF_nonpos (SF64sub x y) = true \/ SFleb (Prim2SF 1) (SF64sub x y) = true.
Proof.
  intros Vx Vy Hx Hy Wx Wy. unfold SF64sub.
  destruct x as [sx|sx| |sx mx ex]; try discriminate;
    destruct y as [sy|sy| |sy my ey]; try discriminate.
  - left. now destruct sx, sy.
  - left. destruct sy; [discriminate|]. reflexivity.
  - right. destruct sx; [discriminate|]. cbn [SFsub].
    now apply whole_positive_ge_one.
  - destruct sx, sy; try discriminate. cbn [SFsub cond_Zopp].
    cbn [valid_binary] in Vx, Vy.
    rewrite aligned_value, aligned_value_r.
    set (ez := Z.min ex ey).
    remember (Zpos mx * 2 ^ (ex - ez) - Zpos my * 2 ^ (ey - ez)) as d eqn:Hd.
    destruct d as [|p|p].
    + now left.
    + right. cbn [binary_normalize]. unfold binary_round.
      pose proof (shl_align_value p ez (fexp prec emax (Zpos (digits2_pos p) + ez)))
        as [Hez Hmz].
      destruct (shl_align p ez (fexp prec emax (Zpos (digits2_pos p) + ez))) as [mz ez'].
      cbn [fst snd] in Hez, Hmz.
      apply binary_round_aux_ge_one; [lia|]. intros Hz'.
      rewrite Hmz, <- Hez.
      pose proof (pow2_pos (ez - ez') ltac:(lia)) as Hp1.
      destruct (Z_le_gt_dec ez 0) as [Hz|Hz].
      * destruct (aligned_whole mx ex ey Vx Wx Hz) as [c1 H1].
        destruct (aligned_whole my ey ex Vy Wy ltac:(rewrite Z.min_comm; exact Hz))
          as [c2 H2].
        rewrite (Z.min_comm ey ex) in H2. fold ez in H1, H2.
        pose proof (pow2_pos (- ez) ltac:(lia)) as Hp2.
        assert (Hpc : Zpos p = (c1 - c2) * 2 ^ (- ez)) by (rewrite Hd, H1, H2; ring).
        assert (Hc : 0 < c1 - c2).
        { destruct (Z_lt_le_dec 0 (c1 - c2)) as [|Hle]; [assumption|].
          pose proof (Z.mul_nonpos_nonneg (c1 - c2) (2 ^ (- ez)) Hle ltac:(lia)).
          lia. }
        assert (1 * 2 ^ (- ez) <= (c1 - c2) * 2 ^ (- ez))
          by (apply Z.mul_le_mono_nonneg_r; lia).
        assert (2 ^ (- ez) <= Zpos p) by lia.
        replace (- ez') with ((- ez) + (ez - ez')) by lia.
        rewrite Z.pow_add_r by lia. nia.
      * assert (2 ^ (- ez') <= 2 ^ (ez - ez')) by (apply Z.pow_le_mono_r; lia).
        nia.
    + left. apply binary_normalize_negative. lia.
Qed.

End Magnitudes.

(** ** What overflows, and what stays finite *)

Section Overflow.

(** Quotients by a number at least 1 *)
Lemma div_finite a b :
  isFinite a = true -> (1 <=? b) = true -> isFinite (a / b) = true.
Proof.
  rewrite !isFinite_SF, leb_spec, div_spec. intros Ha Hb.
  apply SFdiv_finite; auto using Prim2SF_valid.
Qed.

(** What is not finite stays so: a quotient, a difference and a sum are
    finite only if their first operand is. *)
Lemma div_finite_inv a b : isFinite (a / b) = true -> isFinite a = true.
Proof.
  rewrite !isFinite_SF, div_spec. unfold SF64div.
  destruct (Prim2SF a) as [s|s| |s m e], (Prim2SF b) as [s'|s'| |s' m' e'];
    cbn [SFdiv SF_finite]; auto.
Qed.

Lemma sub_finite_inv a b : isFinite (a - b) = true -> isFinite a = true.
Proof.
  rewrite !isFinite_SF, sub_spec. unfold SF64sub.
  destruct (Prim2SF a) as [s|s| |s m e], (Prim2SF b) as [s'|s'| |s' m' e'];
    cbn [SFsub SF_finite]; auto; destruct s, s'; cbn; auto.
Qed.

Lemma add_finite_inv a b : isFinite (a + b) = true -> isFinite a = true.
Proof.
  rewrite !isFinite_SF, add_spec. unfold SF64add.
  destruct (Prim2SF a) as [s|s| |s m e], (Prim2SF b) as [s'|s'| |s' m' e'];
    cbn [SFadd SF_finite]; auto; destruct s, s'; cbn; auto.
Qed.

Lemma Math_round_finite_inv x : isFinite (Math_round x) = true -> isFinite x = true.
Proof.
  unfold Math_round. rewrite (isFinite_SF x).
  destruct (Prim2SF x) as [s|s| |s m e] eqn:Hsf; try reflexivity;
    rewrite isFinite_SF, Hsf; auto.
Qed.

(** The running totals that are finite come first. *)
Lemma running_total_finite_before c step i j :
  (j <= i)%nat -> isFinite (running_total c step i) = true ->
  isFinite (running_total c step j) = true.
Proof.
  intros Hj. induction Hj as [|i Hj IH]; [auto|].
  cbn [running_total]. intros H. apply IH. exact (add_finite_inv _ _ H).
Qed.

(** The larger of a number and 0 *)
Lemma Math_max_positive r : (0 <? Math_max r 0) = true -> Math_max r 0 = r.
Proof.
  unfold Math_max.
  destruct (is_nan r || is_nan 0); [discriminate|].
  destruct (r <? 0); [discriminate|].
  destruct (0 <? r); [reflexivity|].
  destruct (get_sign r); [discriminate|reflexivity].
Qed.

Lemma Math_max_zero_r_nonneg x :
  isFinite (Math_max x 0) = true -> SF_nonneg_finite (Prim2SF (Math_max x 0)) = true.
Proof.
  intros Hf. pose proof (Math_max_zero_not_negative x) as Hn.
  rewrite isFinite_SF in Hf. rewrite ltb_spec in Hn. unfold SFltb in Hn.
  change (Prim2SF 0) with (S754_zero false) in Hn.
  destruct (Prim2SF (Math_max x 0)) as [s|s| |s m e]; try discriminate;
    try reflexivity.
  now destruct s.
Qed.

(** A saving less a maintenance that is not negative: what is kept of it
    is finite. *)
Lemma Math_max_sub_finite x y :
  isFinite x = true -> SF_nonneg_finite (Prim2SF y) = true ->
  isFinite (Math_max (x - y) 0) = true.
Proof.
  intros Hx Hy.
  destruct (SF_nonneg_finite (Prim2SF x)) eqn:Hs.
  - apply Math_max_finite; [now apply sub_finite | reflexivity].
  - rewrite Math_max_nonpos; [reflexivity|].
    rewrite sub_spec. rewrite isFinite_SF in Hx.
    pose proof (Prim2SF_valid x) as Vx. pose proof (Prim2SF_valid y) as Vy.
    unfold SF64sub.
    destruct (Prim2SF x) as [s|s| |s m e]; try discriminate.
    destruct s; [|discriminate].
    destruct (Prim2SF y) as [s'|s'| |s' m' e']; try discriminate; try reflexivity.
    destruct s'; [discriminate|]. cbn [SFsub cond_Zopp].
    apply binary_normalize_negative. lia.
Qed.

(** Whole numbers *)
Lemma sub_whole a b :
  SF_nonneg_finite (Prim2SF a) = true -> SF_nonneg_finite (Prim2SF b) = true ->
  SF_whole (Prim2SF a) = true -> SF_whole (Prim2SF b) = true ->
  SF_nonpos (Prim2SF (a - b)) = true \/ (1 <=? a - b) = true.
Proof.
  intros Ha Hb Wa Wb. rewrite leb_spec, sub_spec.
  apply SFsub_whole; auto using Prim2SF_valid.
Qed.

Lemma systemCost_value_whole form :
  SF_whole (Prim2SF (systemCost_value form)) = true.
Proof.
  unfold systemCost_value.
  destruct (parseNum (systemCost form)) as [n|] eqn:H; cbn [clampInt nullish];
    [|reflexivity].
  apply whole_Math_max; [reflexivity|].
  apply whole_Math_floor. exact (parseNum_finite _ _ H).
Qed.

Lemma grant_value_whole form :
  SF_whole (Prim2SF (grant_value form)) = true.
Proof.
  unfold grant_value.
  destruct (parseNum (grant form)) as [n|] eqn:H; cbn [clampInt nullish];
    [|reflexivity].
  apply whole_Math_max; [reflexivity|].
  apply whole_Math_floor. exact (parseNum_finite _ _ H).
Qed.

(** A cost above 0 is at least 1. *)
Lemma upfront_ge_one form :
  (0 <? Math_max (systemCost_value form - grant_value form) 0) = true ->
  (1 <=? Math_max (systemCost_value form - grant_value form) 0) = true.
Proof.
  intros Hpos. pose proof (Math_max_positive _ Hpos) as E.
  rewrite E in Hpos |- *.
  destruct (sub_whole (systemCost_value form) (grant_value form))
    as [Hn|Hone];
    auto using systemCost_value_nonneg, grant_value_nonneg,
      systemCost_value_whole, grant_value_whole.
  exfalso. rewrite ltb_spec in Hpos. unfold SFltb in Hpos.
  change (Prim2SF 0) with (S754_zero false) in Hpos.
  destruct (Prim2SF (systemCost_value form - grant_value form)) as [s|s| |s m e];
    try discriminate; destruct s; discriminate.
Qed.

(** The return over ten years is finite when the saving of ten years
    is. *)
Lemma tenYearRoi_finite n u :
  isFinite (n * 10) = true -> SF_nonneg_finite (Prim2SF n) = true ->
  SF_nonneg_finite (Prim2SF u) = true -> (1 <=? u) = true ->
  isFinite ((n * 10 - u) / u) = true.
Proof.
  intros Hten Hn Hu Hone. apply div_finite; [|assumption].
  apply sub_finite; [|assumption].
  apply mul_nonneg; [now apply nonneg_finite | reflexivity | assumption].
Qed.

End Overflow.

(** ** The two branches of [derived], written out *)

Section Parsed.

Variable form : RoiInputs.
Variables h p k : number.
Hypothesis householdSize_parsed : parseNum (householdSize form) = Some h.
Hypothesis electricityPrice_parsed : parseNum (electricityPrice form) = Some p.
Hypothesis kwhPerPerson_parsed : parseNum (kwhPerPerson form) = Some k.

(** The main branch of [derived], written out on what the three required
    fields read as. *)
Lemma derived_parsed :
  let people := Math_max 1 (Math_floor h) in
  let price := Math_max 0.1 p in
  let kwh := Math_max 500 (Math_floor k) in
  let net :=
    Math_max (people * kwh * price * savingsRatio form - maintenance form) 0 in
  let cost := Math_max (systemCost_value form - grant_value form) 0 in
  derived form =
    {| annualHotWaterKwh := people * kwh;
       annualHotWaterCost := people * kwh * price;
       annualSavings := people * kwh * price * savingsRatio form;
       netAnnualSavings := net;
       upfront := cost;
       paybackYears := if 0 <? net then cost / net else Infinity;
       data := cash_flow net (- cost) (seq 0 (horizonYears form + 1));
       tenYearRoi := if 0 <? cost then (net * 10 - cost) / cost else 0 |}.
Proof.
  unfold derived, systemCost_value, grant_value.
  rewrite householdSize_parsed, electricityPrice_parsed, kwhPerPerson_parsed.
  reflexivity.
Qed.

End Parsed.

Section Incomplete.

Variable form : RoiInputs.
Hypothesis form_incomplete : complete form = false.

Lemma derived_incomplete :
  derived form =
    {| annualHotWaterKwh := 0;
       annualHotWaterCost := 0;
       annualSavings := 0;
       netAnnualSavings := 0;
       upfront := Math_max (systemCost_value form - grant_value form) 0;
       paybackYears := Infinity;
       data := map (fun year => {| year := year; value := 0 |})
                   (seq 0 (horizonYears form + 1));
       tenYearRoi := 0 |}.
Proof.
  revert form_incomplete.
  unfold complete, derived, systemCost_value, grant_value. rewrite or_zero_id.
  required_fields form; try reflexivity; discriminate.
Qed.

Lemma derived_incomplete_value_at i :
  (i <= horizonYears form)%nat -> value_at (derived form) i = 0.
Proof.
  intros Hi. unfold value_at. rewrite derived_incomplete. cbn [data].
  rewrite map_map. cbn [value]. now rewrite nth_map_seq by lia.
Qed.

End Incomplete.

Section Finite.

Variable form : RoiInputs.

(** The points of the series that are finite come first. *)
Lemma derived_value_at_before i j :
  (i <= j <= horizonYears form)%nat ->
  isFinite (value_at (derived form) j) = true ->
  isFinite (value_at (derived form) i) = true.
Proof.
  intros Hij. destruct (complete form) eqn:Hc.
  - rewrite !derived_value_at by (assumption || lia). intros H.
    apply Math_round_finite.
    apply (running_total_finite_before _ _ j); [lia|].
    now apply Math_round_finite_inv.
  - intros _. now rewrite derived_incomplete_value_at by (assumption || lia).
Qed.

(** [tenYearRoi] is finite when ten times the net saving is. *)
Lemma derived_tenYearRoi_finite :
  isFinite (netAnnualSavings (derived form) * 10) = true ->
  isFinite (tenYearRoi (derived form)) = true.
Proof.
  destruct (complete form) eqn:Hc.
  - rewrite (derived_tenYearRoi form Hc), derived_upfront.
    intros Hten.
    destruct (0 <? Math_max (systemCost_value form - grant_value form) 0) eqn:Hpos;
      [|reflexivity].
    apply tenYearRoi_finite; try assumption.
    + destruct (derived_complete form Hc) as (a & b & c & Ha & Hb & Hc').
      revert Hten. unfold derived. rewrite Ha, Hb, Hc'. cbn [netAnnualSavings].
      intros Hten. apply Math_max_zero_r_nonneg.
      now apply (mul_finite_factors _ 10).
    + rewrite <- derived_upfront. apply derived_upfront_nonneg.
    + now apply upfront_ge_one.
  - intros _. now rewrite (derived_incomplete form Hc).
Qed.

(** Nothing but the overflow of the product makes the yearly figures
    infinite or NaN, whatever the sign of the savings ratio. *)
Lemma derived_finite_products :
  complete form = true ->
  isFinite (maintenance form) = true -> (0 <=? maintenance form) = true ->
  isFinite (annualSavings (derived form)) = true ->
  isFinite (annualHotWaterKwh (derived form)) = true /\
  isFinite (annualHotWaterCost (derived form)) = true /\
  isFinite (netAnnualSavings (derived form)) = true.
Proof.
  intros Hc Hm Hm0.
  destruct (derived_complete form Hc) as (a & b & c & Ha & Hb & Hc').
  unfold derived. rewrite Ha, Hb, Hc'.
  cbn [annualHotWaterKwh annualHotWaterCost annualSavings netAnnualSavings].
  intros Hs.
  destruct (mul_finite_factors _ _ Hs) as [Hcost _].
  destruct (mul_finite_factors _ _ Hcost) as [Hkwh _].
  split_and; try assumption.
  apply Math_max_sub_finite; [assumption|].
  apply finite_nonneg; [assumption | now apply zero_le_nonneg].
Qed.

(** A point of the series is finite exactly when the running total it
    rounds is. *)
Lemma derived_value_at_finite i :
  complete form = true -> (i <= horizonYears form)%nat ->
  isFinite (value_at (derived form) i) = true <->
  isFinite (running_total (- upfront (derived form))
                          (netAnnualSavings (derived form)) i) = true.
Proof.
  intros Hc Hi. rewrite derived_value_at by assumption.
  split; [apply Math_round_finite_inv | apply Math_round_finite].
Qed.

End Finite.

(** ** What a blur stores *)

Section Stored.

Variable v : raw.
Variable min x : number.
Hypothesis min_number : is_nan min = false.

(** What a blur stores as a number is at least the minimum, and whole
    when the field is. *)
Lemma committed_clampInt :
  isInteger min = true ->
  committed (clampInt (parseNum v) min) = RNumber x ->
  isInteger x = true /\ (min <=? x) = true.
Proof.
  intros Hmin.
  destruct (parseNum v) as [n|] eqn:Hv; cbn [clampInt committed]; [|discriminate].
  intros [= <-]. pose proof (parseNum_finite v n Hv) as Hn. split.
  - apply isInteger_Math_max; [assumption | now apply isInteger_Math_floor].
  - apply Math_max_ge_l; [assumption|].
    now apply isFinite_not_nan, Math_floor_finite.
Qed.

Lemma committed_clampMin :
  isFinite min = true ->
  committed (clampMin (parseNum v) min) = RNumber x ->
  isFinite x = true /\ (min <=? x) = true.
Proof.
  intros Hmin.
  destruct (parseNum v) as [n|] eqn:Hv; cbn [clampMin committed]; [|discriminate].
  intros [= <-]. pose proof (parseNum_finite v n Hv) as Hn. split.
  - now apply Math_max_finite.
  - apply Math_max_ge_l; [assumption | now apply isFinite_not_nan].
Qed.

End Stored.

Lemma parseNum_None (v : raw) :
  parseNum v = None <->
  v = RString EmptyString \/ v = RUndefined \/ v = RNull \/ isFinite (parsed v) = false.
Proof.
  unfold parseNum, parsed. destruct v as [s|x| |].
  - destruct s as [|c s]; [tauto|].
    destruct (isFinite (Number (replace_comma (String c s)))); split;
      try discriminate; try tauto.
    intros [H|[H|[H|H]]]; discriminate.
  - destruct (isFinite (Number_of_String x)); split;
      try discriminate; try tauto.
    intros [H|[H|[H|H]]]; discriminate.
  - tauto.
  - tauto.
Qed.

(** * The claims *)

(** C1, as amended. For every complete input, [data] has exactly
    [horizonYears + 1] entries whose years are [0..horizonYears] in
    increasing order, [data[0].value] is the rounded [-upfront], and
    [data[i].value] is the rounding of the running total [-upfront +
    netAnnualSavings + ... + netAnnualSavings] ([i] additions): the total
    itself is carried from year to year unrounded, only the emitted value is
    rounded. *)
Theorem cash_flow_series (form : RoiInputs) :
  complete form = true ->
  List.length (data (derived form)) = (horizonYears form + 1)%nat /\
  map year (data (derived form)) = seq 0 (horizonYears form + 1) /\
  value_at (derived form) 0 = Math_round (- upfront (derived form)) /\
  forall i, (i <= horizonYears form)%nat ->
    value_at (derived form) i =
    Math_round (running_total (- upfront (derived form))
                              (netAnnualSavings (derived form)) i).
Proof.
  intros H. split_and.
  - now rewrite (derived_data form H), cash_flow_spec, length_map, length_seq.
  - rewrite (derived_data form H), cash_flow_spec, map_map. cbn [year].
    apply map_id.
  - apply (derived_value_at form H 0). lia.
  - intros i Hi. now apply derived_value_at.
Qed.

Lemma cash_flow_series_witness :
  List.length (data (derived defaultInputs)) = 16%nat /\
  value_at (derived defaultInputs) 1 =
  Math_round (running_total (- upfront (derived defaultInputs))
                            (netAnnualSavings (derived defaultInputs)) 1).
Proof.
  destruct (cash_flow_series defaultInputs eq_refl) as (Hlen & _ & _ & Hval).
  split; [exact Hlen | apply Hval; cbn; lia].
Defined.

(** C1, as stated, fails: with the default inputs and a price of 1,96 the
    yearly saving is 3880.8, year 2 shows -21238 and year 3 shows -17358,
    while the year 2 value plus the saving is -17357.2 and rounds to
    -17357. *)
Lemma cash_flow_recurrence_counterexample :
  complete price_196 = true /\
  netAnnualSavings (derived price_196) = 3880.8000000000002 /\
  value_at (derived price_196) 2 = -21238 /\
  value_at (derived price_196) 3 = -17358 /\
  Math_round (value_at (derived price_196) 2 + netAnnualSavings (derived price_196))
  = -17357 /\
  (value_at (derived price_196) 3
   =? Math_round (value_at (derived price_196) 2
                  + netAnnualSavings (derived price_196))) = false /\
  (value_at (derived price_196) 3
   =? value_at (derived price_196) 2 + netAnnualSavings (derived price_196))
  = false.
Proof. vm_compute. repeat split; reflexivity. Qed.

(** C2, as amended. The blur handler of a required field whose text parses
    to "no value" stores the empty string: the field stays "no value" and
    the input stays incomplete; no minimum is substituted. A text that
    parses to a number is replaced by that number, floored where the field
    is whole, and raised to the field's minimum. *)
Theorem blur_commit (f : RoiInputs) :
  (parseNum (householdSize f) = None ->
   householdSize (onBlur_householdSize f) = RString EmptyString /\
   complete (onBlur_householdSize f) = false) /\
  (parseNum (electricityPrice f) = None ->
   electricityPrice (onBlur_electricityPrice f) = RString EmptyString /\
   complete (onBlur_electricityPrice f) = false) /\
  (parseNum (kwhPerPerson f) = None ->
   kwhPerPerson (onBlur_kwhPerPerson f) = RString EmptyString /\
   complete (onBlur_kwhPerPerson f) = false) /\
  (forall n, parseNum (householdSize f) = Some n ->
   householdSize (onBlur_householdSize f) = RNumber (Math_max 1 (Math_floor n))) /\
  (forall n, parseNum (electricityPrice f) = Some n ->
   electricityPrice (onBlur_electricityPrice f) = RNumber (Math_max 0.1 n)) /\
  (forall n, parseNum (kwhPerPerson f) = Some n ->
   kwhPerPerson (onBlur_kwhPerPerson f) = RNumber (Math_max 500 (Math_floor n))).
Proof.
  unfold complete, onBlur_householdSize, onBlur_electricityPrice,
    onBlur_kwhPerPerson.
  cbn [householdSize electricityPrice kwhPerPerson].
  split_and;
    try (intros n H; now rewrite H); intros H; rewrite H;
    cbn [clampInt clampMin committed parseNum]; split; try reflexivity.
  - destruct (clampInt (parseNum (householdSize f)) 1); reflexivity.
  - destruct (clampInt (parseNum (householdSize f)) 1),
             (clampMin (parseNum (electricityPrice f)) 0.1); reflexivity.
Qed.

Lemma blur_commit_witness :
  kwhPerPerson (onBlur_kwhPerPerson (onChange_kwhPerPerson defaultInputs "abc"))
  = RString EmptyString /\
  kwhPerPerson (onBlur_kwhPerPerson (onChange_kwhPerPerson defaultInputs "730,9"))
  = RNumber (Math_max 500 (Math_floor 730.9)).
Proof.
  split.
  - apply (blur_commit (onChange_kwhPerPerson defaultInputs "abc")). reflexivity.
  - apply (blur_commit (onChange_kwhPerPerson defaultInputs "730,9")). reflexivity.
Defined.

(** C2, as stated, fails: the text of [kwhPerPerson] emptied and the field
    blurred, the field holds the empty string, not 500, and the input is
    still incomplete. *)
Lemma blur_empty_counterexample :
  parseNum (kwhPerPerson (onChange_kwhPerPerson defaultInputs EmptyString)) = None /\
  kwhPerPerson (onBlur_kwhPerPerson (onChange_kwhPerPerson defaultInputs EmptyString))
  = RString EmptyString /\
  kwhPerPerson (onBlur_kwhPerPerson (onChange_kwhPerPerson defaultInputs EmptyString))
  <> RNumber 500 /\
  complete (onBlur_kwhPerPerson (onChange_kwhPerPerson defaultInputs EmptyString)) = false.
Proof. repeat split; try reflexivity. discriminate. Qed.

(** C3. When any of the three required fields sanitizes to "no value",
    [derived] returns the degenerate result: the four energy and money
    fields and [tenYearRoi] are 0, [upfront] is [max(systemCost - grant, 0)],
    [paybackYears] is [Infinity], and [data] holds exactly
    [horizonYears + 1] points, of years [0..horizonYears], all of value 0. *)
Theorem derived_guard (form : RoiInputs) :
  clampInt (parseNum (householdSize form)) 1 = None \/
  clampMin (parseNum (electricityPrice form)) 0.1 = None \/
  clampInt (parseNum (kwhPerPerson form)) 500 = None ->
  derived form =
    {| annualHotWaterKwh := 0;
       annualHotWaterCost := 0;
       annualSavings := 0;
       netAnnualSavings := 0;
       upfront := Math_max (systemCost_value form - grant_value form) 0;
       paybackYears := Infinity;
       data := map (fun year => {| year := year; value := 0 |})
                   (seq 0 (horizonYears form + 1));
       tenYearRoi := 0 |} /\
  List.length (data (derived form)) = (horizonYears form + 1)%nat /\
  map year (data (derived form)) = seq 0 (horizonYears form + 1) /\
  Forall (fun p => value p = 0) (data (derived form)).
Proof.
  intros H.
  assert (E : derived form =
    {| annualHotWaterKwh := 0;
       annualHotWaterCost := 0;
       annualSavings := 0;
       netAnnualSavings := 0;
       upfront := Math_max (systemCost_value form - grant_value form) 0;
       paybackYears := Infinity;
       data := map (fun year => {| year := year; value := 0 |})
                   (seq 0 (horizonYears form + 1));
       tenYearRoi := 0 |}).
  { unfold derived, systemCost_value, grant_value. rewrite or_zero_id.
    required_fields form; try reflexivity.
    destruct H as [H|[H|H]]; discriminate. }
  rewrite E. cbn [data]. repeat split.
  - now rewrite length_map, length_seq.
  - rewrite map_map. cbn [year]. apply map_id.
  - apply Forall_map, Forall_forall. reflexivity.
Qed.

Lemma derived_guard_witness :
  derived (onChange_householdSize defaultInputs EmptyString) =
    {| annualHotWaterKwh := 0;
       annualHotWaterCost := 0;
       annualSavings := 0;
       netAnnualSavings := 0;
       upfront := 29000;
       paybackYears := Infinity;
       data := map (fun year => {| year := year; value := 0 |}) (seq 0 16);
       tenYearRoi := 0 |}.
Proof.
  apply (derived_guard (onChange_householdSize defaultInputs EmptyString)).
  left. reflexivity.
Defined.

(** C4, as amended. For every complete input, [paybackYears] is
    [upfront / netAnnualSavings] when [netAnnualSavings > 0], and the
    sentinel [Infinity] whenever [netAnnualSavings > 0] does not hold, in
    particular when [netAnnualSavings <= 0] and when it is 0; a finite
    [paybackYears] implies [netAnnualSavings > 0], and [paybackYears] is the
    sentinel exactly when [netAnnualSavings > 0] fails or the quotient is
    itself [Infinity]. *)
Theorem paybackYears_spec (form : RoiInputs) :
  complete form = true ->
  ((0 <? netAnnualSavings (derived form)) = true ->
   paybackYears (derived form)
   = upfront (derived form) / netAnnualSavings (derived form)) /\
  ((netAnnualSavings (derived form) <=? 0) = true ->
   paybackYears (derived form) = Infinity) /\
  ((netAnnualSavings (derived form) =? 0) = true ->
   paybackYears (derived form) = Infinity) /\
  ((0 <? netAnnualSavings (derived form)) = false ->
   paybackYears (derived form) = Infinity) /\
  (isFinite (paybackYears (derived form)) = true ->
   (0 <? netAnnualSavings (derived form)) = true) /\
  (paybackYears (derived form) = Infinity <->
   (0 <? netAnnualSavings (derived form)) = false \/
   upfront (derived form) / netAnnualSavings (derived form) = Infinity).
Proof.
  intros H. rewrite (derived_paybackYears form H).
  split_and.
  - intros Hn. now rewrite Hn.
  - intros Hn. now rewrite (leb_not_ltb _ _ Hn).
  - intros Hn. now rewrite (eqb_not_ltb _ _ Hn).
  - intros Hn. now rewrite Hn.
  - destruct (0 <? netAnnualSavings (derived form)); [reflexivity|discriminate].
  - destruct (0 <? netAnnualSavings (derived form)); split; auto.
    intros [Hn|Hn]; [discriminate|assumption].
Qed.

Lemma paybackYears_spec_witness :
  paybackYears (derived defaultInputs)
  = upfront (derived defaultInputs) / netAnnualSavings (derived defaultInputs).
Proof.
  apply (paybackYears_spec defaultInputs); reflexivity.
Defined.

(** C4, as stated, fails: with a cost of 1.7e308 and a savings ratio of
    0.01 the input is complete and valid, the net annual saving is 0.5, a
    positive number, and [paybackYears] is nevertheless the sentinel, the
    quotient having overflowed. *)
Lemma payback_overflow_counterexample :
  valid tiny_savings = true /\
  netAnnualSavings (derived tiny_savings) = 0.5 /\
  upfront (derived tiny_savings) = 1.7e308 /\
  (0 <? netAnnualSavings (derived tiny_savings)) = true /\
  (netAnnualSavings (derived tiny_savings) <=? 0) = false /\
  paybackYears (derived tiny_savings) = Infinity.
Proof. vm_compute. repeat split; reflexivity. Qed.

(** C5. Scenario A, the default inputs: the energy and money fields are
    exactly 3000, 5850, 3861, 3861 and 29000, the first two points of the
    series are -29000 and -25139, [paybackYears] is 7.51 and [tenYearRoi]
    is 0.331 to the digits given. *)
Theorem scenario_A :
  householdSize defaultInputs = RNumber 3 /\
  electricityPrice defaultInputs = RNumber 1.95 /\
  systemCost defaultInputs = RNumber 29000 /\
  grant defaultInputs = RNumber 0 /\
  kwhPerPerson defaultInputs = RNumber 1000 /\
  maintenance defaultInputs = 0 /\
  savingsRatio defaultInputs = 0.66 /\
  horizonYears defaultInputs = 15%nat /\
  annualHotWaterKwh (derived defaultInputs) = 3000 /\
  annualHotWaterCost (derived defaultInputs) = 5850 /\
  annualSavings (derived defaultInputs) = 3861 /\
  netAnnualSavings (derived defaultInputs) = 3861 /\
  upfront (derived defaultInputs) = 29000 /\
  (7.505 <=? paybackYears (derived defaultInputs)) = true /\
  (paybackYears (derived defaultInputs) <? 7.515) = true /\
  value_at (derived defaultInputs) 0 = -29000 /\
  value_at (derived defaultInputs) 1 = -25139 /\
  (0.3305 <=? tenYearRoi (derived defaultInputs)) = true /\
  (tenYearRoi (derived defaultInputs) <? 0.3315) = true.
Proof. vm_compute. repeat split; reflexivity. Qed.

(** C6. For every complete input, [tenYearRoi] is
    [(netAnnualSavings * 10 - upfront) / upfront] when [upfront > 0] and 0
    when [upfront = 0], and one of the two is the case; two inputs that
    differ only in [horizonYears] have the same [tenYearRoi]. *)
Theorem tenYearRoi_spec (form : RoiInputs) :
  complete form = true ->
  ((0 <? upfront (derived form)) = true ->
   tenYearRoi (derived form)
   = (netAnnualSavings (derived form) * 10 - upfront (derived form))
     / upfront (derived form)) /\
  ((upfront (derived form) =? 0) = true -> tenYearRoi (derived form) = 0) /\
  ((0 <? upfront (derived form)) = true \/ (upfront (derived form) =? 0) = true) /\
  (forall form' : RoiInputs,
     householdSize form' = householdSize form ->
     electricityPrice form' = electricityPrice form ->
     systemCost form' = systemCost form ->
     grant form' = grant form ->
     kwhPerPerson form' = kwhPerPerson form ->
     maintenance form' = maintenance form ->
     savingsRatio form' = savingsRatio form ->
     tenYearRoi (derived form') = tenYearRoi (derived form)).
Proof.
  intros H. rewrite (derived_tenYearRoi form H).
  split_and.
  - intros Hu. now rewrite Hu.
  - intros Hu. now rewrite (eqb_not_ltb _ _ Hu).
  - rewrite derived_upfront. apply leb_zero_cases, upfront_nonneg.
  - intros form' H1 H2 H3 H4 H5 H6 H7.
    rewrite <- (derived_tenYearRoi form H).
    unfold derived. rewrite H1, H2, H3, H4, H5, H6, H7.
    required_fields form; reflexivity.
Qed.

Lemma tenYearRoi_spec_witness :
  tenYearRoi (derived defaultInputs)
  = (netAnnualSavings (derived defaultInputs) * 10 - upfront (derived defaultInputs))
    / upfront (derived defaultInputs).
Proof.
  apply (tenYearRoi_spec defaultInputs); reflexivity.
Defined.

(** C7. [parseNum] yields "no value" exactly when the raw value is the
    empty string, [undefined] or [null], or when the number read from it,
    its first comma turned into a point, is not finite; "1,95" reads as
    1.95. Field by field: [derived] computes with [max(1, floor(h))] for
    householdSize, [max(500, floor(k))] for kwhPerPerson and [max(0.1, p)],
    not floored, for electricityPrice, where [h], [k] and [p] are what the
    three fields read as; these are the factors of [annualHotWaterKwh] and
    [annualHotWaterCost]. A required field that has no value gets no
    minimum: the two products are 0. systemCost and grant enter [upfront]
    as [max(0, floor(c))] and [max(0, floor(g))], and as 0 when they have
    no value. The blur handler of each field stores the same number, or
    the empty string for "no value"; a number it stores is at least the
    minimum of its field and, for the four whole-number fields, a whole
    number. *)
Theorem sanitization (form : RoiInputs) :
  (forall v, parseNum v = None <->
     v = RString EmptyString \/ v = RUndefined \/ v = RNull \/
     isFinite (parsed v) = false) /\
  (forall v n, parseNum v = Some n -> n = parsed v /\ isFinite n = true) /\
  parseNum (RString "1,95") = Some 1.95 /\
  (forall h p k,
     parseNum (householdSize form) = Some h ->
     parseNum (electricityPrice form) = Some p ->
     parseNum (kwhPerPerson form) = Some k ->
     annualHotWaterKwh (derived form)
     = Math_max 1 (Math_floor h) * Math_max 500 (Math_floor k) /\
     annualHotWaterCost (derived form)
     = Math_max 1 (Math_floor h) * Math_max 500 (Math_floor k) * Math_max 0.1 p) /\
  (parseNum (householdSize form) = None \/
   parseNum (electricityPrice form) = None \/
   parseNum (kwhPerPerson form) = None ->
   annualHotWaterKwh (derived form) = 0 /\ annualHotWaterCost (derived form) = 0) /\
  upfront (derived form)
  = Math_max (match parseNum (systemCost form) with
              | Some c => Math_max 0 (Math_floor c)
              | None => 0
              end
              - match parseNum (grant form) with
                | Some g => Math_max 0 (Math_floor g)
                | None => 0
                end) 0 /\
  householdSize (onBlur_householdSize form)
  = match parseNum (householdSize form) with
    | Some n => RNumber (Math_max 1 (Math_floor n))
    | None => RString EmptyString
    end /\
  electricityPrice (onBlur_electricityPrice form)
  = match parseNum (electricityPrice form) with
    | Some n => RNumber (Math_max 0.1 n)
    | None => RString EmptyString
    end /\
  systemCost (onBlur_systemCost form)
  = match parseNum (systemCost form) with
    | Some n => RNumber (Math_max 0 (Math_floor n))
    | None => RString EmptyString
    end /\
  grant (onBlur_grant form)
  = match parseNum (grant form) with
    | Some n => RNumber (Math_max 0 (Math_floor n))
    | None => RString EmptyString
    end /\
  kwhPerPerson (onBlur_kwhPerPerson form)
  = match parseNum (kwhPerPerson form) with
    | Some n => RNumber (Math_max 500 (Math_floor n))
    | None => RString EmptyString
    end /\
  (forall x, householdSize (onBlur_householdSize form) = RNumber x ->
     isInteger x = true /\ (1 <=? x) = true) /\
  (forall x, electricityPrice (onBlur_electricityPrice form) = RNumber x ->
     isFinite x = true /\ (0.1 <=? x) = true) /\
  (forall x, systemCost (onBlur_systemCost form) = RNumber x ->
     isInteger x = true /\ (0 <=? x) = true) /\
  (forall x, grant (onBlur_grant form) = RNumber x ->
     isInteger x = true /\ (0 <=? x) = true) /\
  (forall x, kwhPerPerson (onBlur_kwhPerPerson form) = RNumber x ->
     isInteger x = true /\ (500 <=? x) = true).
Proof.
  split_and.
  - apply parseNum_None.
  - intros v n H. split; [now apply parseNum_parsed | now apply (parseNum_finite v)].
  - vm_compute. reflexivity.
  - intros h p k Hh Hp Hk.
    rewrite (derived_parsed form h p k Hh Hp Hk). split; reflexivity.
  - intros H. rewrite derived_incomplete; [split; reflexivity|].
    unfold complete. destruct H as [H|[H|H]]; rewrite H; cbn [clampInt clampMin].
    + reflexivity.
    + now destruct (clampInt (parseNum (householdSize form)) 1).
    + now destruct (clampInt (parseNum (householdSize form)) 1),
                   (clampMin (parseNum (electricityPrice form)) 0.1).
  - rewrite derived_upfront. unfold systemCost_value, grant_value.
    now destruct (parseNum (systemCost form)), (parseNum (grant form)).
  - cbn. now destruct (parseNum (householdSize form)).
  - cbn. now destruct (parseNum (electricityPrice form)).
  - cbn. now destruct (parseNum (systemCost form)).
  - cbn. now destruct (parseNum (grant form)).
  - cbn. now destruct (parseNum (kwhPerPerson form)).
  - intros x. now apply committed_clampInt.
  - intros x. now apply committed_clampMin.
  - intros x. now apply committed_clampInt.
  - intros x. now apply committed_clampInt.
  - intros x. now apply committed_clampInt.
Qed.

Lemma sanitization_witness :
  (2.7 = parsed (RString "2,7") /\ isFinite 2.7 = true) /\
  annualHotWaterKwh (derived (onChange_householdSize price_196 "2,7"))
  = Math_max 1 (Math_floor 2.7) * Math_max 500 (Math_floor 1000) /\
  annualHotWaterCost (derived (onChange_householdSize price_196 "2,7"))
  = Math_max 1 (Math_floor 2.7) * Math_max 500 (Math_floor 1000) * Math_max 0.1 1.96 /\
  annualHotWaterKwh (derived (onChange_kwhPerPerson defaultInputs "x")) = 0 /\
  (isInteger 2 = true /\ (1 <=? 2) = true) /\
  (isFinite 1.96 = true /\ (0.1 <=? 1.96) = true) /\
  (isInteger 29000 = true /\ (0 <=? 29000) = true) /\
  (isInteger 0 = true /\ (0 <=? 0) = true) /\
  (isInteger 1000 = true /\ (500 <=? 1000) = true).
Proof.
  destruct (sanitization (onChange_householdSize price_196 "2,7"))
    as (_ & Hparsed & _ & Hmain & _ & _ & _ & _ & _ & _ & _
        & HhouseholdSize & HelectricityPrice & HsystemCost & Hgrant & HkwhPerPerson).
  destruct (sanitization (onChange_kwhPerPerson defaultInputs "x"))
    as (_ & _ & _ & _ & Hguard & _).
  split_and.
  - apply (Hparsed (RString "2,7")). reflexivity.
  - apply (Hparsed (RString "2,7")). reflexivity.
  - apply (Hmain 2.7 1.96 1000); reflexivity.
  - apply (Hmain 2.7 1.96 1000); reflexivity.
  - apply Hguard. right. right. reflexivity.
  - apply (HhouseholdSize 2). reflexivity.
  - apply (HhouseholdSize 2). reflexivity.
  - apply (HelectricityPrice 1.96). reflexivity.
  - apply (HelectricityPrice 1.96). reflexivity.
  - apply (HsystemCost 29000). reflexivity.
  - apply (HsystemCost 29000). reflexivity.
  - apply (Hgrant 0). reflexivity.
  - apply (Hgrant 0). reflexivity.
  - apply (HkwhPerPerson 1000). reflexivity.
  - apply (HkwhPerPerson 1000). reflexivity.
Defined.

(** C8. In both branches of [derived], [upfront] is
    [max(systemCost - grant, 0)] of the sanitized cost and grant; it is a
    finite number, never below 0, and it is 0 when the grant exceeds the
    system cost. *)
Theorem upfront_spec (form : RoiInputs) :
  upfront (derived form) = Math_max (systemCost_value form - grant_value form) 0 /\
  (upfront (derived form) <? 0) = false /\
  (0 <=? upfront (derived form)) = true /\
  isFinite (upfront (derived form)) = true /\
  ((systemCost_value form <? grant_value form) = true ->
   upfront (derived form) = 0).
Proof.
  rewrite derived_upfront. split_and.
  - reflexivity.
  - apply Math_max_zero_not_negative.
  - apply upfront_nonneg.
  - apply upfront_finite.
  - apply Math_max_sub_of_less.
Qed.

Lemma upfront_spec_witness :
  upfront (derived (onChange_grant
                      (onChange_systemCost
                         (onChange_householdSize defaultInputs EmptyString) "29000,5")
                      "30000")) = 0.
Proof.
  apply upfront_spec. reflexivity.
Defined.

(** C9, as amended. [upfront] is finite for every input. When a required
    field has no value (the degenerate input of the guard branch), every
    field of the result other than [paybackYears] is finite, and
    [paybackYears] is the sentinel. For every input, [tenYearRoi] is
    finite when [netAnnualSavings * 10] is, a cost above 0 being a whole
    number and so at least 1; and a point of [data] is finite when a later
    point is. For a complete input with a finite, non-negative
    maintenance, [annualHotWaterKwh], [annualHotWaterCost] and
    [netAnnualSavings] are finite when [annualSavings] is, and for a
    complete input a point of [data] is finite exactly when the running
    total it rounds is. For an input whose required fields read as [h],
    [p] and [k], every field other than [paybackYears] is finite exactly
    when four results of the arithmetic are: the product
    [max(1, floor(h)) * max(500, floor(k)) * max(0.1, p) * savingsRatio],
    the net saving [max(product - maintenance, 0)], ten times the net
    saving when the cost is above 0, and the running total of the last
    year. Nothing but the overflow of these products, differences and
    sums, which no bound on the fields prevents, brings in [Infinity] or
    NaN. *)
Theorem finite_unless_overflow (form : RoiInputs) :
  isFinite (upfront (derived form)) = true /\
  (complete form = false ->
   finite_but_payback (derived form) = true /\
   paybackYears (derived form) = Infinity) /\
  (isFinite (netAnnualSavings (derived form) * 10) = true ->
   isFinite (tenYearRoi (derived form)) = true) /\
  (forall i j, (i <= j <= horizonYears form)%nat ->
     isFinite (value_at (derived form) j) = true ->
     isFinite (value_at (derived form) i) = true) /\
  (complete form = true ->
   isFinite (maintenance form) = true ->
   (0 <=? maintenance form) = true ->
   isFinite (annualSavings (derived form)) = true ->
   isFinite (annualHotWaterKwh (derived form)) = true /\
   isFinite (annualHotWaterCost (derived form)) = true /\
   isFinite (netAnnualSavings (derived form)) = true) /\
  (complete form = true ->
   forall i, (i <= horizonYears form)%nat ->
     isFinite (value_at (derived form) i) = true <->
     isFinite (running_total (- upfront (derived form))
                             (netAnnualSavings (derived form)) i) = true) /\
  (forall h p k,
     parseNum (householdSize form) = Some h ->
     parseNum (electricityPrice form) = Some p ->
     parseNum (kwhPerPerson form) = Some k ->
     let savings :=
       Math_max 1 (Math_floor h) * Math_max 500 (Math_floor k) * Math_max 0.1 p
       * savingsRatio form in
     let net := Math_max (savings - maintenance form) 0 in
     let cost := Math_max (systemCost_value form - grant_value form) 0 in
     finite_but_payback (derived form) = true <->
     isFinite savings = true /\
     isFinite net = true /\
     ((0 <? cost) = true -> isFinite (net * 10) = true) /\
     isFinite (running_total (- cost) net (horizonYears form)) = true).
Proof.
  split_and.
  - rewrite derived_upfront. apply upfront_finite.
  - intros H. rewrite (derived_incomplete form H).
    unfold finite_but_payback.
    cbn [annualHotWaterKwh annualHotWaterCost annualSavings netAnnualSavings
         upfront tenYearRoi data paybackYears].
    rewrite upfront_finite. split; [|reflexivity].
    apply forallb_forall. intros q Hq.
    apply in_map_iff in Hq as (y & <- & _). reflexivity.
  - apply derived_tenYearRoi_finite.
  - apply derived_value_at_before.
  - apply derived_finite_products.
  - intros Hc i Hi. now apply derived_value_at_finite.
  - intros h p k Hh Hp Hk savings net cost.
    pose proof (derived_parsed form h p k Hh Hp Hk) as E. cbv zeta in E.
    fold savings net cost in E |- *.
    unfold finite_but_payback. rewrite E.
    cbn [annualHotWaterKwh annualHotWaterCost annualSavings netAnnualSavings
         upfront tenYearRoi data].
    rewrite cash_flow_spec. split.
    + intros H. do 6 (apply andb_prop in H as [H ?]).
      split_and.
      * assumption.
      * assumption.
      * intros Hpos. rewrite Hpos in *.
        eauto using div_finite_inv, sub_finite_inv.
      * apply Math_round_finite_inv.
        match goal with Hd : forallb _ _ = true |- _ =>
          rewrite forallb_forall in Hd;
          apply (Hd {| year := horizonYears form;
                       value := Math_round (running_total (- cost) net
                                              (horizonYears form)) |})
        end.
        apply in_map_iff. exists (horizonYears form). split; [reflexivity|].
        apply in_seq. lia.
    + intros (Hs & Hnet & Hten & Hlast).
      destruct (mul_finite_factors _ _ Hs) as [Hcost _].
      destruct (mul_finite_factors _ _ Hcost) as [Hkwh _].
      rewrite Hkwh, Hcost, Hs, Hnet. fold cost.
      unfold cost at 1. rewrite upfront_finite. fold cost. cbn [andb].
      apply andb_true_intro. split.
      * destruct (0 <? cost) eqn:Hpos; [|reflexivity].
        apply tenYearRoi_finite; auto.
        -- now apply Math_max_zero_r_nonneg.
        -- apply finite_nonneg; [apply upfront_finite|].
           apply zero_le_nonneg, upfront_nonneg.
        -- now apply upfront_ge_one.
      * apply forallb_forall. intros q Hq.
        apply in_map_iff in Hq as (i & <- & Hi). apply in_seq in Hi.
        cbn [value]. apply Math_round_finite.
        apply (running_total_finite_before _ _ (horizonYears form)); [lia|assumption].
Qed.

Lemma finite_unless_overflow_witness :
  finite_but_payback (derived (onChange_kwhPerPerson defaultInputs EmptyString))
  = true /\
  isFinite (tenYearRoi (derived defaultInputs)) = true /\
  isFinite (value_at (derived defaultInputs) 3) = true /\
  isFinite (netAnnualSavings (derived defaultInputs)) = true /\
  isFinite (value_at (derived defaultInputs) 15) = true /\
  finite_but_payback (derived defaultInputs) = true /\
  isFinite (running_total (-29000) 3861 15) = true.
Proof.
  destruct (finite_unless_overflow
              (onChange_kwhPerPerson defaultInputs EmptyString))
    as (_ & Hguard & _).
  destruct (finite_unless_overflow defaultInputs)
    as (_ & _ & Hroi & Hdata & Hyear & Hpoint & Hmain).
  split_and.
  - apply Hguard. reflexivity.
  - apply Hroi. reflexivity.
  - apply (Hdata 3%nat 15%nat); [cbn; lia | reflexivity].
  - apply Hyear; reflexivity.
  - apply Hpoint; [reflexivity | cbn; lia | reflexivity].
  - apply (Hmain 3 1.95 1000); try reflexivity.
    split_and; reflexivity.
  - apply (proj1 (Hmain 3 1.95 1000 eq_refl eq_refl eq_refl)). reflexivity.
Defined.

(** C9, as stated, fails: a household size and a consumption of 1e200 are
    accepted by the sanitizer, their product overflows, and the result
    holds [Infinity] in fields other than [paybackYears]. *)
Lemma overflow_counterexample :
  complete huge_household = true /\
  annualHotWaterKwh (derived huge_household) = Infinity /\
  netAnnualSavings (derived huge_household) = Infinity /\
  tenYearRoi (derived huge_household) = Infinity /\
  value_at (derived huge_household) 1 = Infinity /\
  finite_but_payback (derived huge_household) = false.
Proof. vm_compute. repeat split; reflexivity. Qed.

(** C10, as amended. On a legacy form whose five editable fields are
    numbers that satisfy their field minimums (householdSize a whole number
    at least 1, electricityPrice at least 0.1, systemCost and grant whole
    numbers at least 0, kwhPerPerson a whole number at least 500) and whose
    electricityPrice is finite, the sanitized calculator, given the same
    numbers, and the legacy calculator compute the same results. *)
Theorem legacy_refinement (form : Legacy.RoiInputs) :
  meets_minimums form = true ->
  isFinite (Legacy.electricityPrice form) = true ->
  derived (as_text_form form) = Legacy.derived form.
Proof.
  unfold meets_minimums. intros H Hprice.
  do 8 (apply andb_prop in H as [H ?]).
  unfold derived, as_text_form, Legacy.derived.
  cbn [householdSize electricityPrice systemCost grant kwhPerPerson
       maintenance savingsRatio horizonYears].
  rewrite (clampInt_fixed _ 1) by (reflexivity || assumption).
  rewrite (clampMin_fixed _ 0.1) by (reflexivity || assumption).
  rewrite (clampInt_fixed _ 500) by (reflexivity || assumption).
  rewrite !clampInt_zero_fixed by assumption.
  rewrite Math_max_sub_Number_of_String. reflexivity.
Qed.

Lemma legacy_refinement_witness :
  derived (as_text_form Legacy.defaultInputs) = Legacy.derived Legacy.defaultInputs.
Proof.
  apply legacy_refinement; reflexivity.
Defined.

(** C10, as stated, fails: [Infinity] is a number at least 0.1; the legacy
    calculator computes with it, the sanitized one takes it for "no value"
    and returns the degenerate result. *)
Lemma infinite_price_counterexample :
  meets_minimums infinite_price = true /\
  annualHotWaterCost (Legacy.derived infinite_price) = Infinity /\
  annualHotWaterCost (derived (as_text_form infinite_price)) = 0 /\
  derived (as_text_form infinite_price) <> Legacy.derived infinite_price.
Proof.
  repeat split; try (vm_compute; reflexivity).
  intros H. apply (f_equal annualHotWaterCost) in H.
  apply (f_equal Prim2SF) in H. vm_compute in H. discriminate.
Qed.

(** * Further properties *)

(** ** The text fields *)

(** X1. A blur changes no result: for each of the five text fields, the
    form in which the blur handler has replaced the text by the sanitized
    value has the same [derived] results as the form before the blur. *)
Theorem blur_keeps_results (f : RoiInputs) :
  derived (onBlur_householdSize f) = derived f /\
  derived (onBlur_electricityPrice f) = derived f /\
  derived (onBlur_systemCost f) = derived f /\
  derived (onBlur_grant f) = derived f /\
  derived (onBlur_kwhPerPerson f) = derived f.
Proof.
  unfold derived, onBlur_householdSize, onBlur_electricityPrice,
    onBlur_systemCost, onBlur_grant, onBlur_kwhPerPerson.
  cbn [householdSize electricityPrice systemCost grant kwhPerPerson
       maintenance savingsRatio horizonYears].
  rewrite !clampInt_zero_committed.
  rewrite !clampInt_committed by reflexivity.
  rewrite clampMin_committed by reflexivity.
  split_and; reflexivity.
Qed.

(** X2. A blur is idempotent: for each of the five text fields, the blur
    handler run on a form that it has already run on leaves the form as it
    is. *)
Theorem blur_idempotent (f : RoiInputs) :
  onBlur_householdSize (onBlur_householdSize f) = onBlur_householdSize f /\
  onBlur_electricityPrice (onBlur_electricityPrice f) = onBlur_electricityPrice f /\
  onBlur_systemCost (onBlur_systemCost f) = onBlur_systemCost f /\
  onBlur_grant (onBlur_grant f) = onBlur_grant f /\
  onBlur_kwhPerPerson (onBlur_kwhPerPerson f) = onBlur_kwhPerPerson f.
Proof.
  unfold onBlur_householdSize, onBlur_electricityPrice,
    onBlur_systemCost, onBlur_grant, onBlur_kwhPerPerson.
  cbn [householdSize electricityPrice systemCost grant kwhPerPerson
       maintenance savingsRatio horizonYears].
  rewrite !clampInt_zero_committed.
  rewrite !clampInt_committed by reflexivity.
  rewrite clampMin_committed by reflexivity.
  split_and; reflexivity.
Qed.

(** X3. A text that is not empty but holds white space only is not "no
    value": [parseNum] reads it as 0, and the blur handler of each field
    then stores the field's minimum, 1, 0.1, 0, 0 and 500. *)
Theorem blank_text_is_minimum (f : RoiInputs) (s : string) :
  s <> EmptyString -> trim s = EmptyString ->
  parseNum (RString s) = Some 0 /\
  householdSize (onBlur_householdSize (onChange_householdSize f s)) = RNumber 1 /\
  electricityPrice (onBlur_electricityPrice (onChange_electricityPrice f s))
  = RNumber 0.1 /\
  systemCost (onBlur_systemCost (onChange_systemCost f s)) = RNumber 0 /\
  grant (onBlur_grant (onChange_grant f s)) = RNumber 0 /\
  kwhPerPerson (onBlur_kwhPerPerson (onChange_kwhPerPerson f s)) = RNumber 500.
Proof.
  intros Hs Ht.
  assert (H : parseNum (RString s) = Some 0).
  { rewrite parseNum_text by assumption.
    rewrite replace_comma_none by (apply blank_no_comma, trim_empty, Ht).
    unfold Number. rewrite Ht. reflexivity. }
  unfold onBlur_householdSize, onBlur_electricityPrice, onBlur_systemCost,
    onBlur_grant, onBlur_kwhPerPerson.
  cbn [householdSize electricityPrice systemCost grant kwhPerPerson
       onChange_householdSize onChange_electricityPrice onChange_systemCost
       onChange_grant onChange_kwhPerPerson].
  rewrite H. split_and; reflexivity.
Qed.

Lemma blank_text_is_minimum_witness :
  parseNum (RString " ") = Some 0 /\
  kwhPerPerson (onBlur_kwhPerPerson (onChange_kwhPerPerson defaultInputs " "))
  = RNumber 500.
Proof.
  destruct (blank_text_is_minimum defaultInputs " ") as (H & _ & _ & _ & _ & Hk);
    [discriminate | reflexivity |].
  split; [exact H | exact Hk].
Defined.

(** X4. Only the first comma of a text is turned into a point: a text
    with two commas or more, whatever stands around them, is "no value". *)
Theorem second_comma_rejected (a b c : string) :
  parseNum (RString (a ++ "," ++ b ++ "," ++ c)) = None.
Proof.
  unfold parseNum.
  destruct (a ++ "," ++ b ++ "," ++ c)%string eqn:E; [reflexivity|].
  rewrite <- E. rewrite Number_comma; [reflexivity|].
  apply replace_comma_second. rewrite has_comma_app. cbn [append has_comma].
  now rewrite orb_true_r.
Qed.

(** X5. A single comma is a decimal point: a text with one comma is read
    as the same text with a point in its place. *)
Theorem comma_is_point (a b : string) :
  has_comma a = false -> has_comma b = false ->
  parseNum (RString (a ++ "," ++ b)) = parseNum (RString (a ++ "." ++ b)).
Proof.
  intros Ha Hb.
  rewrite !parseNum_text by (destruct a; discriminate).
  cbn [append]. rewrite replace_comma_first by assumption.
  rewrite (replace_comma_none (a ++ String "." b)); [reflexivity|].
  rewrite has_comma_app. cbn [has_comma]. now rewrite Ha, Hb.
Qed.

Lemma comma_is_point_witness :
  parseNum (RString "1,95") = parseNum (RString "1.95").
Proof. apply (comma_is_point "1" "95"); reflexivity. Defined.

(** X17. White space around a text is ignored: a text that is not empty
    reads the same with white space put before and after it. *)
Theorem white_space_around (a s b : string) :
  trim a = EmptyString -> trim b = EmptyString -> s <> EmptyString ->
  parseNum (RString (a ++ s ++ b)) = parseNum (RString s).
Proof.
  intros Ha Hb Hs. apply trim_empty in Ha, Hb.
  rewrite !parseNum_text by (try assumption; destruct a, s; try discriminate; congruence).
  rewrite replace_comma_app_l, replace_comma_app_r by now apply blank_no_comma.
  unfold Number. now rewrite trim_app_blank.
Qed.

Lemma white_space_around_witness :
  parseNum (RString " 1,95  ") = parseNum (RString "1,95").
Proof.
  apply (white_space_around " " "1,95" "  "); [reflexivity | reflexivity | discriminate].
Defined.

(** ** The results *)

(** X6. [netAnnualSavings] is never below 0. For a complete input whose
    maintenance exceeds the yearly saving it is exactly 0, [paybackYears] is
    [Infinity], and the series is flat: every point equals the rounded
    [-upfront]. *)
Theorem maintenance_above_savings (form : RoiInputs) :
  (netAnnualSavings (derived form) <? 0) = false /\
  (complete form = true ->
   (annualSavings (derived form) <? maintenance form) = true ->
   netAnnualSavings (derived form) = 0 /\
   paybackYears (derived form) = Infinity /\
   forall i, (i <= horizonYears form)%nat ->
     (value_at (derived form) i =? Math_round (- upfront (derived form))) = true).
Proof.
  split.
  - unfold derived. required_fields form; try reflexivity.
    apply Math_max_zero_not_negative.
  - intros Hc Hlt.
    assert (Hn : netAnnualSavings (derived form) = 0).
    { revert Hlt. destruct (derived_complete form Hc) as (a & b & c & Ha & Hb & Hc').
      unfold derived. rewrite Ha, Hb, Hc'. cbn [annualSavings netAnnualSavings].
      apply Math_max_sub_of_less. }
    split_and.
    + assumption.
    + rewrite (derived_paybackYears form Hc), Hn. reflexivity.
    + intros i Hi. rewrite (derived_value_at form Hc i Hi), Hn.
      destruct (PrimFloat.is_zero (upfront (derived form))) eqn:Hz.
      * rewrite <- opp_zero in Hz.
        apply zero_eqb_zero; apply Math_round_zero;
          [now apply running_total_zero | assumption].
      * rewrite running_total_flat by now apply opp_not_zero.
        apply eqb_refl, isFinite_not_nan, Math_round_finite.
        pose proof (derived_upfront_nonneg form) as Hu.
        rewrite isFinite_SF, opp_spec.
        destruct (Prim2SF (upfront (derived form))); try discriminate; reflexivity.
Qed.

Lemma maintenance_above_savings_witness :
  netAnnualSavings (derived costly_upkeep) = 0 /\
  paybackYears (derived costly_upkeep) = Infinity /\
  (value_at (derived costly_upkeep) 7
   =? Math_round (- upfront (derived costly_upkeep))) = true.
Proof.
  destruct (maintenance_above_savings costly_upkeep) as [_ H].
  destruct (H eq_refl eq_refl) as (Hn & Hp & Hv).
  split_and; [exact Hn | exact Hp | apply Hv; cbn; lia].
Defined.

(** X7. Whatever the form holds, [paybackYears] is never NaN and never
    negative: it is at least 0, and it is a finite number or [Infinity]. *)
Theorem paybackYears_range (form : RoiInputs) :
  is_nan (paybackYears (derived form)) = false /\
  (paybackYears (derived form) <? 0) = false /\
  (0 <=? paybackYears (derived form)) = true /\
  (isFinite (paybackYears (derived form)) = true \/
   paybackYears (derived form) = Infinity).
Proof.
  assert (H : SF_nonneg (Prim2SF (paybackYears (derived form))) = true).
  { destruct (derived_paybackYears_cases form) as [H|[Hn H]]; rewrite H.
    - reflexivity.
    - apply div_nonneg; [apply derived_upfront_nonneg | assumption]. }
  pose proof (nonneg_not_nan _ H). pose proof (nonneg_not_negative _ H).
  split_and; try assumption.
  - apply not_ltb_leb; auto.
  - rewrite isFinite_SF.
    destruct (Prim2SF (paybackYears (derived form))) as [s|s| |s m e] eqn:E;
      try discriminate; auto.
    right. destruct s; [discriminate|].
    apply Prim2SF_inj. now rewrite E.
Qed.

(** X8. A grant that covers the system cost leaves nothing to pay back:
    [upfront] and [tenYearRoi] are 0, and [paybackYears] is 0 when there is
    a net saving and [Infinity] otherwise. *)
Theorem grant_covers_cost (form : RoiInputs) :
  (systemCost_value form <=? grant_value form) = true ->
  upfront (derived form) = 0 /\
  tenYearRoi (derived form) = 0 /\
  paybackYears (derived form)
  = (if 0 <? netAnnualSavings (derived form) then 0 else Infinity).
Proof.
  intros Hle.
  pose proof (Math_max_sub_of_le _ _ (systemCost_value_nonneg form) Hle) as Hu.
  unfold systemCost_value, grant_value in Hu.
  unfold derived. required_fields form;
    cbn [upfront tenYearRoi paybackYears netAnnualSavings]; rewrite Hu;
    split_and; try reflexivity.
  destruct (0 <? Math_max _ 0) eqn:Hn; [|reflexivity].
  now apply zero_div.
Qed.

Lemma grant_covers_cost_witness :
  upfront (derived (onChange_grant defaultInputs "29000")) = 0 /\
  paybackYears (derived (onChange_grant defaultInputs "29000")) = 0.
Proof.
  destruct (grant_covers_cost (onChange_grant defaultInputs "29000") eq_refl)
    as (Hu & _ & Hp).
  split; [exact Hu | exact Hp].
Defined.

(** X9. A longer horizon only adds points: of two inputs that differ in
    [horizonYears] alone, the series of the shorter horizon is the
    beginning of the series of the longer one, and every other result is
    the same. *)
Theorem horizon_extends (f g : RoiInputs) :
  householdSize g = householdSize f ->
  electricityPrice g = electricityPrice f ->
  systemCost g = systemCost f ->
  grant g = grant f ->
  kwhPerPerson g = kwhPerPerson f ->
  maintenance g = maintenance f ->
  savingsRatio g = savingsRatio f ->
  (horizonYears f <= horizonYears g)%nat ->
  data (derived f) = firstn (horizonYears f + 1) (data (derived g)) /\
  annualHotWaterKwh (derived g) = annualHotWaterKwh (derived f) /\
  annualHotWaterCost (derived g) = annualHotWaterCost (derived f) /\
  annualSavings (derived g) = annualSavings (derived f) /\
  netAnnualSavings (derived g) = netAnnualSavings (derived f) /\
  upfront (derived g) = upfront (derived f) /\
  paybackYears (derived g) = paybackYears (derived f) /\
  tenYearRoi (derived g) = tenYearRoi (derived f).
Proof.
  intros H1 H2 H3 H4 H5 H6 H7 Hle.
  unfold derived. rewrite H1, H2, H3, H4, H5, H6, H7, !or_zero_id.
  required_fields f;
    cbn [data annualHotWaterKwh annualHotWaterCost annualSavings
         netAnnualSavings upfront paybackYears tenYearRoi];
    split_and; try reflexivity;
    rewrite ?cash_flow_spec, firstn_map, firstn_seq_le by lia; reflexivity.
Qed.

Lemma horizon_extends_witness :
  data (derived defaultInputs) = firstn 16 (data (derived twenty_years)) /\
  paybackYears (derived twenty_years) = paybackYears (derived defaultInputs).
Proof.
  destruct (horizon_extends defaultInputs twenty_years)
    as (Hd & _ & _ & _ & _ & _ & Hp & _);
    try reflexivity; [cbn; lia|].
  split; [exact Hd | exact Hp].
Defined.

(** ** The legacy component *)

(** X10. The slider shows what it was set to: for every position from 40
    to 85, the ratio that [onValueChange] stores lies between 0.4 and 0.85,
    and the slider value computed from it is that position again. *)
Theorem slider_round_trip (form : Legacy.RoiInputs) (p : Z) :
  (40 <= p <= 85)%Z ->
  Legacy.slider_value (Legacy.onValueChange form [of_int p]) = [of_int p] /\
  (0.4 <=? Legacy.savingsRatio (Legacy.onValueChange form [of_int p])) = true /\
  (Legacy.savingsRatio (Legacy.onValueChange form [of_int p]) <=? 0.85) = true.
Proof.
  intros Hp. unfold Legacy.slider_value, Legacy.onValueChange.
  cbn [Legacy.savingsRatio nth].
  assert (H : In p (map Z.of_nat (seq 40 46))).
  { apply in_map_iff. exists (Z.to_nat p). split; [lia|]. apply in_seq. lia. }
  cbn [seq map Z.of_nat Pos.of_succ_nat Pos.succ] in H.
  repeat (destruct H as [<-|H]; [vm_compute; repeat split; reflexivity|]).
  contradiction.
Qed.

Lemma slider_round_trip_witness :
  Legacy.slider_value (Legacy.onValueChange Legacy.defaultInputs [66]) = [66].
Proof. apply (slider_round_trip Legacy.defaultInputs 66). lia. Defined.

(** X11. The legacy component computes with 0 where a field has been
    cleared: with a finite savings ratio and a maintenance that is not
    negative, an empty or blank text in householdSize, electricityPrice or
    kwhPerPerson, the other factors being finite, gives a yearly saving of
    zero, a net saving of 0 and a [paybackYears] of [Infinity]. *)
Theorem legacy_cleared_field (form : Legacy.RoiInputs) (text : string) :
  trim text = EmptyString ->
  isFinite (Legacy.savingsRatio form) = true ->
  (0 <=? Legacy.maintenance form) = true ->
  (isFinite (Legacy.kwhPerPerson form) = true ->
   isFinite (Legacy.electricityPrice form) = true ->
   nothing_saved (Legacy.derived (Legacy.onChange_householdSize form text))) /\
  (isFinite (Legacy.householdSize form * Legacy.kwhPerPerson form) = true ->
   nothing_saved (Legacy.derived (Legacy.onChange_electricityPrice form text))) /\
  (isFinite (Legacy.householdSize form) = true ->
   isFinite (Legacy.electricityPrice form) = true ->
   nothing_saved (Legacy.derived (Legacy.onChange_kwhPerPerson form text))).
Proof.
  intros Ht Hr Hm. split_and.
  - intros Hk Hp. apply nothing_saved_zero; [|assumption].
    unfold Legacy.derived, Legacy.onChange_householdSize.
    cbn [annualSavings Legacy.householdSize Legacy.electricityPrice
         Legacy.kwhPerPerson Legacy.savingsRatio].
    rewrite (Number_blank text Ht).
    auto using zero_mul_l.
  - intros Hk. apply nothing_saved_zero; [|assumption].
    unfold Legacy.derived, Legacy.onChange_electricityPrice.
    cbn [annualSavings Legacy.householdSize Legacy.electricityPrice
         Legacy.kwhPerPerson Legacy.savingsRatio].
    rewrite (Number_blank text Ht).
    apply zero_mul_l; [|assumption]. now apply zero_mul_r.
  - intros Hh Hp. apply nothing_saved_zero; [|assumption].
    unfold Legacy.derived, Legacy.onChange_kwhPerPerson.
    cbn [annualSavings Legacy.householdSize Legacy.electricityPrice
         Legacy.kwhPerPerson Legacy.savingsRatio].
    rewrite (Number_blank text Ht).
    apply zero_mul_l; [|assumption]. apply zero_mul_l; [|assumption].
    now apply zero_mul_r.
Qed.

Lemma legacy_cleared_field_witness :
  nothing_saved
    (Legacy.derived (Legacy.onChange_householdSize Legacy.defaultInputs EmptyString)).
Proof.
  apply (legacy_cleared_field Legacy.defaultInputs EmptyString); reflexivity.
Defined.

(** X16. Both components read what is typed alike: when the text typed
    into a field of the legacy form leaves a form whose five fields satisfy
    their minimums, with a finite electricity price, the sanitized
    component, given the same text in the same field and the numbers of
    the other fields, computes the results of the legacy component. *)
Theorem typed_text_agrees (form : Legacy.RoiInputs) (text : string) :
  (meets_minimums (Legacy.onChange_householdSize form text) = true ->
   isFinite (Legacy.electricityPrice form) = true ->
   derived (onChange_householdSize (as_text_form form) text)
   = Legacy.derived (Legacy.onChange_householdSize form text)) /\
  (meets_minimums (Legacy.onChange_electricityPrice form text) = true ->
   isFinite (Number text) = true ->
   derived (onChange_electricityPrice (as_text_form form) text)
   = Legacy.derived (Legacy.onChange_electricityPrice form text)) /\
  (meets_minimums (Legacy.onChange_systemCost form text) = true ->
   isFinite (Legacy.electricityPrice form) = true ->
   derived (onChange_systemCost (as_text_form form) text)
   = Legacy.derived (Legacy.onChange_systemCost form text)) /\
  (meets_minimums (Legacy.onChange_grant form text) = true ->
   isFinite (Legacy.electricityPrice form) = true ->
   derived (onChange_grant (as_text_form form) text)
   = Legacy.derived (Legacy.onChange_grant form text)) /\
  (meets_minimums (Legacy.onChange_kwhPerPerson form text) = true ->
   isFinite (Legacy.electricityPrice form) = true ->
   derived (onChange_kwhPerPerson (as_text_form form) text)
   = Legacy.derived (Legacy.onChange_kwhPerPerson form text)).
Proof.
  unfold meets_minimums.
  split_and; intros H Hprice; do 8 (apply andb_prop in H as [H ?]);
    unfold derived, as_text_form, Legacy.derived,
      onChange_householdSize, onChange_electricityPrice, onChange_systemCost,
      onChange_grant, onChange_kwhPerPerson,
      Legacy.onChange_householdSize, Legacy.onChange_electricityPrice,
      Legacy.onChange_systemCost, Legacy.onChange_grant,
      Legacy.onChange_kwhPerPerson in *;
    cbn [householdSize electricityPrice systemCost grant kwhPerPerson
         maintenance savingsRatio horizonYears
         Legacy.householdSize Legacy.electricityPrice Legacy.systemCost
         Legacy.grant Legacy.kwhPerPerson Legacy.maintenance
         Legacy.savingsRatio Legacy.horizonYears] in *;
    rewrite ?(clampInt_text_fixed text 1), ?(clampInt_text_fixed text 500),
      ?(clampMin_text_fixed text 0.1), ?(clampInt_zero_text_fixed text)
      by (reflexivity || assumption);
    rewrite ?(clampInt_fixed _ 1), ?(clampInt_fixed _ 500),
      ?(clampMin_fixed _ 0.1), ?clampInt_zero_fixed
      by (reflexivity || assumption);
    rewrite Math_max_sub_Number_of_String; reflexivity.
Qed.

Lemma typed_text_agrees_witness :
  derived (onChange_householdSize (as_text_form Legacy.defaultInputs) "4")
  = Legacy.derived (Legacy.onChange_householdSize Legacy.defaultInputs "4").
Proof.
  apply (typed_text_agrees Legacy.defaultInputs "4"); reflexivity.
Defined.

(** X15. The legacy series: for every legacy form, [data] has
    [horizonYears + 1] points, of years [0..horizonYears] in order, the
    point of year [i] is the rounding of [-upfront] with the net saving
    added [i] times, and neither [netAnnualSavings] nor [upfront] is ever
    below 0. *)
Theorem legacy_series (form : Legacy.RoiInputs) :
  List.length (data (Legacy.derived form)) = (Legacy.horizonYears form + 1)%nat /\
  map year (data (Legacy.derived form)) = seq 0 (Legacy.horizonYears form + 1) /\
  (forall i, (i <= Legacy.horizonYears form)%nat ->
     value_at (Legacy.derived form) i =
     Math_round (running_total (- upfront (Legacy.derived form))
                               (netAnnualSavings (Legacy.derived form)) i)) /\
  (netAnnualSavings (Legacy.derived form) <? 0) = false /\
  (upfront (Legacy.derived form) <? 0) = false.
Proof.
  unfold value_at, Legacy.derived. cbn [data netAnnualSavings upfront].
  rewrite cash_flow_spec. split_and.
  - now rewrite length_map, length_seq.
  - rewrite map_map. cbn [year]. apply map_id.
  - intros i Hi. rewrite map_map. cbn [value]. now rewrite nth_map_seq by lia.
  - apply Math_max_zero_not_negative.
  - apply Math_max_zero_not_negative.
Qed.

Lemma legacy_series_witness :
  value_at (Legacy.derived Legacy.defaultInputs) 2 =
  Math_round (running_total (- upfront (Legacy.derived Legacy.defaultInputs))
                            (netAnnualSavings (Legacy.derived Legacy.defaultInputs)) 2).
Proof.
  apply (legacy_series Legacy.defaultInputs). cbn. lia.
Defined.

(** ** The result tiles *)

(** X12. [Stat] loses nothing of the text. When it finds a unit, the unit
    is one non-empty word without a space, and either the number, a space
    and the unit make up the normalized text, or the unit is the [%] that
    ends the normalized text and the number is what stands before it,
    trimmed. When it finds no unit, the number is the whole normalized
    text, which then holds no space. *)
Theorem Stat_keeps_text (value : string) :
  match Stat value with
  | (num, Some unit) =>
      unit <> EmptyString /\ has_space unit = false /\
      (normalized value = (num ++ " " ++ unit)%string \/
       (unit = "%"%string /\
        exists g, normalized value = (g ++ "%")%string /\ num = trim g))
  | (num, None) => num = normalized value /\ has_space num = false
  end.
Proof.
  unfold Stat. fold (normalized value).
  destruct (match_percent (normalized value)) as [[g1 g2]|] eqn:Em.
  - apply match_percent_spec in Em as [-> Hs].
    split_and; [discriminate | reflexivity |]. right. split; [reflexivity|].
    now exists g1.
  - rewrite split_space_one.
    destruct (has_space (normalized value)) eqn:Hs; [|now split].
    pose proof (join_removelast _ Hs) as Hj.
    pose proof (last_no_space (normalized value)) as Hl.
    destruct (last (split_space (normalized value)) EmptyString) as [|c u] eqn:El.
    + exfalso. revert Hj. apply trim_no_space.
    + split_and; [discriminate | assumption | now left].
Qed.

(** X13. A text that ends in [%]: when what stands before the [%] holds no
    line terminator and is not blank, the unit is [%] and the number is
    that text, normalized. *)
Theorem Stat_percent (g : string) :
  has_line_terminator g = false ->
  normalized g <> EmptyString ->
  Stat (g ++ "%") = (normalized g, Some "%"%string).
Proof.
  intros Hlt Hne. unfold Stat.
  rewrite replace_nbsp_app by reflexivity.
  change (replace_nbsp "%") with "%"%string.
  rewrite trim_percent.
  assert (Hg : has_line_terminator (skip_white (replace_nbsp g)) = false)
    by now apply has_line_terminator_skip_white, has_line_terminator_replace_nbsp.
  unfold match_percent. rewrite but_last_app.
  destruct (skip_white (replace_nbsp g)) as [|c r] eqn:E.
  - exfalso. apply Hne. unfold normalized, trim. now rewrite E.
  - rewrite Hg. change (code "%" =? 37)%N with true. cbn [negb andb].
    f_equal. rewrite <- E, trim_skip_white. reflexivity.
Qed.

Lemma Stat_percent_witness : Stat "33%" = ("33", Some "%")%string.
Proof. apply (Stat_percent "33"); [reflexivity | discriminate]. Defined.

(** X14. A no-break space counts as a space, wherever it stands: the text
    with a no-break space between two parts is split as the text with a
    space between them. *)
Theorem Stat_nbsp (a b : string) :
  Stat (a ++ nbsp ++ b) = Stat (a ++ " " ++ b).
Proof. unfold Stat. now rewrite replace_nbsp_nbsp. Qed.

(** X18. The payback tile: when [paybackYears] is finite the tile shows
    the number printed by [toFixed(1)] and the unit of years, whatever the
    number is; when it is not, the tile shows the dash and no unit. *)
Theorem payback_tile (r : DerivedResults) :
  Stat (payback_value r)
  = if isFinite (paybackYears r)
    then (toFixed1 (paybackYears r), Some years_unit)
    else (dash, None).
Proof.
  unfold payback_value. destruct (isFinite (paybackYears r)); [|reflexivity].
  pose proof (toFixed1_plain (paybackYears r)) as Hp.
  pose proof (toFixed1_not_empty (paybackYears r)) as Hne.
  set (t := toFixed1 (paybackYears r)) in *.
  unfold Stat.
  rewrite replace_nbsp_plain_app by assumption.
  change (replace_nbsp (" " ++ years_unit)) with (" " ++ years_unit)%string.
  assert (Ht : trim (t ++ " " ++ years_unit) = (t ++ " " ++ years_unit)%string).
  { unfold trim. destruct t as [|c t']; [congruence|].
    cbn [plain] in Hp. apply andb_prop in Hp as [Hc Hp'].
    cbn [append]. rewrite (skip_white_plain c _ Hc).
    change (String c (t' ++ String " " years_unit))
      with (String c t' ++ String " " years_unit)%string.
    rewrite trim_end_plain_app by (cbn [plain]; now rewrite Hc, Hp').
    reflexivity. }
  rewrite Ht.
  assert (Hm : match_percent (t ++ " " ++ years_unit) = None).
  { unfold match_percent, years_unit.
    change (t ++ " " ++ String (ascii_of_N 195) (String (ascii_of_N 165) "r"))%string
      with (t ++ (String " " (String (ascii_of_N 195)
                    (String (ascii_of_N 165) EmptyString)) ++ "r"))%string.
    rewrite <- string_app_assoc, but_last_app.
    change (code "r" =? 37)%N with false. cbn [andb].
    match goal with
    | |- match ?X with EmptyString => _ | String _ _ => _ end = _ => now destruct X
    end. }
  rewrite Hm. cbn [append]. rewrite split_space_plain_app by assumption.
  reflexivity.
Qed.

(** X19. The ten-year tile always shows the unit [%], and as its number
    the rounded percentage as [String] prints it, NaN and the infinities
    included. *)
Theorem roi_tile (r : DerivedResults) :
  Stat (roi_value r)
  = (Number_toString (Math_round (tenYearRoi r * 100)), Some "%"%string).
Proof.
  unfold roi_value.
  pose proof (Number_toString_plain (Math_round (tenYearRoi r * 100))) as Hp.
  pose proof (Number_toString_not_empty (Math_round (tenYearRoi r * 100))) as Hne.
  set (t := Number_toString _) in *.
  unfold Stat.
  rewrite replace_nbsp_plain_app by assumption.
  change (replace_nbsp "%") with "%"%string.
  rewrite trim_percent.
  destruct t as [|c t'] eqn:Et; [congruence|]. rewrite <- Et in *.
  assert (Hs : skip_white t = t).
  { rewrite Et in *. cbn [plain] in Hp. apply andb_prop in Hp as [Hc _].
    now apply skip_white_plain. }
  rewrite Hs. unfold match_percent. rewrite but_last_app.
  rewrite Et at 1. rewrite <- Et.
  rewrite (has_line_terminator_plain t Hp).
  change (code "%" =? 37)%N with true. cbn [negb andb].
  f_equal. now apply trim_plain.
Qed.
